(** * Water Sort Puzzle: transition model, heuristics and search engine

    Shallow embedding of [watersort/game.py], [watersort/heuristics.py] and
    [watersort/search.py].

    Conventions.
    - A tube is a Python tuple of colour names, bottom first: the top unit is
      the last element of the list.
    - Python integers are unbounded: they are modelled by [Z].  [len] is the
      Python [len], as an integer.
    - A raised exception and an exhausted iteration budget (only for the
      [while] loops and the recursions of the search engine) are outcomes of
      their own, see [outcome].
    - [SearchResult.time_seconds] is wall-clock time and is not modelled. *)

From Stdlib Require Import ZArith Lia Sorted.
From stdpp Require Import gmap strings list sorting.

Local Open Scope Z_scope.

(** ** Data model *)

Abbreviation Color := string (only parsing).
Abbreviation Tube := (list string) (only parsing).
Abbreviation State := (list (list string)) (only parsing).

(** [Move]: a frozen dataclass with two integer fields. *)
Record Move : Type := mkMove { src : Z; dst : Z }.

#[global] Instance Move_eq_dec : EqDecision Move.
Proof. solve_decision. Defined.

(** [WaterSortGame]: the configuration kept by the constructor.  The random
    generator is only used by state generation and is left out. *)
Record WaterSortGame : Type := mkGame {
  num_tubes : Z;
  num_colors : Z;
  capacity : Z
}.

(** The checks of [WaterSortGame.__init__]; the palette has 12 colours. *)
Definition valid_configuration (g : WaterSortGame) : bool :=
  (5 <=? num_tubes g) && (num_tubes g <=? 12)
  && (3 <=? num_colors g) && (num_colors g <=? num_tubes g - 2)
  && (num_colors g <=? 12).

Definition len {A : Type} (l : list A) : Z := Z.of_nat (length l).

(** [enumerate(xs)] *)
Definition enumerate {A : Type} (l : list A) : list (Z * A) :=
  imap (fun i x => (Z.of_nat i, x)) l.

(** [len(set(tube))] *)
Definition distinct_colors (tube : Tube) : Z :=
  Z.of_nat (size (list_to_set tube : gset string)).

(** ** Outcomes of fallible code *)

Inductive exn : Type :=
| ValueError (msg : string)
| KeyError
| IndexError.

Inductive outcome (A : Type) : Type :=
| Ret (a : A)
| Raise (e : exn)
| OutOfFuel.
Arguments Ret {A} a.
Arguments Raise {A} e.
Arguments OutOfFuel {A}.

#[global] Instance outcome_bind : MBind outcome := fun A B k c =>
  match c with
  | Ret a => k a
  | Raise e => Raise e
  | OutOfFuel => OutOfFuel
  end.

(** ** The puzzle model ([game.py]) *)

Definition is_goal_state (g : WaterSortGame) (state : State) : bool :=
  forallb (fun tube =>
    match tube with
    | [] => true
    | _ => (len tube =? capacity g) && (distinct_colors tube =? 1)
    end) state.

Definition is_valid_state (g : WaterSortGame) (state : State) : bool :=
  if negb (len state =? num_tubes g) then false
  else forallb (fun tube => negb (len tube >? capacity g)) state.

(** The backward scan of [get_valid_moves]:
    [for i in range(len(src) - 2, -1, -1)], over the units below the top,
    from the top down; it stops at the first unit of another colour. *)
Fixpoint run_scan (top_color : Color) (below : list string) (run_length : Z) : Z :=
  match below with
  | [] => run_length
  | c :: rest =>
      if decide (c = top_color) then run_scan top_color rest (run_length + 1)
      else run_length
  end.

Definition top_run_length (top_color : Color) (src_tube : Tube) : Z :=
  run_scan top_color (tail (reverse src_tube)) 1.

(** The inner [for dst_idx, dst in enumerate(state)] of [get_valid_moves]. *)
Definition moves_into (g : WaterSortGame) (src_idx : Z) (src_tube : Tube)
    (top_color : Color) (run_length : Z)
    (moves : list Move) (dsts : list (Z * Tube)) : list Move :=
  foldl (fun moves '(dst_idx, dst_tube) =>
    if src_idx =? dst_idx then moves
    else if len dst_tube =? capacity g then moves
    else if match last dst_tube with
            | Some d => negb (bool_decide (d = top_color))
            | None => false
            end then moves
    else
      (* [if not dst and run_length == len(src): pass] changes nothing *)
      let moves :=
        if match dst_tube with [] => run_length =? len src_tube | _ => false end
        then moves else moves in
      moves ++ [mkMove src_idx dst_idx]) moves dsts.

Definition get_valid_moves (g : WaterSortGame) (state : State) : list Move :=
  foldl (fun moves '(src_idx, src_tube) =>
    match last src_tube with
    | None => moves
    | Some top_color =>
        let run_length := top_run_length top_color src_tube in
        moves_into g src_idx src_tube top_color run_length moves (enumerate state)
    end) [] (enumerate state).

(** The [while] loop of [apply_move]:
    [while src and src[-1] == top_color and len(dst) < capacity].
    Every iteration pops one unit of [src], so [length src] iterations are
    enough (see [pour_loop_spec]). *)
Fixpoint pour_loop (fuel : nat) (top_color : Color) (cap : Z)
    (src_tube dst_tube : Tube) (poured : Z) : Tube * Tube * Z :=
  match fuel with
  | O => (src_tube, dst_tube, poured)
  | S fuel' =>
      match last src_tube with
      | Some c =>
          if bool_decide (c = top_color) && (len dst_tube <? cap)
          then pour_loop fuel' top_color cap
                 (removelast src_tube) (dst_tube ++ [c]) (poured + 1)
          else (src_tube, dst_tube, poured)
      | None => (src_tube, dst_tube, poured)
      end
  end.

Definition apply_move (g : WaterSortGame) (state : State) (move : Move)
    : outcome (State * Z) :=
  if negb ((0 <=? src move) && (src move <? len state)
           && (0 <=? dst move) && (dst move <? len state))
  then Raise (ValueError "Move indices out of range")
  else if src move =? dst move
  then Raise (ValueError "Source and destination tubes must differ")
  else
    match state !! Z.to_nat (src move), state !! Z.to_nat (dst move) with
    | Some src_tube, Some dst_tube =>
        match last src_tube with
        | None => Raise (ValueError "Cannot pour from an empty tube")
        | Some top_color =>
            if len dst_tube >=? capacity g
            then Raise (ValueError "Destination tube is full")
            else if match last dst_tube with
                    | Some d => negb (bool_decide (d = top_color))
                    | None => false
                    end
            then Raise (ValueError "Destination top color must match the poured color")
            else
              let '(src_tube', dst_tube', poured) :=
                pour_loop (length src_tube) top_color (capacity g)
                          src_tube dst_tube 0 in
              Ret (<[Z.to_nat (dst move) := dst_tube']>
                     (<[Z.to_nat (src move) := src_tube']> state), poured)
        end
    | _, _ => Raise IndexError
    end.

(** ** The heuristic library ([heuristics.py])

    Every builder closes over the game; the heuristic it returns is the
    function below applied to that game. *)

(** [Counter(tube)] *)
Definition Counter (tube : Tube) : gmap string Z :=
  foldl (fun counts c => <[c := default 0 (counts !! c) + 1]> counts) ∅ tube.

(** [sum(amounts)] and [max(amounts)]; [max] is only called on a list of at
    least two amounts. *)
Definition sum_amounts (amounts : list Z) : Z := foldl Z.add 0 amounts.

Definition max_amounts (amounts : list Z) : Z :=
  match amounts with
  | [] => 0
  | a :: rest => foldl Z.max a rest
  end.

(** One round of the first loop of the entropy heuristic:
    [for color, amount in counts.items(): color_distribution[color].append(amount)].
    A dictionary is iterated in insertion order in Python and in key order
    here; each colour is appended to once per tube and the penalty is a sum,
    so the order is not observable. *)
Definition record_tube (color_distribution : gmap string (list Z)) (tube : Tube)
    : gmap string (list Z) :=
  map_fold (fun color amount cd =>
              <[color := default [] (cd !! color) ++ [amount]]> cd)
           color_distribution (Counter tube).

Definition entropy_penalty (color_distribution : gmap string (list Z)) : Z :=
  map_fold (fun (color : string) (amounts : list Z) (penalty : Z) =>
    if len amounts <=? 1 then penalty
    else
      let total_units := sum_amounts amounts in
      let max_in_single_tube := max_amounts amounts in
      let units_outside := total_units - max_in_single_tube in
      penalty + (len amounts - 1) * units_outside) 0 color_distribution.

Definition entropy_heuristic (g : WaterSortGame) (state : State) : Z :=
  entropy_penalty (foldl record_tube ∅ state).

(** [for color in tube[1:]: if color == base_color: streak += 1 else: break] *)
Fixpoint streak_scan (base_color : Color) (rest : list string) (streak : Z) : Z :=
  match rest with
  | [] => streak
  | color :: rest' =>
      if decide (color = base_color) then streak_scan base_color rest' (streak + 1)
      else streak
  end.

Definition completion_heuristic (g : WaterSortGame) (state : State) : Z :=
  let '(tubes_incomplete, colors_positioned) :=
    foldl (fun '(tubes_incomplete, colors_positioned) tube =>
      match tube with
      | [] => (tubes_incomplete, colors_positioned)
      | base_color :: rest =>
          if (len tube =? capacity g) && (distinct_colors tube =? 1)
          then (tubes_incomplete, colors_positioned)
          else (tubes_incomplete + 1,
                colors_positioned + streak_scan base_color rest 1)
      end) (0, 0) state in
  tubes_incomplete * capacity g - colors_positioned.

(** The inner loop of the blocking heuristic, over [enumerate(tube[:-1])]. *)
Definition blocked_in_tube (tube : Tube) (blocked_units : Z) : Z :=
  foldl (fun blocked_units '(idx, color) =>
    let above := drop (Z.to_nat (idx + 1)) tube in
    if existsb (fun upper => negb (bool_decide (upper = color))) above
    then blocked_units + 1 else blocked_units)
    blocked_units (enumerate (removelast tube)).

Definition blocking_heuristic (g : WaterSortGame) (state : State) : Z :=
  let '(total_mixed, blocked_units) :=
    foldl (fun '(total_mixed, blocked_units) tube =>
      match tube with
      | [] => (total_mixed, blocked_units)
      | _ =>
          let total_mixed :=
            if distinct_colors tube >? 1 then total_mixed + len tube
            else total_mixed in
          (total_mixed, blocked_in_tube tube blocked_units)
      end) (0, 0) state in
  total_mixed + 2 * blocked_units.

(** ** The search engine ([search.py]) *)

Record SearchResult : Type := mkResult {
  success : bool;
  moves : list Move;
  explored_nodes : Z;
  expanded_nodes : Z;
  max_frontier_size : Z;
  depth : Z
}.

(** [_reconstruct_moves]: the [while True] walk up the parent chain.  A
    missing key raises [KeyError]. *)
Fixpoint reconstruct_loop (fuel : nat)
    (parents : gmap State (option State))
    (moves_taken : gmap State (option Move))
    (current : State) (path : list Move) : outcome (list Move) :=
  match fuel with
  | O => OutOfFuel
  | S fuel' =>
      match moves_taken !! current with
      | None => Raise KeyError
      | Some None => Ret path
      | Some (Some move) =>
          let path := path ++ [move] in
          match parents !! current with
          | None => Raise KeyError
          | Some None => Ret path
          | Some (Some parent) =>
              reconstruct_loop fuel' parents moves_taken parent path
          end
      end
  end.

Definition _reconstruct_moves (fuel : nat) (goal_state : State)
    (parents : gmap State (option State))
    (moves_taken : gmap State (option Move)) : outcome (list Move) :=
  path ← reconstruct_loop fuel parents moves_taken goal_state [];
  Ret (reverse path).

(** In each algorithm the local variables of the Python function are the
    fields of a record [vars].  The field [inserted] is a history variable
    with no counterpart in the source: it lists, in order, every state put
    into a set called [visited]; it is written and never read. *)

Module Bfs.

Record vars : Type := mkVars {
  frontier : list State;
  parents : gmap State (option State);
  moves_taken : gmap State (option Move);
  visited : gset State;
  visited_history : gset State;
  expanded : Z;
  max_frontier : Z;
  inserted : list State
}.

Definition init (initial_state : State) : vars :=
  {| frontier := [initial_state];
     parents := {[initial_state := None]};
     moves_taken := {[initial_state := None]};
     visited := {[initial_state]};
     visited_history := {[initial_state]};
     expanded := 0;
     max_frontier := 1;
     inserted := [initial_state] |}.

(** The body of the [for] loop once [next_state] is known to be new. *)
Definition discover (current next_state : State) (move : Move) (v : vars) : vars :=
  {| frontier := frontier v ++ [next_state];
     parents := <[next_state := Some current]> (parents v);
     moves_taken := <[next_state := Some move]> (moves_taken v);
     visited := {[next_state]} ∪ visited v;
     visited_history := {[next_state]} ∪ visited_history v;
     expanded := expanded v;
     max_frontier := max_frontier v;
     inserted := inserted v ++ [next_state] |}.

Fixpoint for_moves (g : WaterSortGame) (current : State)
    (valid_moves : list Move) (v : vars) : outcome vars :=
  match valid_moves with
  | [] => Ret v
  | move :: rest =>
      '(next_state, _) ← apply_move g current move;
      if decide (next_state ∈ visited v) then for_moves g current rest v
      else for_moves g current rest (discover current next_state move v)
  end.

(** [current = frontier.popleft(); expanded += 1] *)
Definition popped (rest : list State) (v : vars) : vars :=
  {| frontier := rest;
     parents := parents v;
     moves_taken := moves_taken v;
     visited := visited v;
     visited_history := visited_history v;
     expanded := expanded v + 1;
     max_frontier := max_frontier v;
     inserted := inserted v |}.

(** [max_frontier = max(max_frontier, len(frontier))] *)
Definition measured (v : vars) : vars :=
  {| frontier := frontier v;
     parents := parents v;
     moves_taken := moves_taken v;
     visited := visited v;
     visited_history := visited_history v;
     expanded := expanded v;
     max_frontier := Z.max (max_frontier v) (len (frontier v));
     inserted := inserted v |}.

Fixpoint while_frontier (fuel : nat) (g : WaterSortGame) (v : vars)
    : outcome (SearchResult * vars) :=
  match fuel with
  | O => OutOfFuel
  | S fuel' =>
      match frontier v with
      | [] =>
          Ret (mkResult false [] (Z.of_nat (size (visited_history v)))
                        (expanded v) (max_frontier v) 0, v)
      | current :: rest =>
          let v := popped rest v in
          if is_goal_state g current then
            path ← _reconstruct_moves fuel' current (parents v) (moves_taken v);
            Ret (mkResult true path (Z.of_nat (size (visited_history v)))
                          (expanded v) (max_frontier v) (len path), v)
          else
            v ← for_moves g current (get_valid_moves g current) v;
            while_frontier fuel' g (measured v)
      end
  end.

End Bfs.

(** [bfs_run] also returns the final bookkeeping, which [bfs] discards.  On
    an initial state that is already a goal, [bfs] returns before any of its
    structures is built: the bookkeeping is [None]. *)
Definition bfs_run (fuel : nat) (g : WaterSortGame) (initial_state : State)
    : outcome (SearchResult * option Bfs.vars) :=
  if is_goal_state g initial_state
  then Ret (mkResult true [] 1 0 1 0, None)
  else '(result, v) ← Bfs.while_frontier fuel g (Bfs.init initial_state);
       Ret (result, Some v).

Definition bfs (fuel : nat) (g : WaterSortGame) (initial_state : State)
    : outcome SearchResult :=
  '(result, _) ← bfs_run fuel g initial_state; Ret result.

Module Dfs.

Record vars : Type := mkVars {
  visited : gset State;
  visited_history : gset State;
  parents : gmap State (option State);
  moves_taken : gmap State (option Move);
  expanded : Z;
  max_frontier : Z;
  success_state : option State;
  inserted : list State
}.

Definition init (initial_state : State) : vars :=
  {| visited := {[initial_state]};
     visited_history := {[initial_state]};
     parents := {[initial_state := None]};
     moves_taken := {[initial_state := None]};
     expanded := 0;
     max_frontier := 1;
     success_state := None;
     inserted := [initial_state] |}.

(** [success_state = state] *)
Definition succeed (state : State) (v : vars) : vars :=
  {| visited := visited v;
     visited_history := visited_history v;
     parents := parents v;
     moves_taken := moves_taken v;
     expanded := expanded v;
     max_frontier := max_frontier v;
     success_state := Some state;
     inserted := inserted v |}.

(** [expanded += 1] *)
Definition expand (v : vars) : vars :=
  {| visited := visited v;
     visited_history := visited_history v;
     parents := parents v;
     moves_taken := moves_taken v;
     expanded := expanded v + 1;
     max_frontier := max_frontier v;
     success_state := success_state v;
     inserted := inserted v |}.

(** The five statements of the [for] body before the recursive call. *)
Definition descend (state next_state : State) (move : Move) (v : vars) : vars :=
  let visited' := {[next_state]} ∪ visited v in
  {| visited := visited';
     visited_history := {[next_state]} ∪ visited_history v;
     parents := <[next_state := Some state]> (parents v);
     moves_taken := <[next_state := Some move]> (moves_taken v);
     expanded := expanded v;
     max_frontier := Z.max (max_frontier v) (Z.of_nat (size visited'));
     success_state := success_state v;
     inserted := inserted v ++ [next_state] |}.

(** [visited.remove(next_state)] *)
Definition unwind (next_state : State) (v : vars) : vars :=
  {| visited := visited v ∖ {[next_state]};
     visited_history := visited_history v;
     parents := parents v;
     moves_taken := moves_taken v;
     expanded := expanded v;
     max_frontier := max_frontier v;
     success_state := success_state v;
     inserted := inserted v |}.

(** The [for] loop of [search]; [rec] is the recursive call [search]. *)
Fixpoint for_moves (g : WaterSortGame)
    (rec : State -> Z -> vars -> outcome (bool * vars))
    (state : State) (depth : Z) (valid_moves : list Move) (v : vars)
    : outcome (bool * vars) :=
  match valid_moves with
  | [] => Ret (false, v)
  | move :: rest =>
      '(next_state, _) ← apply_move g state move;
      if decide (next_state ∈ visited v) then for_moves g rec state depth rest v
      else
        '(found, v) ← rec next_state (depth + 1) (descend state next_state move v);
        if found : bool then Ret (true, v)
        else for_moves g rec state depth rest (unwind next_state v)
  end.

(** The nested function [search(state, depth)].  The interpreter's recursion
    limit is not modelled. *)
Fixpoint search (fuel : nat) (g : WaterSortGame) (depth_limit : option Z)
    (state : State) (depth : Z) (v : vars) : outcome (bool * vars) :=
  match fuel with
  | O => OutOfFuel
  | S fuel' =>
      if is_goal_state g state then Ret (true, succeed state v)
      else if match depth_limit with
              | Some limit => depth >=? limit
              | None => false
              end
      then Ret (false, v)
      else
        for_moves g (search fuel' g depth_limit) state depth
                  (get_valid_moves g state) (expand v)
  end.

End Dfs.

Definition dfs_run (fuel : nat) (g : WaterSortGame) (initial_state : State)
    (depth_limit : option Z) : outcome (SearchResult * Dfs.vars) :=
  '(found, v) ← Dfs.search fuel g depth_limit initial_state 0 (Dfs.init initial_state);
  match found, Dfs.success_state v with
  | true, Some success_state =>
      path ← _reconstruct_moves fuel success_state (Dfs.parents v) (Dfs.moves_taken v);
      Ret (mkResult true path (Z.of_nat (size (Dfs.visited_history v)))
                    (Dfs.expanded v) (Dfs.max_frontier v) (len path), v)
  | _, _ =>
      Ret (mkResult false [] (Z.of_nat (size (Dfs.visited_history v)))
                    (Dfs.expanded v) (Dfs.max_frontier v) 0, v)
  end.

(** [depth_limit] is [None] when the caller gives no limit. *)
Definition dfs (fuel : nat) (g : WaterSortGame) (initial_state : State)
    (depth_limit : option Z) : outcome SearchResult :=
  '(result, _) ← dfs_run fuel g initial_state depth_limit; Ret result.

Module AStar.

(** An entry of [open_heap]: [(f, entry_counter, state)]. *)
Abbreviation entry := (Z * Z * list (list string))%type (only parsing).

(** Tuple order on the first two components.  Two entries never agree on
    [entry_counter], so the states are never compared. *)
Definition entry_lt (a b : entry) : bool :=
  let '(fa, ca, _) := a in
  let '(fb, cb, _) := b in
  (fa <? fb) || ((fa =? fb) && (ca <? cb)).

(** [heapq] is modelled by its contract: the heap is a bag of entries,
    [heappush] adds one, [heappop] removes a least one. *)
Definition heappush (heap : list entry) (e : entry) : list entry := heap ++ [e].

Fixpoint extract_min (e : entry) (rest : list entry) : entry * list entry :=
  match rest with
  | [] => (e, [])
  | e' :: rest' =>
      let '(m, others) := extract_min e' rest' in
      if entry_lt m e then (m, e :: others) else (e, rest)
  end.

Definition heappop (heap : list entry) : option (entry * list entry) :=
  match heap with
  | [] => None
  | e :: rest => Some (extract_min e rest)
  end.

Record vars : Type := mkVars {
  open_heap : list entry;
  g_cost : gmap State Z;
  parents : gmap State (option State);
  moves_taken : gmap State (option Move);
  expanded : Z;
  entry_counter : Z;
  visited : gset State;
  max_frontier : Z;
  inserted : list State
}.

Definition init (initial_state : State) (initial_h : Z) : vars :=
  {| open_heap := heappush [] (initial_h, 0, initial_state);
     g_cost := {[initial_state := 0]};
     parents := {[initial_state := None]};
     moves_taken := {[initial_state := None]};
     expanded := 0;
     entry_counter := 0;
     visited := ∅;
     max_frontier := 1;
     inserted := [] |}.

(** The body of the [for] loop once [tentative_g] improves on [g_cost]. *)
Definition relax (heuristic : State -> Z) (current next_state : State)
    (move : Move) (tentative_g : Z) (v : vars) : vars :=
  let entry_counter' := entry_counter v + 1 in
  let f_value := tentative_g + heuristic next_state in
  {| open_heap := heappush (open_heap v) (f_value, entry_counter', next_state);
     g_cost := <[next_state := tentative_g]> (g_cost v);
     parents := <[next_state := Some current]> (parents v);
     moves_taken := <[next_state := Some move]> (moves_taken v);
     expanded := expanded v;
     entry_counter := entry_counter';
     visited := visited v;
     max_frontier := max_frontier v;
     inserted := inserted v |}.

Fixpoint for_moves (g : WaterSortGame) (heuristic : State -> Z)
    (current : State) (current_g : Z) (valid_moves : list Move) (v : vars)
    : outcome vars :=
  match valid_moves with
  | [] => Ret v
  | move :: rest =>
      '(next_state, _) ← apply_move g current move;
      let tentative_g := current_g + 1 in
      if match g_cost v !! next_state with
         | Some known => tentative_g >=? known
         | None => false   (* [math.inf] *)
         end
      then for_moves g heuristic current current_g rest v
      else for_moves g heuristic current current_g rest
             (relax heuristic current next_state move tentative_g v)
  end.

(** [heappop] took an entry: the heap shrinks. *)
Definition popped (heap' : list entry) (v : vars) : vars :=
  {| open_heap := heap';
     g_cost := g_cost v;
     parents := parents v;
     moves_taken := moves_taken v;
     expanded := expanded v;
     entry_counter := entry_counter v;
     visited := visited v;
     max_frontier := max_frontier v;
     inserted := inserted v |}.

(** [visited.add(current)] *)
Definition finalize (current : State) (v : vars) : vars :=
  {| open_heap := open_heap v;
     g_cost := g_cost v;
     parents := parents v;
     moves_taken := moves_taken v;
     expanded := expanded v;
     entry_counter := entry_counter v;
     visited := {[current]} ∪ visited v;
     max_frontier := max_frontier v;
     inserted := inserted v ++ [current] |}.

(** [expanded += 1] *)
Definition expand (v : vars) : vars :=
  {| open_heap := open_heap v;
     g_cost := g_cost v;
     parents := parents v;
     moves_taken := moves_taken v;
     expanded := expanded v + 1;
     entry_counter := entry_counter v;
     visited := visited v;
     max_frontier := max_frontier v;
     inserted := inserted v |}.

(** [max_frontier = max(max_frontier, len(open_heap))] *)
Definition measured (v : vars) : vars :=
  {| open_heap := open_heap v;
     g_cost := g_cost v;
     parents := parents v;
     moves_taken := moves_taken v;
     expanded := expanded v;
     entry_counter := entry_counter v;
     visited := visited v;
     max_frontier := Z.max (max_frontier v) (len (open_heap v));
     inserted := inserted v |}.

Fixpoint while_open (fuel : nat) (g : WaterSortGame) (heuristic : State -> Z)
    (v : vars) : outcome (SearchResult * vars) :=
  match fuel with
  | O => OutOfFuel
  | S fuel' =>
      match heappop (open_heap v) with
      | None =>
          Ret (mkResult false [] (Z.of_nat (size (visited v)))
                        (expanded v) (max_frontier v) 0, v)
      | Some ((f_score, _, current), heap') =>
          let v := popped heap' v in
          if decide (current ∈ visited v) then while_open fuel' g heuristic v
          else
            let v := finalize current v in
            if is_goal_state g current then
              path ← _reconstruct_moves fuel' current (parents v) (moves_taken v);
              Ret (mkResult true path (Z.of_nat (size (visited v)))
                            (expanded v) (max_frontier v) (len path), v)
            else
              let v := expand v in
              match g_cost v !! current with
              | None => Raise KeyError
              | Some current_g =>
                  v ← for_moves g heuristic current current_g
                        (get_valid_moves g current) v;
                  while_open fuel' g heuristic (measured v)
              end
      end
  end.

End AStar.

Definition a_star_run (fuel : nat) (g : WaterSortGame) (initial_state : State)
    (heuristic : State -> Z) : outcome (SearchResult * AStar.vars) :=
  let initial_h := heuristic initial_state in
  AStar.while_open fuel g heuristic (AStar.init initial_state initial_h).

Definition a_star (fuel : nat) (g : WaterSortGame) (initial_state : State)
    (heuristic : State -> Z) : outcome SearchResult :=
  '(result, _) ← a_star_run fuel g initial_state heuristic; Ret result.

Module IdaStar.

(** An integer or [math.inf]. *)
Inductive bound : Type :=
| Finite (z : Z)
| Infinity.

(** [min(a, b)] *)
Definition bound_min (a b : bound) : bound :=
  match a, b with
  | Finite x, Finite y => if y <? x then Finite y else Finite x
  | Finite x, Infinity => Finite x
  | Infinity, _ => b
  end.

(** [expanded], [max_frontier] and [global_visited] are the variables of
    [ida_star] that [search] shares; [visited] and [path] are the two mutable
    objects passed to every call of [search]. *)
Record vars : Type := mkVars {
  expanded : Z;
  max_frontier : Z;
  global_visited : gset State;
  visited : gset State;
  path : list Move;
  inserted : list State
}.

Definition init (initial_state : State) : vars :=
  {| expanded := 0;
     max_frontier := 1;
     global_visited := {[initial_state]};
     visited := ∅;
     path := [];
     inserted := [initial_state] |}.

(** [visited = {initial_state}], at the start of every iteration *)
Definition restart (initial_state : State) (v : vars) : vars :=
  {| expanded := expanded v;
     max_frontier := max_frontier v;
     global_visited := global_visited v;
     visited := {[initial_state]};
     path := path v;
     inserted := inserted v ++ [initial_state] |}.

(** [expanded += 1] *)
Definition expand (v : vars) : vars :=
  {| expanded := expanded v + 1;
     max_frontier := max_frontier v;
     global_visited := global_visited v;
     visited := visited v;
     path := path v;
     inserted := inserted v |}.

(** The four statements of the [for] body before the recursive call. *)
Definition descend (next_state : State) (move : Move) (v : vars) : vars :=
  let visited' := {[next_state]} ∪ visited v in
  {| expanded := expanded v;
     max_frontier := Z.max (max_frontier v) (Z.of_nat (size visited'));
     global_visited := {[next_state]} ∪ global_visited v;
     visited := visited';
     path := path v ++ [move];
     inserted := inserted v ++ [next_state] |}.

(** [path.pop()] and [visited.remove(next_state)] *)
Definition unwind (next_state : State) (v : vars) : vars :=
  {| expanded := expanded v;
     max_frontier := max_frontier v;
     global_visited := global_visited v;
     visited := visited v ∖ {[next_state]};
     path := removelast (path v);
     inserted := inserted v |}.

(** The [for] loop of [search]; [rec] is the recursive call [search], with
    the threshold of the iteration. *)
Fixpoint for_moves (g : WaterSortGame)
    (rec : State -> Z -> vars -> outcome (bool * bound * vars))
    (state : State) (g_ : Z) (valid_moves : list Move)
    (min_threshold : bound) (v : vars) : outcome (bool * bound * vars) :=
  match valid_moves with
  | [] => Ret (false, min_threshold, v)
  | move :: rest =>
      '(next_state, _) ← apply_move g state move;
      if decide (next_state ∈ visited v)
      then for_moves g rec state g_ rest min_threshold v
      else
        '(found, temp_threshold, v) ← rec next_state (g_ + 1) (descend next_state move v);
        if found : bool then Ret (true, temp_threshold, v)
        else for_moves g rec state g_ rest
               (bound_min min_threshold temp_threshold) (unwind next_state v)
  end.

(** The nested function [search(state, g, threshold, visited, path)]; the
    path cost [g] is written [g_]. *)
Fixpoint search (fuel : nat) (g : WaterSortGame) (heuristic : State -> Z)
    (max_depth : Z) (threshold : Z) (state : State) (g_ : Z) (v : vars)
    : outcome (bool * bound * vars) :=
  match fuel with
  | O => OutOfFuel
  | S fuel' =>
      let f := g_ + heuristic state in
      if f >? threshold then Ret (false, Finite f, v)
      else if is_goal_state g state then Ret (true, Finite g_, v)
      else if g_ >=? max_depth then Ret (false, Infinity, v)
      else
        for_moves g (search fuel' g heuristic max_depth threshold) state g_
                  (get_valid_moves g state) Infinity (expand v)
  end.

(** The [while True] loop of [ida_star]. *)
Fixpoint iterate (fuel : nat) (g : WaterSortGame) (heuristic : State -> Z)
    (max_depth : Z) (initial_state : State) (threshold : Z) (v : vars)
    : outcome (SearchResult * vars) :=
  match fuel with
  | O => OutOfFuel
  | S fuel' =>
      let v := restart initial_state v in
      '(found, temp_threshold, v) ←
        search fuel' g heuristic max_depth threshold initial_state 0 v;
      if found : bool then
        Ret (mkResult true (path v) (Z.of_nat (size (global_visited v)))
                      (expanded v) (max_frontier v) (len (path v)), v)
      else
        match temp_threshold with
        | Infinity =>
            Ret (mkResult false [] (Z.of_nat (size (global_visited v)))
                          (expanded v) (max_frontier v) 0, v)
        | Finite next_threshold =>
            iterate fuel' g heuristic max_depth initial_state next_threshold v
        end
  end.

End IdaStar.

(** [max_depth] is 200 when the caller gives none. *)
Definition ida_star_run (fuel : nat) (g : WaterSortGame) (initial_state : State)
    (heuristic : State -> Z) (max_depth : Z)
    : outcome (SearchResult * IdaStar.vars) :=
  let threshold := heuristic initial_state in
  IdaStar.iterate fuel g heuristic max_depth initial_state threshold
                  (IdaStar.init initial_state).

Definition ida_star (fuel : nat) (g : WaterSortGame) (initial_state : State)
    (heuristic : State -> Z) (max_depth : Z) : outcome SearchResult :=
  '(result, _) ← ida_star_run fuel g initial_state heuristic max_depth; Ret result.

(** ** Notions used in the statements *)

(** [flatten_colors(state)], the generator read as a list. *)
Definition flatten_colors (state : State) : list string := concat state.

(** Number of units of colour [c] in a tube and in a state. *)
Definition units_in_tube (c : Color) (tube : Tube) : nat :=
  length (filter (fun x => x = c) tube).

Definition color_units (c : Color) (state : State) : nat :=
  units_in_tube c (flatten_colors state).

(** One legal pour, and the states reachable by legal pours. *)
Definition pour_step (g : WaterSortGame) (s s' : State) : Prop :=
  exists m k, apply_move g s m = Ret (s', k).

Definition reachable (g : WaterSortGame) : State -> State -> Prop :=
  rtc (pour_step g).

(** The legality violations of move application, in the words of the
    specification: an index out of range, source equal to destination, an
    empty source, a full destination, or a non-empty destination whose top
    colour differs from the top colour of the source. *)
Definition legality_violation (g : WaterSortGame) (s : State) (m : Move) : Prop :=
  ~ (0 <= src m < len s) \/
  ~ (0 <= dst m < len s) \/
  src m = dst m \/
  s !! Z.to_nat (src m) = Some [] \/
  (exists d, s !! Z.to_nat (dst m) = Some d /\ len d = capacity g) \/
  (exists t d a b, s !! Z.to_nat (src m) = Some t /\ s !! Z.to_nat (dst m) = Some d /\
                   last t = Some a /\ last d = Some b /\ a <> b).

(** The pour of [n] units described by the specification: the top [n] units
    of the source, all of its top colour, move onto the destination; the
    run is maximal unless the destination fills up first. *)
Definition pours (g : WaterSortGame) (s : State) (m : Move) (s' : State) (n : nat) : Prop :=
  exists t d top t',
    s !! Z.to_nat (src m) = Some t /\
    s !! Z.to_nat (dst m) = Some d /\
    last t = Some top /\
    t = t' ++ replicate n top /\
    s' = <[Z.to_nat (dst m) := d ++ replicate n top]> (<[Z.to_nat (src m) := t']> s) /\
    len d + Z.of_nat n <= capacity g /\
    (last t' <> Some top \/ len d + Z.of_nat n = capacity g).

(** The legal moves in the words of the specification. *)
Definition legal_move (g : WaterSortGame) (s : State) (m : Move) : Prop :=
  exists t d top,
    0 <= src m /\ 0 <= dst m /\
    s !! Z.to_nat (src m) = Some t /\
    s !! Z.to_nat (dst m) = Some d /\
    src m <> dst m /\
    last t = Some top /\
    len d <> capacity g /\
    (d = [] \/ last d = Some top).

(** Tube-index order on moves: source first, then destination. *)
Definition move_lt (a b : Move) : Prop :=
  src a < src b \/ (src a = src b /\ dst a < dst b).

(** The guard of [apply_move], as a proposition. *)
Definition can_pour (g : WaterSortGame) (s : State) (m : Move) : Prop :=
  exists t d top,
    0 <= src m /\ 0 <= dst m /\
    s !! Z.to_nat (src m) = Some t /\
    s !! Z.to_nat (dst m) = Some d /\
    src m <> dst m /\
    last t = Some top /\
    len d < capacity g /\
    (d = [] \/ last d = Some top).

(** Number of tubes that hold at least one unit of colour [c]. *)
Definition tubes_holding (c : Color) (state : State) : nat :=
  length (filter (fun t : list string => c ∈ t) state).

(** Every amount recorded in [color_distribution] is non-negative. *)
Definition amounts_nonneg (cd : gmap string (list Z)) : Prop :=
  forall c l, cd !! c = Some l -> Forall (fun x => 0 <= x) l.

(** Applying a list of moves in order with [apply_move]. *)
Fixpoint run_moves (g : WaterSortGame) (s : State) (ms : list Move) : outcome State :=
  match ms with
  | [] => Ret s
  | m :: rest => '(s', _) ← apply_move g s m; run_moves g s' rest
  end.

(** The parent and move maps hold edges of the puzzle graph: a state
    recorded without a move is the initial state, a state recorded with a
    move is obtained by that move from its recorded parent. *)
Definition edges_ok (g : WaterSortGame) (s0 : State)
    (parents : gmap State (option State))
    (moves_taken : gmap State (option Move)) : Prop :=
  forall x,
    match moves_taken !! x with
    | None => True
    | Some None => x = s0
    | Some (Some m) =>
        exists p k, parents !! x = Some (Some p) /\ apply_move g p m = Ret (x, k)
    end.

(** A successful result solves the puzzle from [s0]: its moves apply in
    order, end in a goal state, and [depth] is their number. *)
Definition solves (g : WaterSortGame) (s0 : State) (r : SearchResult) : Prop :=
  exists goal,
    run_moves g s0 (moves r) = Ret goal /\
    is_goal_state g goal = true /\
    depth r = len (moves r).

(** What a call of the [search] of [ida_star] leaves in [path]: the moves to
    a goal state when it reports success, the path of the caller otherwise. *)
Definition ida_post (g : WaterSortGame) (s0 : State) (v : IdaStar.vars)
    (r : bool * IdaStar.bound * IdaStar.vars) : Prop :=
  if r.1.1
  then exists goal, run_moves g s0 (IdaStar.path r.2) = Ret goal /\
                    is_goal_state g goal = true
  else IdaStar.path r.2 = IdaStar.path v.

(** [chain V parents moves_taken x n]: walking up the parent map from [x]
    reaches, after [n] steps through states of [V], a state recorded
    without a move. *)
Inductive chain (V : gset State) (parents : gmap State (option State))
    (moves_taken : gmap State (option Move)) : State -> nat -> Prop :=
| chain_root (x : State) :
    x ∈ V -> moves_taken !! x = Some None -> chain V parents moves_taken x 0
| chain_step (x p : State) (m : Move) (n : nat) :
    x ∈ V ->
    moves_taken !! x = Some (Some m) ->
    parents !! x = Some (Some p) ->
    chain V parents moves_taken p n ->
    chain V parents moves_taken x (S n).

(** The contract of the [search] of [dfs] under [depth_limit = limit], when
    it is called on the last state of the current branch, [d] moves below
    the initial state: the recorded chain of that state has [d] steps and
    [visited] holds the [d + 1] states of the branch. *)
Definition dfs_pre (state : State) (d : nat) (v : Dfs.vars) : Prop :=
  chain (Dfs.visited v) (Dfs.parents v) (Dfs.moves_taken v) state d /\
  size (Dfs.visited v) = S d.

Definition dfs_post (limit : Z) (d : nat) (v : Dfs.vars) (r : bool * Dfs.vars) : Prop :=
  (forall y, y ∈ Dfs.visited v ->
     Dfs.parents r.2 !! y = Dfs.parents v !! y /\
     Dfs.moves_taken r.2 !! y = Dfs.moves_taken v !! y) /\
  Dfs.max_frontier r.2 <= Z.max (Dfs.max_frontier v) (limit + 1) /\
  (if r.1
   then Dfs.visited v ⊆ Dfs.visited r.2 /\
        exists x n,
          Dfs.success_state r.2 = Some x /\
          chain (Dfs.visited r.2) (Dfs.parents r.2) (Dfs.moves_taken r.2) x n /\
          (n = d \/ Z.of_nat n <= limit)
   else Dfs.visited r.2 = Dfs.visited v).

(** *** Invariants of breadth-first search

    [d] is a ghost labelling of the visited states by their level. *)

(** A state is closed when it is not a goal and all its successors are
    visited, at most one level further. *)
Definition closed_at (g : WaterSortGame) (d : State -> nat) (V : gset State)
    (x : State) : Prop :=
  is_goal_state g x = false /\
  forall y, pour_step g x y -> y ∈ V /\ (d y <= d x + 1)%nat.

(** At the head of the [while] loop. *)
Record bfs_inv (g : WaterSortGame) (s0 : State) (d : State -> nat)
    (v : Bfs.vars) : Prop := mkBfsInv {
  bi_start : s0 ∈ Bfs.visited v /\ d s0 = 0%nat;
  bi_frontier : forall x, x ∈ Bfs.frontier v -> x ∈ Bfs.visited v;
  bi_closed : forall x, x ∈ Bfs.visited v -> x ∉ Bfs.frontier v ->
                        closed_at g d (Bfs.visited v) x;
  bi_sorted : StronglySorted (fun a b => (d a <= d b)%nat) (Bfs.frontier v);
  bi_near : forall x y, x ∈ Bfs.visited v -> y ∈ Bfs.frontier v ->
                        (d x <= d y + 1)%nat;
  bi_chain : forall x, x ∈ Bfs.visited v ->
                       chain (Bfs.visited v) (Bfs.parents v) (Bfs.moves_taken v) x (d x)
}.

(** Inside the [for] loop over the moves of [current], after [processed]. *)
Record bfs_for_inv (g : WaterSortGame) (s0 current : State) (d : State -> nat)
    (processed : list Move) (v : Bfs.vars) : Prop := mkBfsForInv {
  bf_start : s0 ∈ Bfs.visited v /\ d s0 = 0%nat;
  bf_frontier : forall x, x ∈ Bfs.frontier v -> x ∈ Bfs.visited v;
  bf_current : current ∈ Bfs.visited v;
  bf_closed : forall x, x ∈ Bfs.visited v -> x ∉ Bfs.frontier v -> x <> current ->
                        closed_at g d (Bfs.visited v) x;
  bf_processed : forall m y k, m ∈ processed ->
                               apply_move g current m = Ret (y, k) ->
                               y ∈ Bfs.visited v /\ (d y <= d current + 1)%nat;
  bf_sorted : StronglySorted (fun a b => (d a <= d b)%nat) (Bfs.frontier v);
  bf_above : forall y, y ∈ Bfs.frontier v -> (d current <= d y)%nat;
  bf_near : forall x, x ∈ Bfs.visited v -> (d x <= d current + 1)%nat;
  bf_chain : forall x, x ∈ Bfs.visited v ->
                       chain (Bfs.visited v) (Bfs.parents v) (Bfs.moves_taken v) x (d x)
}.

(** *** A small puzzle, one pour away from its goal *)

Definition example_game : WaterSortGame := mkGame 5 3 4.

Definition example_state : State :=
  [["R"; "R"; "R"]; ["R"]; ["G"; "G"; "G"; "G"]; ["B"; "B"; "B"; "B"]; []].

Definition example_solved : State :=
  [[]; ["R"; "R"; "R"; "R"]; ["G"; "G"; "G"; "G"]; ["B"; "B"; "B"; "B"]; []].

(** What [bfs] and [dfs] return on it. *)
Definition example_bfs_result : SearchResult :=
  mkResult true [mkMove 0 1] 7 2 6 1.

Definition example_dfs_result : SearchResult :=
  mkResult true [mkMove 0 1] 2 1 2 1.

(** A valid goal state with two full tubes of the same colour. *)
Definition twin_tubes_state : State :=
  [["R"; "R"; "R"; "R"]; ["R"; "R"; "R"; "R"]; []; []; []].

(** A scrambled puzzle on which depth-first search winds for 101 moves. *)
Definition winding_state : State :=
  [[]; []; ["B"; "G"; "R"; "B"]; ["B"; "G"; "R"; "R"]; ["G"; "B"; "G"; "R"]].

(** An outcome that is not the [ValueError] of a rejected move. *)
Definition no_value_error {A : Type} (o : outcome A) : Prop :=
  forall msg, o <> Raise (ValueError msg).

(** ** Further code of the repository

    The constructor and the deterministic generator of [game.py], and
    [build_state_sequence] of [water_sort_solver.py]. *)

(** [WaterSortGame.DEFAULT_COLORS] *)
Definition DEFAULT_COLORS : list string :=
  ["R"; "G"; "B"; "Y"; "P"; "C"; "M"; "O"; "W"; "K"; "L"; "N"].

(** [xs[:k]] *)
Definition slice_to {A : Type} (k : Z) (l : list A) : list A :=
  if 0 <=? k then take (Z.to_nat k) l
  else take (length l - Z.to_nat (- k)) l.

(** [WaterSortGame.__init__]; the seed only sets up the random generator. *)
Definition WaterSortGame_init (num_tubes num_colors capacity : Z)
    : outcome WaterSortGame :=
  if negb ((5 <=? num_tubes) && (num_tubes <=? 12))
  then Raise (ValueError "num_tubes must be between 5 and 12")
  else if negb ((3 <=? num_colors) && (num_colors <=? num_tubes - 2))
  then Raise (ValueError "num_colors must be at least 3 and at most num_tubes-2")
  else if num_colors >? len DEFAULT_COLORS
  then Raise (ValueError "num_colors exceeds available predefined colors")
  else Ret (mkGame num_tubes num_colors capacity).

(** [self.colors = self.DEFAULT_COLORS[:num_colors]] *)
Definition colors (g : WaterSortGame) : list string :=
  slice_to (num_colors g) DEFAULT_COLORS.

(** [generate_solved_state]; [range(n)] is empty for a negative [n]. *)
Definition generate_solved_state (g : WaterSortGame) : State :=
  let tubes := map (fun color => replicate (Z.to_nat (capacity g)) color) (colors g) in
  tubes ++ replicate (Z.to_nat (num_tubes g - num_colors g)) [].

(** [build_state_sequence] of [water_sort_solver.py]. *)
Fixpoint build_sequence_loop (g : WaterSortGame) (current : State)
    (moves : list Move) (sequence : list State) : outcome (list State) :=
  match moves with
  | [] => Ret sequence
  | move :: rest =>
      '(current, _) ← apply_move g current move;
      build_sequence_loop g current rest (sequence ++ [current])
  end.

Definition build_state_sequence (initial_state : State) (moves : list Move)
    (g : WaterSortGame) : outcome (list State) :=
  build_sequence_loop g initial_state moves [initial_state].

(** A full state without a legal move. *)
Definition stuck_state : State :=
  [["R"; "G"; "R"; "G"]; ["G"; "R"; "G"; "R"]; ["B"; "B"; "R"; "G"];
   ["R"; "B"; "G"; "B"]; ["G"; "R"; "B"; "B"]].

(** What [bfs] returns on it. *)
Definition stuck_bfs_result : SearchResult := mkResult false [] 1 1 1 0.

(** What a call of the [search] of [ida_star] at path cost [g_] guarantees
    about the length of [path] and about the bound it returns. *)
Definition ida_good_bound (threshold : Z) (b : IdaStar.bound) : Prop :=
  match b with
  | IdaStar.Finite t => threshold < t
  | IdaStar.Infinity => True
  end.

Definition ida_depth_post (max_depth g_ : Z) (v : IdaStar.vars)
    (r : bool * IdaStar.bound * IdaStar.vars) : Prop :=
  if r.1.1
  then len (IdaStar.path r.2) = g_ \/ len (IdaStar.path r.2) <= max_depth
  else IdaStar.path r.2 = IdaStar.path v.

(** The invariant of the loop of [a_star] between two iterations that do
    not return: every state with a cost entry is finalized or waits in the
    heap, and a finalized state is no goal and has a cost entry for each of
    its successors. *)
Record astar_inv (g : WaterSortGame) (s0 : State) (v : AStar.vars) : Prop :=
  mkAstarInv {
  ai_start : is_Some (AStar.g_cost v !! s0);
  ai_known : forall s,
    is_Some (AStar.g_cost v !! s) ->
    s ∈ AStar.visited v \/ exists f c, (f, c, s) ∈ AStar.open_heap v;
  ai_closed : forall s,
    s ∈ AStar.visited v ->
    is_goal_state g s = false /\
    forall m s' k, apply_move g s m = Ret (s', k) -> is_Some (AStar.g_cost v !! s')
}.
Arguments ai_start {g s0 v} _.
Arguments ai_known {g s0 v} _ s _.
Arguments ai_closed {g s0 v} _ s _.

(** Consecutive states of a sequence are one legal pour apart. *)
Fixpoint pour_path (g : WaterSortGame) (s : State) (sequence : list State) : Prop :=
  match sequence with
  | [] => True
  | x :: rest => pour_step g s x /\ pour_path g x rest
  end.

(** The units of colour [c] of a full set: [capacity] for a colour of the
    game, none for another colour. *)
Definition palette_units (g : WaterSortGame) (c : Color) : nat :=
  if decide (c ∈ colors g) then Z.to_nat (capacity g) else 0%nat.

(** ** The random generator of the game

    [self.random] is a [random.Random].  The model reads it through the
    three methods the game calls, each a function of the generator's state
    that returns its result and the next state: [shuffle] on a list of
    units, [sample(range(n), k)] for [0 <= k <= n], and the index that
    [choice] draws for a sequence of [n > 0] items. *)
Record RandomSource : Type := mkRandom {
  rng : Type;
  rnd_shuffle : rng -> list string -> list string * rng;
  rnd_sample : rng -> Z -> Z -> list Z * rng;
  rnd_below : rng -> Z -> Z * rng
}.

(** What the library promises of the three methods: [shuffle] permutes,
    [sample] returns [k] distinct elements of the population, and the index
    of [choice] is within the sequence. *)
Record lawful_random (R : RandomSource) : Prop := mkLawful {
  shuffle_permutes : forall (r : rng R) (xs : list string),
    (rnd_shuffle R r xs).1 ≡ₚ xs;
  sample_distinct : forall (r : rng R) (n k : Z),
    0 <= k <= n ->
    NoDup (rnd_sample R r n k).1 /\ len (rnd_sample R r n k).1 = k /\
    Forall (fun i => 0 <= i < n) (rnd_sample R r n k).1;
  below_in_range : forall (r : rng R) (n : Z),
    0 < n -> 0 <= (rnd_below R r n).1 < n
}.

(** A source that leaves the order alone, samples the first indices and
    always chooses the first item. *)
Definition first_pick : RandomSource :=
  {| rng := unit;
     rnd_shuffle := fun r xs => (xs, r);
     rnd_sample := fun r n k => (seqZ 0 k, r);
     rnd_below := fun r n => (0, r) |}.

(** The position of [xs[i]] in a list: a negative index counts from the
    end; [None] is Python's [IndexError]. *)
Definition position {A : Type} (l : list A) (i : Z) : option nat :=
  if (0 <=? i) && (i <? len l) then Some (Z.to_nat i)
  else if (- len l <=? i) && (i <? 0) then Some (Z.to_nat (i + len l))
  else None.

(** [xs[i]] *)
Definition item {A : Type} (l : list A) (i : Z) : option A :=
  p ← position l i; l !! p.

(** [xs[i] = x] *)
Definition set_item {A : Type} (l : list A) (i : Z) (x : A) : option (list A) :=
  p ← position l i; Some (<[p := x]> l).

(** [tube.pop()]; [None] is the [IndexError] of an empty list. *)
Definition pop {A : Type} (l : list A) : option (A * list A) :=
  match last l with
  | Some x => Some (x, removelast l)
  | None => None
  end.

(** [random.sample(range(n), k)]; [None] is its [ValueError]. *)
Definition random_sample (R : RandomSource) (r : rng R) (n k : Z)
    : option (list Z * rng R) :=
  let population := Z.max 0 n in
  if (0 <=? k) && (k <=? population) then Some (rnd_sample R r population k)
  else None.

(** [random.choice(seq)]; [None] is its [IndexError]. *)
Definition random_choice {A : Type} (R : RandomSource) (r : rng R) (seq : list A)
    : option (A * rng R) :=
  match seq with
  | [] => None
  | _ =>
      let '(i, r) := rnd_below R r (len seq) in
      x ← item seq i; Some (x, r)
  end.

(** ** The random generators of [game.py] *)

(** What a generator leaves: a value, its own [RuntimeError], or an
    exception of a call it makes. *)
Inductive generated (A : Type) : Type :=
| Generated (a : A)
| RuntimeError (msg : string)
| Uncaught (e : exn).
Arguments Generated {A} a.
Arguments RuntimeError {A} msg.
Arguments Uncaught {A} e.

#[global] Instance generated_bind : MBind generated := fun A B k c =>
  match c with
  | Generated a => k a
  | RuntimeError msg => RuntimeError msg
  | Uncaught e => Uncaught e
  end.

Definition sample_error : exn :=
  ValueError "Sample larger than population or is negative".

(** The units the generator deals:
    [for color in self.colors: units.extend([color] * self.capacity)]. *)
Definition all_units (g : WaterSortGame) : list string :=
  foldl (fun units color => units ++ replicate (Z.to_nat (capacity g)) color)
        [] (colors g).

(** [[idx for idx in fill_indices if len(tubes[idx]) < self.capacity]] *)
Fixpoint open_tubes (g : WaterSortGame) (tubes : list (list string))
    (fill_indices : list Z) : option (list Z) :=
  match fill_indices with
  | [] => Some []
  | idx :: rest =>
      tube ← item tubes idx;
      candidates ← open_tubes g tubes rest;
      Some (if len tube <? capacity g then idx :: candidates else candidates)
  end.

(** The loop [for color in units] of [_generate_random_state]. *)
Fixpoint distribute (R : RandomSource) (g : WaterSortGame) (fill_indices : list Z)
    (units : list string) (tubes : list (list string)) (r : rng R)
    : generated (State * rng R) :=
  match units with
  | [] => Generated (tubes, r)
  | color :: rest =>
      match open_tubes g tubes fill_indices with
      | None => Uncaught IndexError
      | Some [] => RuntimeError "Unable to distribute colors across tubes"
      | Some candidates =>
          match random_choice R r candidates with
          | None => Uncaught IndexError
          | Some (chosen, r) =>
              match tube ← item tubes chosen; set_item tubes chosen (tube ++ [color]) with
              | None => Uncaught IndexError
              | Some tubes => distribute R g fill_indices rest tubes r
              end
          end
      end
  end.

Definition _generate_random_state (R : RandomSource) (g : WaterSortGame) (r : rng R)
    : generated (State * rng R) :=
  let '(units, r) := rnd_shuffle R r (all_units g) in
  let tubes := replicate (Z.to_nat (num_tubes g)) [] in
  match random_sample R r (num_tubes g) (num_colors g) with
  | None => Uncaught sample_error
  | Some (fill_indices, r) => distribute R g fill_indices units tubes r
  end.

(** The loop [for _ in range(attempts)] of [generate_initial_state]: [inl]
    is the candidate the loop returns from the function, [inr] the last
    candidate when the loop runs to its end. *)
Fixpoint attempts_loop (R : RandomSource) (g : WaterSortGame) (attempts : nat)
    (last_candidate : State) (r : rng R) : generated ((State + State) * rng R) :=
  match attempts with
  | O => Generated (inr last_candidate, r)
  | S attempts' =>
      '(candidate, r) ← _generate_random_state R g r;
      if negb (is_goal_state g candidate) then Generated (inl candidate, r)
      else attempts_loop R g attempts' candidate r
  end.

(** The indices of the tubes that hold units, and of the empty ones. *)
Definition filled_indices (tubes : list (list string)) : list Z :=
  (filter (fun p : Z * list string => p.2 <> []) (enumerate tubes)).*1.

Definition empty_indices (tubes : list (list string)) : list Z :=
  (filter (fun p : Z * list string => p.2 = []) (enumerate tubes)).*1.

(** [tubes[dst].append(tubes[src].pop())] *)
Definition move_top (tubes : list (list string)) (src_idx dst_idx : Z)
    : option (list (list string)) :=
  src_tube ← item tubes src_idx;
  '(unit, src_tube) ← pop src_tube;
  tubes ← set_item tubes src_idx src_tube;
  dst_tube ← item tubes dst_idx;
  set_item tubes dst_idx (dst_tube ++ [unit]).

(** The fallback of [generate_initial_state] on a solved candidate: the top
    units of the first two filled tubes go to the first empty tube. *)
Definition unsettle (last_candidate : State) : option State :=
  let tubes := last_candidate in
  let filled := filled_indices tubes in
  let empties := empty_indices tubes in
  match filled, empties with
  | donor_one :: donor_two :: _, empty_idx :: _ =>
      tubes ← move_top tubes donor_one empty_idx;
      tube_two ← item tubes donor_two;
      match tube_two with
      | [] => Some tubes
      | _ => move_top tubes donor_two empty_idx
      end
  | _, _ => Some tubes
  end.

Definition generate_initial_state (R : RandomSource) (g : WaterSortGame)
    (scramble_moves max_attempts : Z) (r : rng R) : generated (State * rng R) :=
  let attempts := Z.max (max_attempts * 5) (Z.max 20 scramble_moves) in
  let last_candidate := generate_solved_state g in
  '(found, r) ← attempts_loop R g (Z.to_nat attempts) last_candidate r;
  match found with
  | inl candidate => Generated (candidate, r)
  | inr last_candidate =>
      if is_goal_state g last_candidate then
        match unsettle last_candidate with
        | Some tubes => Generated (tubes, r)
        | None => Uncaught IndexError
        end
      else Generated (last_candidate, r)
  end.

(** [_scramble_state]: the loop [for _ in range(scramble_moves)]. *)
Fixpoint scramble_loop (R : RandomSource) (g : WaterSortGame) (steps : nat)
    (current : State) (previous : option Move) (r : rng R)
    : outcome (State * rng R) :=
  match steps with
  | O => Ret (current, r)
  | S steps' =>
      let moves := get_valid_moves g current in
      let moves :=
        match previous with
        | Some previous =>
            filter (fun m => ~ (src m = dst previous /\ dst m = src previous)) moves
        | None => moves
        end in
      match moves with
      | [] => Ret (current, r)
      | _ =>
          match random_choice R r moves with
          | None => Raise IndexError
          | Some (move, r) =>
              '(current, _) ← apply_move g current move;
              scramble_loop R g steps' current (Some move) r
          end
      end
  end.

Definition _scramble_state (R : RandomSource) (g : WaterSortGame) (state : State)
    (scramble_moves : Z) (r : rng R) : outcome (State * rng R) :=
  scramble_loop R g (Z.to_nat scramble_moves) state None r.

(** [_is_solvable]: a breadth-first search that gives up after
    [node_limit] expansions. *)
Module Solvable.

Record vars : Type := mkVars {
  frontier : list State;
  visited : gset State;
  nodes : Z
}.

Definition init (state : State) : vars :=
  {| frontier := [state]; visited := {[state]}; nodes := 0 |}.

Fixpoint for_moves (g : WaterSortGame) (current : State)
    (valid_moves : list Move) (v : vars) : outcome vars :=
  match valid_moves with
  | [] => Ret v
  | move :: rest =>
      '(next_state, _) ← apply_move g current move;
      if decide (next_state ∈ visited v) then for_moves g current rest v
      else for_moves g current rest
             {| frontier := frontier v ++ [next_state];
                visited := {[next_state]} ∪ visited v;
                nodes := nodes v |}
  end.

Fixpoint while_frontier (fuel : nat) (g : WaterSortGame) (node_limit : Z) (v : vars)
    : outcome bool :=
  match fuel with
  | O => OutOfFuel
  | S fuel' =>
      match frontier v with
      | [] => Ret false
      | current :: rest =>
          if nodes v <=? node_limit then
            if is_goal_state g current then Ret true
            else
              v ← for_moves g current (get_valid_moves g current)
                    {| frontier := rest; visited := visited v; nodes := nodes v + 1 |};
              while_frontier fuel' g node_limit v
          else Ret false
      end
  end.

End Solvable.

Definition _is_solvable (fuel : nat) (g : WaterSortGame) (state : State)
    (node_limit : Z) : outcome bool :=
  Solvable.while_frontier fuel g node_limit (Solvable.init state).

(** ** Notions used in the statements about the generators *)

(** The tubes at [fill_indices] are full, the others are empty. *)
Definition dealt_on (g : WaterSortGame) (fill_indices : list Z) (s : State) : Prop :=
  NoDup fill_indices /\ len fill_indices = num_colors g /\
  Forall (fun i => 0 <= i < num_tubes g) fill_indices /\
  len s = num_tubes g /\
  forall (i : nat) (t : Tube),
    s !! i = Some t ->
    if decide (Z.of_nat i ∈ fill_indices) then len t = capacity g else t = [].

(** The units held by the tube at index [i]. *)
Definition held (tubes : list (list string)) (i : Z) : nat :=
  length (default [] (tubes !! Z.to_nat i)).

(** The invariant of the loop of [_generate_random_state] with the units
    [rest] still to deal out of [units0]: only the tubes at [fill_indices]
    hold units, none above the capacity, and together with [rest] they
    account for every unit and every free place. *)
Record dealing (g : WaterSortGame) (fill_indices : list Z) (units0 : list string)
    (tubes : list (list string)) (rest : list string) : Prop := mkDealing {
  dealing_length : len tubes = num_tubes g;
  dealing_tubes : forall (i : nat) (t : list string),
    tubes !! i = Some t ->
    if decide (Z.of_nat i ∈ fill_indices) then len t <= capacity g else t = [];
  dealing_total :
    (sum_list_with (held tubes) fill_indices + length rest
     = length fill_indices * Z.to_nat (capacity g))%nat;
  dealing_units : forall c,
    (color_units c tubes + units_in_tube c rest = units_in_tube c units0)%nat
}.
Arguments dealing_length {g fill_indices units0 tubes rest} _.
Arguments dealing_tubes {g fill_indices units0 tubes rest} _ i t _.
Arguments dealing_total {g fill_indices units0 tubes rest} _.
Arguments dealing_units {g fill_indices units0 tubes rest} _ c.

(** A full set of units, dealt on as many tubes as there are colours. *)
Definition dealt (g : WaterSortGame) (s : State) : Prop :=
  (exists fill_indices, dealt_on g fill_indices s) /\
  forall c, color_units c s = palette_units g c.

(** No move of the sequence undoes the move before it. *)
Fixpoint no_undo (previous : option Move) (ms : list Move) : Prop :=
  match ms with
  | [] => True
  | m :: rest =>
      match previous with
      | Some p => ~ (src m = dst p /\ dst m = src p)
      | None => True
      end /\ no_undo (Some m) rest
  end.

(** The one-colour game of capacity 1, and what [generate_initial_state]
    makes of it with [first_pick]. *)
Definition thimble_game : WaterSortGame := mkGame 5 3 1.

Definition thimble_state : State := [[]; []; ["B"]; ["R"; "G"]; []].

Definition unsettled_state : State :=
  [["R"; "R"; "R"]; ["G"; "G"; "G"]; ["B"; "B"; "B"; "B"]; ["R"; "G"]; []].

(** * The puzzle model: move enumeration and move application *)

Section Game.

Context (g : WaterSortGame).

Lemma len_nonneg {A : Type} (l : list A) : 0 <= len l.
Proof. unfold len. lia. Qed.

Lemma len_app {A : Type} (l k : list A) : len (l ++ k) = len l + len k.
Proof. unfold len. rewrite length_app. lia. Qed.

Lemma elem_of_enumerate {A : Type} (l : list A) (i : Z) (x : A) :
  (i, x) ∈ enumerate l <-> 0 <= i /\ l !! Z.to_nat i = Some x.
Proof.
  unfold enumerate. rewrite elem_of_lookup_imap. split.
  - intros (n & y & [= -> ->] & Hl). rewrite Nat2Z.id. split; [lia | done].
  - intros [Hi Hl]. exists (Z.to_nat i), x. split; [| done].
    f_equal. lia.
Qed.

(** *** The pouring loop *)

Lemma replicate_snoc {A : Type} (n : nat) (x : A) :
  replicate n x ++ [x] = x :: replicate n x.
Proof. induction n as [| n IH]; simpl; [done | by rewrite IH]. Qed.

Lemma pour_loop_spec (top : Color) (cap : Z) (fuel : nat) :
  forall (t d : Tube) (p : Z),
    (length t <= fuel)%nat ->
    exists (n : nat) (t' : Tube),
      pour_loop fuel top cap t d p = (t', d ++ replicate n top, p + Z.of_nat n) /\
      t = t' ++ replicate n top /\
      (n <> 0%nat -> len d + Z.of_nat n <= cap) /\
      (last t' <> Some top \/ cap <= len d + Z.of_nat n).
Proof.
  induction fuel as [| fuel IH]; intros t d p Hlen.
  - destruct t; [| simpl in Hlen; lia].
    exists 0%nat, []. simpl. rewrite app_nil_r, Z.add_0_r.
    repeat split; [done | by left].
  - simpl. destruct (last t) as [c |] eqn:Hlast.
    + apply last_Some in Hlast as [t0 ->].
      destruct (bool_decide (c = top)) eqn:Hc; simpl.
      * apply bool_decide_eq_true in Hc as ->.
        destruct (len d <? cap) eqn:Hcap.
        -- apply Z.ltb_lt in Hcap.
           rewrite removelast_last.
           destruct (IH t0 (d ++ [top]) (p + 1)) as (n & t' & Heq & Ht & Hb & Hex).
           { rewrite length_app in Hlen. simpl in Hlen. lia. }
           rewrite len_app in Hb, Hex. change (len [top]) with 1 in Hb, Hex.
           exists (S n), t'. rewrite Heq.
           assert (Hrep : replicate (S n) top = replicate n top ++ [top])
             by (simpl; by rewrite replicate_snoc).
           split; [| split; [| split]].
           ++ f_equal; [f_equal |]; [| lia].
              rewrite <- app_assoc. simpl. done.
           ++ rewrite Hrep, app_assoc, <- Ht. done.
           ++ intros _. destruct n; lia.
           ++ destruct Hex as [? | ?]; [by left | right; lia].
        -- apply Z.ltb_ge in Hcap.
           exists 0%nat, (t0 ++ [top]). simpl.
           rewrite !app_nil_r, Z.add_0_r. repeat split; [done | right; lia].
      * apply bool_decide_eq_false in Hc.
        exists 0%nat, (t0 ++ [c]). simpl.
        rewrite !app_nil_r, Z.add_0_r. repeat split; [done |].
        left. rewrite last_snoc. congruence.
    + apply last_None in Hlast as ->.
      exists 0%nat, []. simpl. rewrite app_nil_r, Z.add_0_r.
      repeat split; [done | by left].
Qed.

(** *** Move application *)

Lemma lookup_len {A : Type} (l : list A) (i : Z) :
  0 <= i < len l -> is_Some (l !! Z.to_nat i).
Proof. intros H. apply lookup_lt_is_Some. unfold len in H. lia. Qed.

Lemma lookup_len_inv {A : Type} (l : list A) (i : Z) (x : A) :
  0 <= i -> l !! Z.to_nat i = Some x -> 0 <= i < len l.
Proof. intros H Hl. apply lookup_lt_Some in Hl. unfold len. lia. Qed.

Lemma apply_move_cases (s : State) (m : Move) :
  (exists msg, apply_move g s m = Raise (ValueError msg) /\ ~ can_pour g s m) \/
  (can_pour g s m /\
   exists s' n, apply_move g s m = Ret (s', Z.of_nat n) /\ (1 <= n)%nat /\
                pours g s m s' n).
Proof.
  unfold apply_move.
  destruct (0 <=? src m) eqn:H1; simpl;
    [apply Z.leb_le in H1 |
     apply Z.leb_gt in H1; left; eexists; split; [done |];
     intros (t & d & top & ? & _); lia].
  destruct (src m <? len s) eqn:H2; simpl;
    [apply Z.ltb_lt in H2 |
     apply Z.ltb_ge in H2; left; eexists; split; [done |];
     intros (t & d & top & ? & ? & Ht & _);
     apply lookup_len_inv in Ht; lia].
  destruct (0 <=? dst m) eqn:H3; simpl;
    [apply Z.leb_le in H3 |
     apply Z.leb_gt in H3; left; eexists; split; [done |];
     intros (t & d & top & ? & ? & _); lia].
  destruct (dst m <? len s) eqn:H4; simpl;
    [apply Z.ltb_lt in H4 |
     apply Z.ltb_ge in H4; left; eexists; split; [done |];
     intros (t & d & top & ? & ? & ? & Hd & _);
     apply lookup_len_inv in Hd; lia].
  destruct (src m =? dst m) eqn:H5;
    [apply Z.eqb_eq in H5; left; eexists; split; [done |];
     intros (t & d & top & ? & ? & ? & ? & ? & _); lia |
     apply Z.eqb_neq in H5].
  destruct (lookup_len s (src m)) as [t Ht]; [lia |].
  destruct (lookup_len s (dst m)) as [d Hd]; [lia |].
  rewrite Ht, Hd.
  destruct (last t) as [top |] eqn:Htop.
  2: { left. eexists. split; [done |].
       intros (t1 & d1 & top1 & ? & ? & Ht1 & _ & _ & Hl & _). congruence. }
  destruct (len d >=? capacity g) eqn:H6.
  { left. eexists. split; [done |].
    intros (t1 & d1 & top1 & ? & ? & Ht1 & Hd1 & _ & Hl & Hlt & _).
    assert (d1 = d) as -> by congruence.
    rewrite Z.geb_leb in H6. apply Z.leb_le in H6. lia. }
  rewrite Z.geb_leb in H6. apply Z.leb_gt in H6.
  destruct (last d) as [b |] eqn:Hb.
  - destruct (bool_decide (b = top)) eqn:Hbt; simpl.
    2: { apply bool_decide_eq_false in Hbt.
         left. eexists. split; [done |].
         intros (t1 & d1 & top1 & ? & ? & Ht1 & Hd1 & _ & Hl & _ & Hor).
         assert (d1 = d) as -> by congruence.
         assert (t1 = t) as -> by congruence.
         destruct Hor as [-> | Hor]; [done |]. congruence. }
    apply bool_decide_eq_true in Hbt as ->.
    right. split.
    { exists t, d, top. repeat split; try done. by right. }
    destruct (pour_loop_spec top (capacity g) (length t) t d 0)
      as (n & t' & Heq & Hsplit & Hbound & Hexit); [done |].
    rewrite Heq. exists (<[Z.to_nat (dst m) := d ++ replicate n top]>
                          (<[Z.to_nat (src m) := t']> s)), n.
    assert (Hn : (1 <= n)%nat).
    { destruct n; [| lia]. simpl in Hsplit. rewrite app_nil_r in Hsplit. subst t'.
      destruct Hexit; [done | lia]. }
    split; [done |]. split; [done |].
    exists t, d, top, t'. repeat split; try done; try lia.
    destruct Hexit; [by left | right; lia].
  - apply last_None in Hb as ->.
    right. split.
    { exists t, [], top. repeat split; try done. by left. }
    destruct (pour_loop_spec top (capacity g) (length t) t [] 0)
      as (n & t' & Heq & Hsplit & Hbound & Hexit); [done |].
    rewrite Heq. exists (<[Z.to_nat (dst m) := [] ++ replicate n top]>
                          (<[Z.to_nat (src m) := t']> s)), n.
    assert (Hn : (1 <= n)%nat).
    { destruct n; [| lia]. simpl in Hsplit. rewrite app_nil_r in Hsplit. subst t'.
      destruct Hexit; [done | lia]. }
    split; [done |]. split; [done |].
    exists t, [], top, t'. repeat split; try done; try lia.
    destruct Hexit; [by left | right; lia].
Qed.

(** *** Move enumeration *)

Lemma enumerate_sorted_from {A : Type} (l : list A) :
  forall k : nat,
    StronglySorted (fun a b : Z * A => a.1 < b.1)
                   (imap (fun i x => (Z.of_nat (k + i), x)) l) /\
    Forall (fun a : Z * A => Z.of_nat k <= a.1)
           (imap (fun i x => (Z.of_nat (k + i), x)) l).
Proof.
  induction l as [| x l IH]; intros k; simpl.
  - split; constructor.
  - destruct (IH (S k)) as [Hs Hf].
    rewrite (imap_ext _ (fun i y => (Z.of_nat (S k + i), y)) l)
      by (intros i y _; simpl; repeat f_equal; lia).
    split.
    + constructor; [done |].
      eapply Forall_impl; [exact Hf |]. intros [j y]; simpl. lia.
    + constructor; [simpl; lia |].
      eapply Forall_impl; [exact Hf |]. intros [j y]; simpl. lia.
Qed.

Lemma enumerate_sorted {A : Type} (l : list A) :
  StronglySorted (fun a b : Z * A => a.1 < b.1) (enumerate l).
Proof. apply (enumerate_sorted_from l 0). Qed.

Lemma moves_into_spec (i : Z) (t : Tube) (top : Color) (rl : Z)
    (dsts : list (Z * Tube)) :
  forall acc : list Move,
    exists extra,
      moves_into g i t top rl acc dsts = acc ++ extra /\
      (forall m, m ∈ extra <->
         src m = i /\
         exists d, (dst m, d) ∈ dsts /\ i <> dst m /\ len d <> capacity g /\
                   (d = [] \/ last d = Some top)) /\
      (StronglySorted (fun a b : Z * Tube => a.1 < b.1) dsts ->
       StronglySorted move_lt extra /\
       forall m, m ∈ extra -> exists d, (dst m, d) ∈ dsts).
Proof.
  unfold moves_into.
  induction dsts as [| [j d] dsts IH]; intros acc.
  - exists []. simpl. rewrite app_nil_r. split; [done |]. split.
    + intros m. split; [by intros ?%elem_of_nil |].
      intros (_ & d & ?%elem_of_nil & _). done.
    + intros _. split; [constructor | by intros m ?%elem_of_nil].
  - simpl foldl.
    set (legal := negb (i =? j) && negb (len d =? capacity g)
                  && match last d with
                     | Some x => bool_decide (x = top)
                     | None => true
                     end).
    assert (Hbody :
      (if i =? j then acc
       else if len d =? capacity g then acc
       else if match last d with
               | Some d0 => negb (bool_decide (d0 = top))
               | None => false
               end then acc
       else (if match d with [] => rl =? len t | _ => false end
             then acc else acc) ++ [mkMove i j])
      = acc ++ (if legal then [mkMove i j] else [])).
    { subst legal. destruct (i =? j); simpl; [by rewrite app_nil_r |].
      destruct (len d =? capacity g); simpl; [by rewrite app_nil_r |].
      destruct (last d) as [x |]; simpl.
      - destruct (bool_decide (x = top)); simpl; [| by rewrite app_nil_r].
        by destruct (match d with [] => rl =? len t | _ => false end).
      - by destruct (match d with [] => rl =? len t | _ => false end). }
    rewrite Hbody.
    destruct (IH (acc ++ (if legal then [mkMove i j] else [])))
      as (extra & Heq & Hmem & Hsorted).
    exists ((if legal then [mkMove i j] else []) ++ extra).
    rewrite Heq, app_assoc. split; [done |].
    assert (Hlegal : legal = true <->
              i <> j /\ len d <> capacity g /\ (d = [] \/ last d = Some top)).
    { subst legal. rewrite !andb_true_iff, !negb_true_iff, !Z.eqb_neq.
      destruct (last d) as [x |] eqn:Hx.
      - rewrite bool_decide_eq_true. split.
        + intros [[? ?] ->]. repeat split; try done. by right.
        + intros (? & ? & [-> | [= ->]]); [done | done].
      - apply last_None in Hx as ->. split; [| tauto].
        intros [[? ?] _]. repeat split; try done. by left. }
    split.
    + intros m. rewrite elem_of_app, Hmem. split.
      * intros [Hm | (Hs & d' & Hin & ?)].
        -- destruct legal; [| by apply elem_of_nil in Hm].
           apply list_elem_of_singleton in Hm as ->. simpl.
           split; [done |]. exists d. split; [left |]. by apply Hlegal.
        -- split; [done |]. exists d'. split; [by right | done].
      * intros (Hs & d' & Hin & Hij & Hcap & Htop).
        apply elem_of_cons in Hin as [[= Hj ->] | Hin].
        -- left. assert (legal = true) as -> by (apply Hlegal; by rewrite <- Hj).
           destruct m as [a b]; simpl in *. subst. by apply list_elem_of_singleton.
        -- right. split; [done |]. by exists d'.
    + intros Hss. apply StronglySorted_inv in Hss as [Hss Hall].
      destruct (Hsorted Hss) as [Hsx Hdx].
      split.
      * destruct legal; simpl; [| done].
        constructor; [done |]. apply Forall_forall. intros m Hm.
        destruct (Hdx m Hm) as [d' Hin].
        rewrite Forall_forall in Hall. specialize (Hall (dst m, d')).
        apply Hmem in Hm as [Hs _].
        right. simpl. split; [done |].
        by apply Hall.
      * intros m [Hm | Hm]%elem_of_app.
        -- destruct legal; [| by apply elem_of_nil in Hm].
           apply list_elem_of_singleton in Hm as ->. exists d. simpl. left.
        -- destruct (Hdx m Hm) as [d' ?]. exists d'. by right.
Qed.

Lemma get_valid_moves_from (state : State) (srcs : list (Z * Tube)) :
  forall acc : list Move,
    exists extra,
      foldl (fun moves '(src_idx, src_tube) =>
               match last src_tube with
               | None => moves
               | Some top_color =>
                   let run_length := top_run_length top_color src_tube in
                   moves_into g src_idx src_tube top_color run_length moves
                              (enumerate state)
               end) acc srcs = acc ++ extra /\
      (forall m, m ∈ extra <->
         exists t top d,
           (src m, t) ∈ srcs /\ last t = Some top /\
           (dst m, d) ∈ enumerate state /\ src m <> dst m /\
           len d <> capacity g /\ (d = [] \/ last d = Some top)) /\
      (StronglySorted (fun a b : Z * Tube => a.1 < b.1) srcs ->
       StronglySorted move_lt extra).
Proof.
  induction srcs as [| [i t] srcs IH]; intros acc.
  - exists []. simpl. rewrite app_nil_r. split; [done |]. split.
    + intros m. split; [by intros ?%elem_of_nil |].
      intros (t & top & d & ?%elem_of_nil & _). done.
    + intros _. constructor.
  - simpl foldl. destruct (last t) as [top |] eqn:Htop.
    + destruct (moves_into_spec i t top (top_run_length top t) (enumerate state) acc)
        as (row & Hrow & Hrmem & Hrsorted).
      destruct (IH (acc ++ row)) as (extra & Heq & Hmem & Hsorted).
      exists (row ++ extra). split; [| split].
      { rewrite app_assoc, <- Heq, <- Hrow. done. }
      * intros m. rewrite elem_of_app, Hrmem, Hmem. split.
        -- intros [(Hs & d & Hin & ?) | (t' & top' & d & Hin & ?)].
           ++ exists t, top, d. rewrite Hs. split; [left | done].
           ++ exists t', top', d. split; [by right | done].
        -- intros (t' & top' & d & Hin & Hl & Hrest).
           apply elem_of_cons in Hin as [[= Hi ->] | Hin].
           ++ left. split; [done |]. exists d.
              rewrite <- Hi. assert (top' = top) as -> by congruence. done.
           ++ right. by exists t', top', d.
      * intros Hss. apply StronglySorted_inv in Hss as [Hss Hall].
        apply StronglySorted_app. split; [| split].
        2: { by destruct (Hrsorted (enumerate_sorted state)). }
        2: { by apply Hsorted. }
        -- intros x y Hx Hy. apply Hrmem in Hx as [Hx _].
           apply Hmem in Hy as (t' & _ & _ & Hin & _).
           rewrite Forall_forall in Hall. specialize (Hall _ Hin). simpl in Hall.
           left. lia.
    + destruct (IH acc) as (extra & Heq & Hmem & Hsorted).
      exists extra. split; [done |]. split.
      * intros m. rewrite Hmem. split.
        -- intros (t' & top' & d & Hin & ?). exists t', top', d.
           split; [by right | done].
        -- intros (t' & top' & d & Hin & Hl & Hrest).
           apply elem_of_cons in Hin as [[= Hi ->] | Hin]; [congruence |].
           by exists t', top', d.
      * intros Hss. apply StronglySorted_inv in Hss as [Hss _]. by apply Hsorted.
Qed.

Lemma get_valid_moves_legal (s : State) (m : Move) :
  m ∈ get_valid_moves g s <-> legal_move g s m.
Proof.
  destruct (get_valid_moves_from s (enumerate s) []) as (extra & Heq & Hmem & _).
  assert (get_valid_moves g s = extra) as -> by exact Heq.
  rewrite Hmem. unfold legal_move. split.
  - intros (t & top & d & [? Ht]%elem_of_enumerate & Hl & [? Hd]%elem_of_enumerate & ?).
    exists t, d, top. tauto.
  - intros (t & d & top & ? & ? & Ht & Hd & ?).
    exists t, top, d. rewrite !elem_of_enumerate. tauto.
Qed.

Lemma get_valid_moves_sorted (s : State) :
  StronglySorted move_lt (get_valid_moves g s).
Proof.
  destruct (get_valid_moves_from s (enumerate s) []) as (extra & Heq & _ & Hsorted).
  assert (get_valid_moves g s = extra) as -> by exact Heq.
  apply Hsorted, enumerate_sorted.
Qed.

(** Whatever [apply_move] accepts is enumerated, on every state. *)
Lemma can_pour_legal (s : State) (m : Move) : can_pour g s m -> legal_move g s m.
Proof.
  intros (t & d & top & ? & ? & ? & ? & ? & ? & ? & ?).
  exists t, d, top. repeat split; try done. lia.
Qed.

(** On a state without overfull tubes the two guards agree. *)
Lemma valid_tube_bound (s : State) (i : nat) (t : Tube) :
  is_valid_state g s = true -> s !! i = Some t -> len t <= capacity g.
Proof.
  unfold is_valid_state. destruct (negb (len s =? num_tubes g)); [done |].
  rewrite forallb_forall. intros Hall Hi.
  apply list_elem_of_lookup_2, list_elem_of_In in Hi.
  specialize (Hall _ Hi). apply negb_true_iff in Hall.
  rewrite Z.gtb_ltb in Hall. apply Z.ltb_ge in Hall. done.
Qed.

Lemma legal_can_pour (s : State) (m : Move) :
  is_valid_state g s = true -> legal_move g s m -> can_pour g s m.
Proof.
  intros Hv (t & d & top & ? & ? & ? & Hd & ? & ? & ? & ?).
  exists t, d, top. repeat split; try done.
  pose proof (valid_tube_bound s _ d Hv Hd). lia.
Qed.

(** *** Conservation of the units and of the capacity bound *)

Lemma is_valid_state_spec (s : State) :
  is_valid_state g s = true <->
  len s = num_tubes g /\ Forall (fun t : Tube => len t <= capacity g) s.
Proof.
  unfold is_valid_state.
  destruct (len s =? num_tubes g) eqn:Hn; simpl.
  - apply Z.eqb_eq in Hn. rewrite forallb_forall, Forall_forall. split.
    + intros H. split; [done |]. intros t Ht. apply list_elem_of_In, H in Ht.
      apply negb_true_iff in Ht. rewrite Z.gtb_ltb in Ht. by apply Z.ltb_ge in Ht.
    + intros [_ H] t Ht. apply list_elem_of_In, H in Ht.
      apply negb_true_iff. rewrite Z.gtb_ltb. by apply Z.ltb_ge.
  - apply Z.eqb_neq in Hn. split; [done | tauto].
Qed.

Lemma units_in_tube_app (c : Color) (a b : Tube) :
  units_in_tube c (a ++ b) = (units_in_tube c a + units_in_tube c b)%nat.
Proof. unfold units_in_tube. by rewrite filter_app, length_app. Qed.

Lemma color_units_cons (c : Color) (t : Tube) (s : State) :
  color_units c (t :: s) = (units_in_tube c t + color_units c s)%nat.
Proof. unfold color_units, flatten_colors. simpl. apply units_in_tube_app. Qed.

Lemma color_units_insert (c : Color) (s : State) :
  forall (i : nat) (x y : Tube),
    s !! i = Some y ->
    (color_units c (<[i := x]> s) + units_in_tube c y
     = color_units c s + units_in_tube c x)%nat.
Proof.
  induction s as [| t s IH]; intros i x y Hi; [done |].
  destruct i as [| i]; simpl in *.
  - injection Hi as ->. rewrite !color_units_cons. lia.
  - rewrite !color_units_cons. specialize (IH i x y Hi). lia.
Qed.

Lemma apply_move_Ret_inv (s : State) (m : Move) (s' : State) (k : Z) :
  apply_move g s m = Ret (s', k) ->
  can_pour g s m /\ exists n, k = Z.of_nat n /\ (1 <= n)%nat /\ pours g s m s' n.
Proof.
  intros Heq.
  destruct (apply_move_cases s m) as [(msg & Hr & _) | (Hc & s1 & n & Hr & Hn & Hp)].
  - congruence.
  - rewrite Hr in Heq. injection Heq as <- <-. split; [done |]. by exists n.
Qed.

Lemma pour_preserves (s : State) (m : Move) (s' : State) (k : Z) :
  apply_move g s m = Ret (s', k) ->
  (forall c, color_units c s' = color_units c s) /\
  (is_valid_state g s = true -> is_valid_state g s' = true).
Proof.
  intros Heq. apply apply_move_Ret_inv in Heq as [Hc (n & -> & Hn & Hp)].
  destruct Hc as (t0 & d0 & top0 & Hs0 & Hd0 & Ht0 & Hdd0 & Hne & _).
  destruct Hp as (t & d & top & t' & Ht & Hd & Htop & Hsplit & -> & Hcap & _).
  assert (Hij : Z.to_nat (src m) <> Z.to_nat (dst m)) by lia.
  split.
  - intros c.
    pose proof (color_units_insert c s (Z.to_nat (src m)) t' t Ht) as H1.
    pose proof (color_units_insert c (<[Z.to_nat (src m) := t']> s)
                  (Z.to_nat (dst m)) (d ++ replicate n top) d) as H2.
    rewrite list_lookup_insert_ne in H2 by done. specialize (H2 Hd).
    rewrite Hsplit in H1. rewrite units_in_tube_app in H1, H2. lia.
  - rewrite !is_valid_state_spec. intros [Hlen Hall]. split.
    + unfold len in *. by rewrite !length_insert.
    + apply Forall_insert; [apply Forall_insert; [done |] |].
      * rewrite Forall_forall in Hall.
        pose proof (Hall t (list_elem_of_lookup_2 _ _ _ Ht)) as Hb.
        rewrite Hsplit, len_app in Hb. pose proof (len_nonneg (replicate n top)). lia.
      * rewrite len_app. unfold len at 2. rewrite length_replicate. done.
Qed.

Lemma reachable_preserves (s s' : State) :
  reachable g s s' ->
  (forall c, color_units c s' = color_units c s) /\
  (is_valid_state g s = true -> is_valid_state g s' = true).
Proof.
  induction 1 as [s | s s1 s2 (m & k & Hstep) _ [IHu IHv]].
  - done.
  - destruct (pour_preserves _ _ _ _ Hstep) as [Hu Hv]. split.
    + intros c. by rewrite IHu, Hu.
    + intros H. by apply IHv, Hv.
Qed.

End Game.

(** C4. A successful [apply_move] on a valid state keeps, for every colour,
    the number of units over all tubes, and yields a valid state (no tube
    above capacity); hence every state reachable by legal pours from a valid
    state is valid and has the same number of units of every colour, in
    particular [capacity] units of a colour that started with [capacity]. *)
Theorem pour_conservation (g : WaterSortGame) (s : State) :
  is_valid_state g s = true ->
  (forall m s' k,
     apply_move g s m = Ret (s', k) ->
     (forall c, color_units c s' = color_units c s) /\
     is_valid_state g s' = true /\
     Forall (fun t : Tube => len t <= capacity g) s') /\
  (forall s',
     reachable g s s' ->
     (forall c, color_units c s' = color_units c s) /\
     (forall c, Z.of_nat (color_units c s) = capacity g ->
                Z.of_nat (color_units c s') = capacity g) /\
     is_valid_state g s' = true /\
     Forall (fun t : Tube => len t <= capacity g) s').
Proof.
  intros Hv. split.
  - intros m s' k Heq. destruct (pour_preserves g _ _ _ _ Heq) as [Hu Hv'].
    specialize (Hv' Hv). split; [done |]. split; [done |].
    by apply is_valid_state_spec in Hv' as [_ ?].
  - intros s' Hr. destruct (reachable_preserves g _ _ Hr) as [Hu Hv'].
    specialize (Hv' Hv). split; [done |]. split; [| split; [done |]].
    + intros c. by rewrite Hu.
    + by apply is_valid_state_spec in Hv' as [_ ?].
Qed.

Lemma violation_iff_not_can_pour (g : WaterSortGame) (s : State) (m : Move) :
  is_valid_state g s = true ->
  legality_violation g s m <-> ~ can_pour g s m.
Proof.
  intros Hv. split.
  - intros Hviol (t & d & top & Hs & Hd & Ht & Hdd & Hne & Htop & Hcap & Hmatch).
    pose proof (lookup_len_inv _ _ _ Hs Ht).
    pose proof (lookup_len_inv _ _ _ Hd Hdd).
    destruct Hviol as [? | [? | [? | [He | [(d' & Hd' & Hfull) | Hdiff]]]]];
      try done.
    + rewrite Ht in He. injection He as ->. done.
    + assert (d' = d) as -> by congruence. lia.
    + destruct Hdiff as (t1 & d1 & a & b & Ht1 & Hd1 & Ha & Hb & Hab).
      assert (t1 = t) as -> by congruence. assert (d1 = d) as -> by congruence.
      destruct Hmatch as [-> | Hmatch]; [done | congruence].
  - intros Hnot. unfold legality_violation.
    destruct (decide (0 <= src m < len s)) as [Hs |]; [| by left].
    destruct (decide (0 <= dst m < len s)) as [Hd |]; [| by right; left].
    destruct (decide (src m = dst m)) as [| Hne]; [by right; right; left |].
    destruct (lookup_len s (src m) Hs) as [t Ht].
    destruct (lookup_len s (dst m) Hd) as [d Hdd].
    destruct (last t) as [top |] eqn:Htop.
    2: { apply last_None in Htop as ->. by right; right; right; left. }
    destruct (decide (len d = capacity g)) as [Hfull | Hfull].
    { right; right; right; right; left. by exists d. }
    pose proof (valid_tube_bound g s _ d Hv Hdd).
    destruct (last d) as [b |] eqn:Hb.
    + destruct (decide (top = b)) as [<- | Hdiff].
      * exfalso. apply Hnot. exists t, d, top.
        repeat split; try done; try lia. by right.
      * right; right; right; right; right. by exists t, d, top, b.
    + apply last_None in Hb as ->.
      exfalso. apply Hnot. exists t, [], top.
      repeat split; try done; try lia. by left.
Qed.

(** C5. On a valid state [apply_move] raises (always a [ValueError])
    exactly on the legality violations: index out of range, source equal to
    destination, empty source, full destination, non-empty destination with
    another top colour.  Otherwise it returns the new state and the number of
    units poured, which is at least 1: the top run of the source, cut where
    the destination becomes full. *)
Theorem apply_move_contract (g : WaterSortGame) (s : State) (m : Move) :
  is_valid_state g s = true ->
  ((exists e, apply_move g s m = Raise e) <-> legality_violation g s m) /\
  (legality_violation g s m -> exists msg, apply_move g s m = Raise (ValueError msg)) /\
  (~ legality_violation g s m ->
   exists s' n,
     apply_move g s m = Ret (s', Z.of_nat n) /\ (1 <= n)%nat /\ pours g s m s' n).
Proof.
  intros Hv. rewrite (violation_iff_not_can_pour g s m Hv).
  destruct (apply_move_cases g s m) as [(msg & Hr & Hn) | (Hc & s' & n & Hr & Hn & Hp)].
  - split; [| split; [| tauto]].
    + split; [done |]. intros _. by eexists.
    + intros _. by exists msg.
  - split; [| split; [tauto |]].
    + split; [| tauto]. intros [e He]. congruence.
    + intros _. by exists s', n.
Qed.

(** C6. On a valid state [get_valid_moves] returns exactly the legal moves
    (distinct tubes, non-empty source, destination not full, destination
    empty or with the top colour of the source) in tube-index order: by
    source, then by destination. *)
Theorem get_valid_moves_contract (g : WaterSortGame) (s : State) :
  is_valid_state g s = true ->
  (forall m, m ∈ get_valid_moves g s <-> legal_move g s m) /\
  StronglySorted move_lt (get_valid_moves g s).
Proof.
  intros _. split.
  - intros m. apply get_valid_moves_legal.
  - apply get_valid_moves_sorted.
Qed.

(** * The heuristics *)

Section Heuristics.

Context (g : WaterSortGame).

(** *** Entropy *)

Lemma max_le_sum (rest : list Z) :
  forall a s : Z,
    a <= s -> 0 <= s -> Forall (fun x => 0 <= x) rest ->
    foldl Z.max a rest <= foldl Z.add s rest.
Proof.
  induction rest as [| x rest IH]; intros a s Has Hs Hall; simpl; [done |].
  apply Forall_cons in Hall as [Hx Hall].
  apply IH; [lia | lia | done].
Qed.

Lemma max_amounts_le_sum (amounts : list Z) :
  Forall (fun x => 0 <= x) amounts -> max_amounts amounts <= sum_amounts amounts.
Proof.
  destruct amounts as [| a rest]; intros Hall; [done |].
  apply Forall_cons in Hall as [Ha Hall].
  unfold max_amounts, sum_amounts. simpl. apply max_le_sum; [lia | lia | done].
Qed.

Lemma entropy_penalty_nonneg (cd : gmap string (list Z)) :
  amounts_nonneg cd -> 0 <= entropy_penalty cd.
Proof.
  unfold entropy_penalty.
  apply (map_fold_weak_ind (fun r m => amounts_nonneg m -> 0 <= r)).
  - done.
  - intros c l m r Hnone IH Hall.
    assert (Hm : amounts_nonneg m).
    { intros c' l' Hl'. apply (Hall c' l').
      rewrite lookup_insert_ne; [done |]. intros ->. congruence. }
    specialize (IH Hm).
    assert (Hl : Forall (fun x => 0 <= x) l).
    { apply (Hall c). by rewrite lookup_insert_eq. }
    destruct (len l <=? 1) eqn:Hlen; [done |].
    apply Z.leb_gt in Hlen. pose proof (max_amounts_le_sum l Hl). nia.
Qed.

Lemma Counter_fold_nonneg (tube : Tube) :
  forall acc : gmap string Z,
    (forall c n, acc !! c = Some n -> 0 <= n) ->
    forall c n,
      foldl (fun counts c => <[c := default 0 (counts !! c) + 1]> counts) acc tube
        !! c = Some n -> 0 <= n.
Proof.
  induction tube as [| x tube IH]; intros acc Hacc c n; simpl; [apply Hacc |].
  apply IH. intros c' n'. destruct (decide (c' = x)) as [-> | Hne].
  - rewrite lookup_insert_eq. intros [= <-].
    destruct (acc !! x) as [k |] eqn:Hk; simpl; [| lia].
    specialize (Hacc _ _ Hk). lia.
  - rewrite lookup_insert_ne by done. apply Hacc.
Qed.

Lemma Counter_nonneg (tube : Tube) (c : Color) (n : Z) :
  Counter tube !! c = Some n -> 0 <= n.
Proof. apply Counter_fold_nonneg. intros c' n'. by rewrite lookup_empty. Qed.

(** The effect of one round of the first loop, key by key. *)
Lemma record_tube_lookup (cd : gmap string (list Z)) (tube : Tube) (c : Color) :
  record_tube cd tube !! c =
  match Counter tube !! c with
  | Some a => Some (default [] (cd !! c) ++ [a])
  | None => cd !! c
  end.
Proof.
  unfold record_tube. revert c.
  apply (map_fold_weak_ind (fun r (m : gmap string Z) =>
           forall c, r !! c = match m !! c with
                              | Some a => Some (default [] (cd !! c) ++ [a])
                              | None => cd !! c
                              end)).
  - intros c. by rewrite lookup_empty.
  - intros i x m r Hnone IH c. destruct (decide (c = i)) as [-> | Hne].
    + rewrite !lookup_insert_eq. rewrite (IH i), Hnone. done.
    + rewrite !lookup_insert_ne by done. apply IH.
Qed.

Lemma record_tube_nonneg (cd : gmap string (list Z)) (tube : Tube) :
  amounts_nonneg cd -> amounts_nonneg (record_tube cd tube).
Proof.
  intros Hcd c l. rewrite record_tube_lookup.
  destruct (Counter tube !! c) as [a |] eqn:Ha; [| apply Hcd].
  intros [= <-]. apply Forall_app. split.
  - destruct (cd !! c) as [l0 |] eqn:Hl0; simpl; [by eapply Hcd | constructor].
  - constructor; [by eapply Counter_nonneg | constructor].
Qed.

Lemma color_distribution_nonneg (state : State) :
  forall cd, amounts_nonneg cd -> amounts_nonneg (foldl record_tube cd state).
Proof.
  induction state as [| t state IH]; intros cd Hcd; simpl; [done |].
  by apply IH, record_tube_nonneg.
Qed.

Lemma entropy_nonneg (state : State) : 0 <= entropy_heuristic g state.
Proof.
  apply entropy_penalty_nonneg, color_distribution_nonneg.
  intros c l. by rewrite lookup_empty.
Qed.

(** *** Completion *)

Lemma streak_scan_bound (base : Color) (rest : list string) :
  forall k, k <= streak_scan base rest k <= k + len rest.
Proof.
  induction rest as [| c rest IH]; intros k; simpl.
  - unfold len. simpl. lia.
  - unfold len in *. simpl length. destruct (decide (c = base)).
    + specialize (IH (k + 1)). lia.
    + lia.
Qed.

Lemma completion_fold_nonneg (state : State) :
  Forall (fun t : Tube => len t <= capacity g) state ->
  forall ti cp : Z,
    0 <= ti * capacity g - cp ->
    let '(ti', cp') :=
      foldl (fun '(tubes_incomplete, colors_positioned) (tube : Tube) =>
        match tube with
        | [] => (tubes_incomplete, colors_positioned)
        | base_color :: rest =>
            if (len tube =? capacity g) && (distinct_colors tube =? 1)
            then (tubes_incomplete, colors_positioned)
            else (tubes_incomplete + 1,
                  colors_positioned + streak_scan base_color rest 1)
        end) (ti, cp) state in
    0 <= ti' * capacity g - cp'.
Proof.
  induction state as [| t state IH]; intros Hall ti cp Hacc; simpl; [done |].
  apply Forall_cons in Hall as [Ht Hall].
  destruct t as [| base rest]; [by apply IH |].
  destruct ((len (base :: rest) =? capacity g) && (distinct_colors (base :: rest) =? 1));
    [by apply IH |].
  apply IH; [done |].
  pose proof (streak_scan_bound base rest 1).
  unfold len in *. simpl length in Ht. lia.
Qed.

Lemma completion_nonneg (state : State) :
  is_valid_state g state = true -> 0 <= completion_heuristic g state.
Proof.
  intros [_ Hall]%is_valid_state_spec. unfold completion_heuristic.
  pose proof (completion_fold_nonneg state Hall 0 0) as H.
  destruct (foldl _ (0, 0) state) as [ti cp]. apply H. lia.
Qed.

(** *** Blocking *)

Lemma blocked_in_tube_mono (tube : Tube) (b : Z) : b <= blocked_in_tube tube b.
Proof.
  unfold blocked_in_tube. generalize (enumerate (removelast tube)). intros l.
  revert b. induction l as [| [idx color] l IH]; intros b; simpl; [lia |].
  destruct (existsb _ _); [specialize (IH (b + 1)); lia | apply IH].
Qed.

Lemma blocking_fold_nonneg (state : State) :
  forall tm bu : Z,
    0 <= tm -> 0 <= bu ->
    let '(tm', bu') :=
      foldl (fun '(total_mixed, blocked_units) (tube : Tube) =>
        match tube with
        | [] => (total_mixed, blocked_units)
        | _ =>
            let total_mixed :=
              if distinct_colors tube >? 1 then total_mixed + len tube
              else total_mixed in
            (total_mixed, blocked_in_tube tube blocked_units)
        end) (tm, bu) state in
    0 <= tm' /\ 0 <= bu'.
Proof.
  induction state as [| t state IH]; intros tm bu Htm Hbu; simpl; [done |].
  destruct t as [| c rest]; [by apply IH |].
  apply IH.
  - destruct (distinct_colors (c :: rest) >? 1); [| done].
    pose proof (len_nonneg (c :: rest)). lia.
  - pose proof (blocked_in_tube_mono (c :: rest) bu). lia.
Qed.

Lemma blocking_nonneg (state : State) : 0 <= blocking_heuristic g state.
Proof.
  unfold blocking_heuristic.
  pose proof (blocking_fold_nonneg state 0 0) as H.
  destruct (foldl _ (0, 0) state) as [tm bu].
  destruct H; lia.
Qed.

End Heuristics.

(** C9. On a valid state each of the three heuristics returns a
    non-negative integer, and its value is a function of the state and of the
    capacity of the game only. *)
Theorem heuristics_nonneg_pure (g : WaterSortGame) (s : State) :
  is_valid_state g s = true ->
  (0 <= entropy_heuristic g s /\
   0 <= completion_heuristic g s /\
   0 <= blocking_heuristic g s) /\
  (forall g' : WaterSortGame,
     capacity g' = capacity g ->
     entropy_heuristic g' s = entropy_heuristic g s /\
     completion_heuristic g' s = completion_heuristic g s /\
     blocking_heuristic g' s = blocking_heuristic g s).
Proof.
  intros Hv. split.
  - split; [apply entropy_nonneg |].
    split; [by apply completion_nonneg | apply blocking_nonneg].
  - intros g' Hcap. split; [done |]. split; [| done].
    unfold completion_heuristic. by rewrite Hcap.
Qed.

(** *** The heuristics on goal states *)

Section GoalStates.

Context (g : WaterSortGame).

(** A tube that passes the goal test is empty or full of one colour. *)
Lemma goal_tube_inv (t : Tube) :
  (len t =? capacity g) && (distinct_colors t =? 1) = true ->
  len t = capacity g /\ exists c, t = replicate (length t) c.
Proof.
  intros [Hlen Hone]%andb_true_iff.
  apply Z.eqb_eq in Hlen. apply Z.eqb_eq in Hone. split; [done |].
  unfold distinct_colors in Hone.
  assert (Hsize : size (list_to_set t : gset string) = 1%nat) by lia.
  apply size_1_elem_of in Hsize as [c Hc]. exists c.
  symmetry. apply replicate_as_elem_of. split; [done |].
  intros y Hy. apply (elem_of_list_to_set (C := gset string)) in Hy.
  rewrite Hc in Hy. by apply elem_of_singleton in Hy.
Qed.

Lemma is_goal_state_cons (t : Tube) (s : State) :
  is_goal_state g (t :: s) = true ->
  (t = [] \/ (len t =? capacity g) && (distinct_colors t =? 1) = true) /\
  is_goal_state g s = true.
Proof.
  unfold is_goal_state. simpl. intros [Ht Hs]%andb_true_iff. split; [| done].
  destruct t; [by left | by right].
Qed.

Lemma completion_goal (s : State) :
  is_goal_state g s = true -> completion_heuristic g s = 0.
Proof.
  intros Hgoal. unfold completion_heuristic.
  assert (H : forall acc : Z * Z,
    foldl (fun '(tubes_incomplete, colors_positioned) (tube : Tube) =>
      match tube with
      | [] => (tubes_incomplete, colors_positioned)
      | base_color :: rest =>
          if (len tube =? capacity g) && (distinct_colors tube =? 1)
          then (tubes_incomplete, colors_positioned)
          else (tubes_incomplete + 1,
                colors_positioned + streak_scan base_color rest 1)
      end) acc s = acc).
  { induction s as [| t s IH]; intros [ti cp]; simpl; [done |].
    apply is_goal_state_cons in Hgoal as [Ht Hs].
    destruct Ht as [-> | Ht]; [by apply IH |].
    destruct t as [| base rest]; [by apply IH |].
    rewrite Ht. by apply IH. }
  rewrite H. lia.
Qed.

Lemma elem_of_removelast (t : Tube) (x : Color) : x ∈ removelast t -> x ∈ t.
Proof.
  destruct t as [| a t] using rev_ind; [done |].
  rewrite removelast_last. intros ?. apply elem_of_app. by left.
Qed.

Lemma blocked_in_pure_tube (t : Tube) (c : Color) (b : Z) :
  (forall x, x ∈ t -> x = c) -> blocked_in_tube t b = b.
Proof.
  intros Hall. unfold blocked_in_tube.
  assert (Hl : forall idx color, (idx, color) ∈ enumerate (removelast t) -> color = c).
  { intros idx color [_ Hin]%elem_of_enumerate.
    apply Hall, elem_of_removelast. by eapply list_elem_of_lookup_2. }
  revert Hl. generalize (enumerate (removelast t)). intros l Hl.
  revert b. induction l as [| [idx color] l IH]; intros b; simpl; [done |].
  assert (color = c) as -> by (apply (Hl idx); left).
  destruct (existsb _ _) eqn:Hex.
  - apply existsb_exists in Hex as (upper & Hin & Hne).
    apply list_elem_of_In, subseteq_drop, Hall in Hin. subst upper.
    apply negb_true_iff, bool_decide_eq_false in Hne. done.
  - apply IH. intros idx' color' Hin. apply (Hl idx'). by right.
Qed.

Lemma blocking_goal (s : State) :
  is_goal_state g s = true -> blocking_heuristic g s = 0.
Proof.
  intros Hgoal. unfold blocking_heuristic.
  assert (H : forall acc : Z * Z,
    foldl (fun '(total_mixed, blocked_units) (tube : Tube) =>
      match tube with
      | [] => (total_mixed, blocked_units)
      | _ =>
          let total_mixed :=
            if distinct_colors tube >? 1 then total_mixed + len tube
            else total_mixed in
          (total_mixed, blocked_in_tube tube blocked_units)
      end) acc s = acc).
  { induction s as [| t s IH]; intros [tm bu]; simpl; [done |].
    apply is_goal_state_cons in Hgoal as [Ht Hs].
    destruct Ht as [-> | Ht]; [by apply IH |].
    destruct t as [| c0 rest]; [by apply IH |].
    pose proof Ht as [_ Hone]%andb_true_iff. apply Z.eqb_eq in Hone.
    apply goal_tube_inv in Ht as [_ [c Hc]].
    rewrite Hone. simpl.
    rewrite (blocked_in_pure_tube (c0 :: rest) c).
    - by apply IH.
    - intros x Hx. rewrite Hc in Hx. by apply elem_of_replicate_inv in Hx. }
  rewrite H. lia.
Qed.

(** Entropy: a colour held by at most one tube costs nothing. *)

Lemma Counter_fold_is_Some (tube : Tube) (c : Color) :
  forall acc : gmap string Z,
    is_Some (foldl (fun counts c => <[c := default 0 (counts !! c) + 1]> counts)
                   acc tube !! c)
    <-> is_Some (acc !! c) \/ c ∈ tube.
Proof.
  induction tube as [| x tube IH]; intros acc; simpl.
  - split; [by left | intros [? | ?%elem_of_nil]; done].
  - rewrite IH, elem_of_cons. destruct (decide (c = x)) as [-> | Hne].
    + rewrite lookup_insert_eq. split; [intros _; right; by left | intros _; left; eauto].
    + rewrite lookup_insert_ne by done. tauto.
Qed.

Lemma Counter_is_Some (tube : Tube) (c : Color) :
  is_Some (Counter tube !! c) <-> c ∈ tube.
Proof.
  unfold Counter. rewrite Counter_fold_is_Some, lookup_empty.
  split; [intros [[? ?] | ?]; done | by right].
Qed.

Lemma color_distribution_length (s : State) (c : Color) :
  forall cd : gmap string (list Z),
    length (default [] (foldl record_tube cd s !! c))
    = (length (default [] (cd !! c)) + tubes_holding c s)%nat.
Proof.
  induction s as [| t s IH]; intros cd; simpl.
  - unfold tubes_holding. simpl. lia.
  - rewrite IH, record_tube_lookup. unfold tubes_holding. rewrite filter_cons.
    pose proof (Counter_is_Some t c) as Hc.
    destruct (Counter t !! c) as [a |] eqn:Ha.
    + rewrite decide_True by (apply Hc; eauto). simpl.
      rewrite length_app. simpl. lia.
    + rewrite decide_False; [done |]. intros Hin. apply Hc in Hin as [? ?]. done.
Qed.

Lemma entropy_penalty_zero (cd : gmap string (list Z)) :
  (forall c l, cd !! c = Some l -> (length l <= 1)%nat) -> entropy_penalty cd = 0.
Proof.
  unfold entropy_penalty.
  apply (map_fold_weak_ind
           (fun r (m : gmap string (list Z)) =>
              (forall c l, m !! c = Some l -> (length l <= 1)%nat) -> r = 0)).
  - done.
  - intros c l m r Hnone IH Hall.
    assert (Hl : (length l <= 1)%nat) by (apply (Hall c); by rewrite lookup_insert_eq).
    assert (Hlen : (len l <=? 1) = true) by (apply Z.leb_le; unfold len; lia).
    rewrite Hlen. apply IH. intros c' l' Hl'. apply (Hall c').
    rewrite lookup_insert_ne; [done |]. intros ->. congruence.
Qed.

Lemma goal_units (s : State) (c : Color) :
  is_goal_state g s = true ->
  Z.of_nat (color_units c s) = Z.of_nat (tubes_holding c s) * capacity g /\
  ((1 <= tubes_holding c s)%nat -> 1 <= capacity g).
Proof.
  induction s as [| t s IH]; intros Hgoal.
  - unfold color_units, units_in_tube, flatten_colors, tubes_holding. simpl.
    split; lia.
  - apply is_goal_state_cons in Hgoal as [Ht Hs].
    destruct (IH Hs) as [IHu IHc].
    rewrite color_units_cons. unfold tubes_holding in *. rewrite filter_cons.
    destruct (decide (c ∈ t)) as [Hin | Hnot].
    + destruct Ht as [-> | Ht]; [by apply elem_of_nil in Hin |].
      apply goal_tube_inv in Ht as [Hlen [c0 Hc0]].
      assert (c = c0) as <-
        by (rewrite Hc0 in Hin; by apply elem_of_replicate_inv in Hin).
      assert (Hu : units_in_tube c t = length t).
      { unfold units_in_tube. rewrite Hc0 at 1.
        clear. induction (length t) as [| n IH]; simpl; [done |].
        rewrite filter_cons_True by done. simpl. by rewrite IH. }
      assert (Hpos : (1 <= length t)%nat) by (destruct t; [by apply elem_of_nil in Hin | simpl; lia]).
      simpl length. unfold len in Hlen. split; [| lia]. rewrite Hu. nia.
    + assert (Hu : units_in_tube c t = 0%nat).
      { unfold units_in_tube. clear -Hnot.
        induction t as [| x t IH]; [done |].
        rewrite filter_cons_False.
        - apply IH. intros ?. apply Hnot. by right.
        - intros ->. apply Hnot. left. }
      rewrite Hu. split; [lia | done].
Qed.

Lemma entropy_goal (s : State) :
  is_goal_state g s = true ->
  (forall c, Z.of_nat (color_units c s) <= capacity g) ->
  entropy_heuristic g s = 0.
Proof.
  intros Hgoal Hbound. apply entropy_penalty_zero. intros c l Hl.
  pose proof (color_distribution_length s c ∅) as Hlen.
  rewrite Hl, lookup_empty in Hlen. simpl in Hlen. rewrite Hlen.
  destruct (goal_units s c Hgoal) as [Hu Hc]. specialize (Hbound c).
  destruct (tubes_holding c s) as [| [| n]]; [lia | lia |].
  assert (1 <= capacity g) by (apply Hc; lia). nia.
Qed.

End GoalStates.

(** C10, as amended.  On every valid goal state the completion and the
    blocking heuristics return 0; the entropy heuristic returns 0 when no
    colour has more than [capacity] units in the state, as the conservation
    invariant of the data model requires. *)
Theorem heuristics_zero_on_goal (g : WaterSortGame) (s : State) :
  is_valid_state g s = true ->
  is_goal_state g s = true ->
  completion_heuristic g s = 0 /\
  blocking_heuristic g s = 0 /\
  ((forall c, Z.of_nat (color_units c s) <= capacity g) ->
   entropy_heuristic g s = 0).
Proof.
  intros _ Hgoal. split; [by apply completion_goal |].
  split; [by apply blocking_goal | by apply entropy_goal].
Qed.

(** C10, as stated, fails: two full tubes of the same colour form a valid
    goal state on which the entropy heuristic returns 4. *)
Lemma entropy_nonzero_on_goal :
  is_valid_state example_game twin_tubes_state = true /\
  is_goal_state example_game twin_tubes_state = true /\
  entropy_heuristic example_game twin_tubes_state = 4 /\
  ~ (entropy_heuristic example_game twin_tubes_state = 0 /\
     completion_heuristic example_game twin_tubes_state = 0 /\
     blocking_heuristic example_game twin_tubes_state = 0).
Proof.
  split; [reflexivity |]. split; [reflexivity |].
  split; [vm_compute; reflexivity |].
  intros [H _]. vm_compute in H. discriminate H.
Qed.

(** * The search engine: returned paths *)

Lemma bind_Ret {A B : Type} (c : outcome A) (k : A -> outcome B) (b : B) :
  c ≫= k = Ret b -> exists a, c = Ret a /\ k a = Ret b.
Proof. destruct c as [a | e |]; simpl; intros H; [by exists a | done | done]. Qed.

Ltac inv_bind H :=
  let a := fresh "a" in
  let Ha := fresh "Ha" in
  apply bind_Ret in H as (a & Ha & H).


Section Paths.

Context (g : WaterSortGame).

Lemma run_moves_snoc (s : State) (ms : list Move) (m : Move) (p x : State) (k : Z) :
  run_moves g s ms = Ret p ->
  apply_move g p m = Ret (x, k) ->
  run_moves g s (ms ++ [m]) = Ret x.
Proof.
  revert s. induction ms as [| m0 ms IH]; intros s; simpl.
  - intros [= ->] ->. done.
  - intros Hrun Hm. destruct (apply_move g s m0) as [[s1 k1] | |]; simpl in *; [| done | done].
    by apply IH.
Qed.

Lemma run_moves_snoc_inv (s : State) (ms : list Move) (m : Move) (x : State) :
  run_moves g s (ms ++ [m]) = Ret x ->
  exists p k, run_moves g s ms = Ret p /\ apply_move g p m = Ret (x, k).
Proof.
  revert s. induction ms as [| m0 ms IH]; intros s; simpl.
  - destruct (apply_move g s m) as [[s1 k1] | |] eqn:Hm; simpl; [| done | done].
    intros [= ->]. by exists s, k1.
  - destruct (apply_move g s m0) as [[s1 k1] | |]; simpl; [| done | done].
    apply IH.
Qed.

(** What [_reconstruct_moves] returns, when it returns, is a path from the
    initial state to the state it started from. *)
Lemma reconstruct_loop_path (s0 : State)
    (parents : gmap State (option State)) (moves_taken : gmap State (option Move)) :
  edges_ok g s0 parents moves_taken ->
  forall (fuel : nat) (current : State) (acc l : list Move),
    reconstruct_loop fuel parents moves_taken current acc = Ret l ->
    exists ms, l = acc ++ reverse ms /\ run_moves g s0 ms = Ret current.
Proof.
  intros Hok. induction fuel as [| fuel IH]; intros current acc l; simpl; [done |].
  pose proof (Hok current) as Hcur.
  destruct (moves_taken !! current) as [[m |] |]; [| | done].
  - destruct Hcur as (p & k & -> & Hm). intros Hrec.
    destruct (IH _ _ _ Hrec) as (ms & -> & Hrun).
    exists (ms ++ [m]). split.
    + by rewrite reverse_snoc, <- app_assoc.
    + by eapply run_moves_snoc.
  - intros [= <-]. subst current. exists []. by rewrite app_nil_r.
Qed.

Lemma reconstruct_moves_path (s0 : State)
    (parents : gmap State (option State)) (moves_taken : gmap State (option Move))
    (fuel : nat) (goal : State) (path : list Move) :
  edges_ok g s0 parents moves_taken ->
  _reconstruct_moves fuel goal parents moves_taken = Ret path ->
  run_moves g s0 path = Ret goal.
Proof.
  intros Hok Hrec. unfold _reconstruct_moves in Hrec. inv_bind Hrec.
  injection Hrec as <-.
  destruct (reconstruct_loop_path s0 _ _ Hok _ _ _ _ Ha) as (ms & -> & Hrun).
  simpl. by rewrite reverse_involutive.
Qed.

Lemma edges_ok_init (s0 : State) :
  edges_ok g s0 {[s0 := None]} {[s0 := None]}.
Proof.
  intros x. destruct (decide (x = s0)) as [-> | Hne].
  - by rewrite lookup_singleton_eq.
  - by rewrite lookup_singleton_ne.
Qed.

Lemma edges_ok_insert (s0 : State)
    (parents : gmap State (option State)) (moves_taken : gmap State (option Move))
    (current next_state : State) (move : Move) (k : Z) :
  edges_ok g s0 parents moves_taken ->
  apply_move g current move = Ret (next_state, k) ->
  edges_ok g s0 (<[next_state := Some current]> parents)
                (<[next_state := Some move]> moves_taken).
Proof.
  intros Hok Hm x. destruct (decide (x = next_state)) as [-> | Hne].
  - rewrite !lookup_insert_eq. by exists current, k.
  - rewrite !lookup_insert_ne by done. apply Hok.
Qed.

End Paths.

(** ** Breadth-first search *)

Section BfsRules.

Context (g : WaterSortGame).

(** Invariant rule for the [for] loop of [bfs]. *)
Lemma bfs_for_moves_rule (P : Bfs.vars -> Prop) (current : State) :
  (forall v move next_state k,
     P v -> apply_move g current move = Ret (next_state, k) ->
     next_state ∉ Bfs.visited v ->
     P (Bfs.discover current next_state move v)) ->
  forall (valid_moves : list Move) (v v' : Bfs.vars),
    P v -> Bfs.for_moves g current valid_moves v = Ret v' -> P v'.
Proof.
  intros Hstep. induction valid_moves as [| move rest IH]; intros v v' HP; simpl.
  - by intros [= <-].
  - intros Hfor. inv_bind Hfor. destruct a as [next_state k].
    destruct (decide (next_state ∈ Bfs.visited v)); [by eapply IH |].
    eapply IH; [| exact Hfor]. by eapply Hstep.
Qed.

(** Exit rule for the [while] loop of [bfs]: an invariant of the loop body
    holds of the variables at the iteration that returns. *)
Lemma bfs_while_rule (Inv : Bfs.vars -> Prop) :
  (forall v current rest v',
     Inv v -> Bfs.frontier v = current :: rest ->
     is_goal_state g current = false ->
     Bfs.for_moves g current (get_valid_moves g current) (Bfs.popped rest v) = Ret v' ->
     Inv (Bfs.measured v')) ->
  forall (fuel : nat) (v : Bfs.vars) (r : SearchResult) (v' : Bfs.vars),
    Inv v -> Bfs.while_frontier fuel g v = Ret (r, v') ->
    exists v1,
      Inv v1 /\
      ((Bfs.frontier v1 = [] /\ v' = v1 /\
        r = mkResult false [] (Z.of_nat (size (Bfs.visited_history v1)))
                     (Bfs.expanded v1) (Bfs.max_frontier v1) 0) \/
       (exists current rest fuel' path,
          Bfs.frontier v1 = current :: rest /\ v' = Bfs.popped rest v1 /\
          is_goal_state g current = true /\
          _reconstruct_moves fuel' current (Bfs.parents v1) (Bfs.moves_taken v1)
            = Ret path /\
          r = mkResult true path (Z.of_nat (size (Bfs.visited_history v1)))
                       (Bfs.expanded v1 + 1) (Bfs.max_frontier v1) (len path))).
Proof.
  intros Hbody. induction fuel as [| fuel IH]; intros v r v' HInv; simpl; [done |].
  destruct (Bfs.frontier v) as [| current rest] eqn:Hf.
  - intros [= <- <-]. exists v. split; [done |]. left. by rewrite Hf.
  - destruct (is_goal_state g current) eqn:Hgoal.
    + intros Hret. inv_bind Hret. injection Hret as <- <-.
      exists v. split; [done |]. right. exists current, rest, fuel, a.
      by rewrite Hf.
    + intros Hret. inv_bind Hret. eapply IH; [| exact Hret]. by eapply Hbody.
Qed.

Lemma bfs_edges_ok (s0 : State) (fuel : nat) (r : SearchResult) (v' : Bfs.vars) :
  Bfs.while_frontier fuel g (Bfs.init s0) = Ret (r, v') ->
  success r = true -> solves g s0 r.
Proof.
  intros Hret Hsucc.
  eapply (bfs_while_rule (fun v => edges_ok g s0 (Bfs.parents v) (Bfs.moves_taken v)))
    in Hret as (v1 & Hok & Hexit).
  - destruct Hexit as [(_ & _ & ->) | (current & rest & fuel' & path & _ & _ & Hgoal & Hrec & ->)];
      [done |].
    exists current. simpl. split; [| done].
    by eapply reconstruct_moves_path.
  - intros v current rest v1 Hok Hf Hgoal Hfor. simpl.
    eapply (bfs_for_moves_rule (fun v => edges_ok g s0 (Bfs.parents v) (Bfs.moves_taken v)));
      [| | exact Hfor]; [| done].
    intros v2 move next_state k Hok2 Hm _. simpl. by eapply edges_ok_insert.
  - apply edges_ok_init.
Qed.

End BfsRules.

(** ** Depth-first search *)

Section DfsRules.

Context (g : WaterSortGame).

(** A property of the variables that every statement of [dfs] preserves
    holds when [search] returns. *)
Section StateInvariant.

Variable P : Dfs.vars -> Prop.
Hypothesis P_succeed :
  forall state v, P v -> is_goal_state g state = true -> P (Dfs.succeed state v).
Hypothesis P_expand : forall v, P v -> P (Dfs.expand v).
Hypothesis P_descend :
  forall state next_state move k v,
    P v -> apply_move g state move = Ret (next_state, k) ->
    next_state ∉ Dfs.visited v ->
    P (Dfs.descend state next_state move v).
Hypothesis P_unwind : forall next_state v, P v -> P (Dfs.unwind next_state v).

Lemma dfs_for_moves_rule (rec : State -> Z -> Dfs.vars -> outcome (bool * Dfs.vars))
    (state : State) (depth : Z) :
  (forall st d v r, P v -> rec st d v = Ret r -> P r.2) ->
  forall (valid_moves : list Move) (v : Dfs.vars) (r : bool * Dfs.vars),
    P v -> Dfs.for_moves g rec state depth valid_moves v = Ret r -> P r.2.
Proof.
  intros Hrec. induction valid_moves as [| move rest IH]; intros v r HP; simpl.
  - by intros [= <-].
  - intros Hfor. inv_bind Hfor. destruct a as [next_state k].
    destruct (decide (next_state ∈ Dfs.visited v)); [by eapply IH |].
    inv_bind Hfor. destruct a as [found v1].
    assert (HP1 : P v1).
    { apply (Hrec _ _ _ _ (P_descend _ _ _ _ _ HP Ha n) Ha0). }
    destruct found.
    + by injection Hfor as <-.
    + eapply IH; [| exact Hfor]. by apply P_unwind.
Qed.

Lemma dfs_search_rule (depth_limit : option Z) (fuel : nat) :
  forall (state : State) (depth : Z) (v : Dfs.vars) (r : bool * Dfs.vars),
    P v -> Dfs.search fuel g depth_limit state depth v = Ret r -> P r.2.
Proof.
  induction fuel as [| fuel IH]; intros state depth v r HP; simpl; [done |].
  destruct (is_goal_state g state) eqn:Hgoal.
  - intros [= <-]. simpl. by apply P_succeed.
  - destruct (match depth_limit with Some limit => depth >=? limit | None => false end).
    + by intros [= <-].
    + intros Hfor. eapply dfs_for_moves_rule; [| | exact Hfor].
      * intros st d v1 r1 HP1 Hr. by eapply IH.
      * by apply P_expand.
Qed.

End StateInvariant.

Lemma dfs_edges_ok (s0 : State) (depth_limit : option Z) (fuel : nat)
    (r : SearchResult) (v' : Dfs.vars) :
  dfs_run fuel g s0 depth_limit = Ret (r, v') ->
  success r = true -> solves g s0 r.
Proof.
  unfold dfs_run. intros Hret Hsucc. inv_bind Hret. destruct a as [found v].
  eapply (dfs_search_rule
            (fun v => edges_ok g s0 (Dfs.parents v) (Dfs.moves_taken v) /\
                      forall x, Dfs.success_state v = Some x ->
                                is_goal_state g x = true))
    in Ha as [Hok Hgoal]; simpl in *.
  - destruct found; [| by injection Hret as <- <-].
    destruct (Dfs.success_state v) as [x |]; [| by injection Hret as <- <-].
    inv_bind Hret. injection Hret as <- <-.
    exists x. simpl. split; [by eapply reconstruct_moves_path |].
    split; [by apply Hgoal | done].
  - intros state v1 [Hok Hg] Hgoal. simpl. split; [done |]. by intros x [= <-].
  - by intros v1 [Hok Hg].
  - intros state next_state move k v1 [Hok Hg] Hm _. simpl.
    split; [by eapply edges_ok_insert | done].
  - by intros next_state v1 [Hok Hg].
  - simpl. split; [apply edges_ok_init | done].
Qed.

End DfsRules.

(** ** A* *)

Section AStarRules.

Context (g : WaterSortGame) (heuristic : State -> Z).

Section StateInvariant.

Variable P : AStar.vars -> Prop.
Hypothesis P_popped : forall heap' v, P v -> P (AStar.popped heap' v).
Hypothesis P_finalize :
  forall current v, P v -> current ∉ AStar.visited v -> P (AStar.finalize current v).
Hypothesis P_expand : forall v, P v -> P (AStar.expand v).
Hypothesis P_relax :
  forall current next_state move tentative_g k v,
    P v -> apply_move g current move = Ret (next_state, k) ->
    P (AStar.relax heuristic current next_state move tentative_g v).
Hypothesis P_measured : forall v, P v -> P (AStar.measured v).

Lemma astar_for_moves_rule (current : State) (current_g : Z) :
  forall (valid_moves : list Move) (v v' : AStar.vars),
    P v -> AStar.for_moves g heuristic current current_g valid_moves v = Ret v' ->
    P v'.
Proof.
  induction valid_moves as [| move rest IH]; intros v v' HP; simpl.
  - by intros [= <-].
  - intros Hfor. inv_bind Hfor. destruct a as [next_state k].
    destruct (match AStar.g_cost v !! next_state with
              | Some known => current_g + 1 >=? known
              | None => false
              end); [by eapply IH |].
    eapply IH; [| exact Hfor]. by eapply P_relax.
Qed.

(** When the loop returns, the invariant holds of the final variables; a
    successful result is built from a goal state just finalized. *)
Lemma astar_while_rule (fuel : nat) :
  forall (v : AStar.vars) (r : SearchResult) (v' : AStar.vars),
    P v -> AStar.while_open fuel g heuristic v = Ret (r, v') ->
    P v' /\
    explored_nodes r = Z.of_nat (size (AStar.visited v')) /\
    (success r = true ->
     exists current fuel',
       is_goal_state g current = true /\
       _reconstruct_moves fuel' current (AStar.parents v') (AStar.moves_taken v')
         = Ret (moves r) /\
       depth r = len (moves r)).
Proof.
  induction fuel as [| fuel IH]; intros v r v' HP; simpl; [done |].
  destruct (AStar.heappop (AStar.open_heap v)) as [[[[f_score counter] current] heap'] |].
  2: { intros [= <- <-]. simpl. done. }
  destruct (decide (current ∈ AStar.visited v)) as [Hin | Hnot].
  { apply IH. by apply P_popped. }
  assert (HP1 : P (AStar.finalize current (AStar.popped heap' v)))
    by (apply P_finalize; [by apply P_popped | done]).
  destruct (is_goal_state g current) eqn:Hgoal.
  - intros Hret. inv_bind Hret. injection Hret as <- <-. simpl.
    split; [done |]. split; [done |]. intros _. by exists current, fuel.
  - destruct (AStar.g_cost _ !! current) as [current_g |]; [| done].
    intros Hret. inv_bind Hret. eapply IH; [| exact Hret].
    apply P_measured. eapply astar_for_moves_rule; [| exact Ha].
    by apply P_expand.
Qed.

End StateInvariant.

Lemma astar_edges_ok (s0 : State) (fuel : nat) (r : SearchResult) (v' : AStar.vars) :
  a_star_run fuel g s0 heuristic = Ret (r, v') ->
  success r = true -> solves g s0 r.
Proof.
  unfold a_star_run. intros Hret Hsucc.
  eapply (astar_while_rule
            (fun v => edges_ok g s0 (AStar.parents v) (AStar.moves_taken v)))
    in Hret as (Hok & _ & Hres); simpl; try done.
  - destruct (Hres Hsucc) as (current & fuel' & Hgoal & Hrec & Hdepth).
    exists current. split; [by eapply reconstruct_moves_path | done].
  - intros current next_state move tentative_g k v Hok Hm. by eapply edges_ok_insert.
  - apply edges_ok_init.
Qed.

End AStarRules.

(** ** IDA* *)

Section IdaStarRules.

Context (g : WaterSortGame) (heuristic : State -> Z) (max_depth : Z).

Section StateInvariant.

Variable P : IdaStar.vars -> Prop.
Variable initial_state : State.
Hypothesis P_restart : forall v, P v -> P (IdaStar.restart initial_state v).
Hypothesis P_expand : forall v, P v -> P (IdaStar.expand v).
Hypothesis P_descend :
  forall next_state move v,
    P v -> next_state ∉ IdaStar.visited v -> P (IdaStar.descend next_state move v).
Hypothesis P_unwind : forall next_state v, P v -> P (IdaStar.unwind next_state v).

Lemma ida_for_moves_rule
    (rec : State -> Z -> IdaStar.vars -> outcome (bool * IdaStar.bound * IdaStar.vars))
    (state : State) (g_ : Z) :
  (forall st d v r, P v -> rec st d v = Ret r -> P r.2) ->
  forall (valid_moves : list Move) (min_threshold : IdaStar.bound)
         (v : IdaStar.vars) (r : bool * IdaStar.bound * IdaStar.vars),
    P v -> IdaStar.for_moves g rec state g_ valid_moves min_threshold v = Ret r ->
    P r.2.
Proof.
  intros Hrec. induction valid_moves as [| move rest IH]; intros mt v r HP; simpl.
  - by intros [= <-].
  - intros Hfor. inv_bind Hfor. destruct a as [next_state k].
    destruct (decide (next_state ∈ IdaStar.visited v)); [by eapply IH |].
    inv_bind Hfor. destruct a as [[found temp] v1].
    assert (HP1 : P v1) by (apply (Hrec _ _ _ _ (P_descend _ move _ HP n) Ha0)).
    destruct found.
    + by injection Hfor as <-.
    + eapply IH; [| exact Hfor]. by apply P_unwind.
Qed.

Lemma ida_search_rule (threshold : Z) (fuel : nat) :
  forall (state : State) (g_ : Z) (v : IdaStar.vars)
         (r : bool * IdaStar.bound * IdaStar.vars),
    P v -> IdaStar.search fuel g heuristic max_depth threshold state g_ v = Ret r ->
    P r.2.
Proof.
  induction fuel as [| fuel IH]; intros state g_ v r HP; simpl; [done |].
  destruct (g_ + heuristic state >? threshold); [by intros [= <-] |].
  destruct (is_goal_state g state); [by intros [= <-] |].
  destruct (g_ >=? max_depth); [by intros [= <-] |].
  intros Hfor. eapply ida_for_moves_rule; [| | exact Hfor].
  - intros st d v1 r1 HP1 Hr. by eapply IH.
  - by apply P_expand.
Qed.

Lemma ida_iterate_rule (fuel : nat) :
  forall (threshold : Z) (v : IdaStar.vars) (r : SearchResult) (v' : IdaStar.vars),
    P v ->
    IdaStar.iterate fuel g heuristic max_depth initial_state threshold v = Ret (r, v') ->
    P v' /\ explored_nodes r = Z.of_nat (size (IdaStar.global_visited v')).
Proof.
  induction fuel as [| fuel IH]; intros threshold v r v' HP; simpl; [done |].
  intros Hret. inv_bind Hret. destruct a as [[found temp] v1].
  assert (HP1 : P v1).
  { apply (ida_search_rule _ _ _ _ _ _ (P_restart _ HP) Ha). }
  destruct found.
  - by injection Hret as <- <-.
  - destruct temp as [next |].
    + by eapply IH.
    + by injection Hret as <- <-.
Qed.

End StateInvariant.

Context (s0 : State).

Lemma ida_for_moves_path
    (rec : State -> Z -> IdaStar.vars -> outcome (bool * IdaStar.bound * IdaStar.vars))
    (state : State) (g_ : Z) :
  (forall st d v r,
     run_moves g s0 (IdaStar.path v) = Ret st -> rec st d v = Ret r ->
     ida_post g s0 v r) ->
  forall (valid_moves : list Move) (min_threshold : IdaStar.bound)
         (v : IdaStar.vars) (r : bool * IdaStar.bound * IdaStar.vars),
    run_moves g s0 (IdaStar.path v) = Ret state ->
    IdaStar.for_moves g rec state g_ valid_moves min_threshold v = Ret r ->
    ida_post g s0 v r.
Proof.
  intros Hrec. induction valid_moves as [| move rest IH]; intros mt v r Hrun; simpl.
  - by intros [= <-].
  - intros Hfor. inv_bind Hfor. destruct a as [next_state k].
    destruct (decide (next_state ∈ IdaStar.visited v)); [by eapply IH |].
    inv_bind Hfor. destruct a as [[found temp] v1].
    assert (Hpost : ida_post g s0 (IdaStar.descend next_state move v) (found, temp, v1)).
    { eapply Hrec; [| exact Ha0]. simpl. by eapply run_moves_snoc. }
    unfold ida_post in Hpost. simpl in Hpost.
    destruct found.
    + injection Hfor as <-. done.
    + assert (Hp : IdaStar.path (IdaStar.unwind next_state v1) = IdaStar.path v).
      { simpl. by rewrite Hpost, removelast_last. }
      specialize (IH (IdaStar.bound_min mt temp) (IdaStar.unwind next_state v1) r).
      rewrite Hp in IH. specialize (IH Hrun).
      assert (Hr : ida_post g s0 (IdaStar.unwind next_state v1) r).
      { apply IH. exact Hfor. }
      unfold ida_post in *. by rewrite Hp in Hr.
Qed.

Lemma ida_search_path (threshold : Z) (fuel : nat) :
  forall (state : State) (g_ : Z) (v : IdaStar.vars)
         (r : bool * IdaStar.bound * IdaStar.vars),
    run_moves g s0 (IdaStar.path v) = Ret state ->
    IdaStar.search fuel g heuristic max_depth threshold state g_ v = Ret r ->
    ida_post g s0 v r.
Proof.
  induction fuel as [| fuel IH]; intros state g_ v r Hrun; simpl; [done |].
  destruct (g_ + heuristic state >? threshold); [by intros [= <-] |].
  destruct (is_goal_state g state) eqn:Hgoal.
  { intros [= <-]. by exists state. }
  destruct (g_ >=? max_depth); [by intros [= <-] |].
  intros Hfor.
  exact (ida_for_moves_path _ state g_ IH _ _ (IdaStar.expand v) _ Hrun Hfor).
Qed.

Lemma ida_iterate_path (fuel : nat) :
  forall (threshold : Z) (v : IdaStar.vars) (r : SearchResult) (v' : IdaStar.vars),
    IdaStar.path v = [] ->
    IdaStar.iterate fuel g heuristic max_depth s0 threshold v = Ret (r, v') ->
    success r = true -> solves g s0 r.
Proof.
  induction fuel as [| fuel IH]; intros threshold v r v' Hnil; simpl; [done |].
  intros Hret Hsucc. inv_bind Hret. destruct a as [[found temp] v1].
  apply ida_search_path in Ha; [| simpl; by rewrite Hnil].
  unfold ida_post in Ha. simpl in Ha.
  destruct found.
  - injection Hret as <- <-. destruct Ha as (goal & Hrun & Hgoal).
    by exists goal.
  - destruct temp as [next |].
    + eapply IH; [| exact Hret | done]. by rewrite Ha.
    + by injection Hret as <- <-.
Qed.

End IdaStarRules.

(** Every successful result solves the puzzle, from any initial state. *)
Lemma successful_result_solves_any (g : WaterSortGame) (s0 : State)
    (fuel : nat) (r : SearchResult) :
  bfs fuel g s0 = Ret r \/
  (exists depth_limit, dfs fuel g s0 depth_limit = Ret r) \/
  (exists heuristic, a_star fuel g s0 heuristic = Ret r) \/
  (exists heuristic max_depth, ida_star fuel g s0 heuristic max_depth = Ret r) ->
  success r = true ->
  solves g s0 r.
Proof.
  intros Hrun Hsucc.
  destruct Hrun as [Hb | [[lim Hd] | [[h Hs] | (h & md & Hi)]]].
  - unfold bfs in Hb. inv_bind Hb. destruct a as [r' v]. injection Hb as ->.
    unfold bfs_run in Ha. destruct (is_goal_state g s0) eqn:Hgoal.
    + injection Ha as <- <-. by exists s0.
    + inv_bind Ha. destruct a as [r' v']. injection Ha as -> <-.
      by eapply bfs_edges_ok.
  - unfold dfs in Hd. inv_bind Hd. destruct a as [r' v]. injection Hd as ->.
    by eapply dfs_edges_ok.
  - unfold a_star in Hs. inv_bind Hs. destruct a as [r' v]. injection Hs as ->.
    by eapply astar_edges_ok.
  - unfold ida_star in Hi. inv_bind Hi. destruct a as [r' v]. injection Hi as ->.
    unfold ida_star_run in Ha.
    by eapply (ida_iterate_path g h md s0 fuel _ (IdaStar.init s0)).
Qed.

(** C3. On a valid initial state, the moves of every successful result of
    [bfs], [dfs], [a_star] or [ida_star] apply in order with [apply_move]
    from the initial state, each succeeding, and end in a goal state; the
    [depth] of the result is the number of moves. *)
Theorem successful_result_solves (g : WaterSortGame) (s0 : State)
    (fuel : nat) (r : SearchResult) :
  is_valid_state g s0 = true ->
  bfs fuel g s0 = Ret r \/
  (exists depth_limit, dfs fuel g s0 depth_limit = Ret r) \/
  (exists heuristic, a_star fuel g s0 heuristic = Ret r) \/
  (exists heuristic max_depth, ida_star fuel g s0 heuristic max_depth = Ret r) ->
  success r = true ->
  solves g s0 r.
Proof. intros _. apply successful_result_solves_any. Qed.

(** * The search engine: the [explored_nodes] counter *)

Section Explored.

Context (g : WaterSortGame).

Lemma list_to_set_snoc (l : list State) (x : State) (X : gset State) :
  X = list_to_set l -> {[x]} ∪ X = list_to_set (l ++ [x]).
Proof.
  intros ->. rewrite list_to_set_app_L. simpl.
  rewrite union_empty_r_L. apply union_comm_L.
Qed.

Lemma list_to_set_one (x : State) : ({[x]} : gset State) = list_to_set [x].
Proof. simpl. by rewrite union_empty_r_L. Qed.

Lemma bfs_explored (s0 : State) (fuel : nat) (r : SearchResult) (v : Bfs.vars) :
  Bfs.while_frontier fuel g (Bfs.init s0) = Ret (r, v) ->
  explored_nodes r = Z.of_nat (size (list_to_set (Bfs.inserted v) : gset State)).
Proof.
  intros Hret.
  eapply (bfs_while_rule g (fun v => Bfs.visited_history v = list_to_set (Bfs.inserted v)))
    in Hret as (v1 & Hinv & Hexit).
  - destruct Hexit as [(_ & -> & ->) | (current & rest & fuel' & path & _ & -> & _ & _ & ->)];
      simpl; by rewrite Hinv.
  - intros v0 current rest v1 Hinv Hf Hgoal Hfor. simpl.
    eapply (bfs_for_moves_rule g
              (fun v => Bfs.visited_history v = list_to_set (Bfs.inserted v)));
      [| | exact Hfor]; [| done].
    intros v2 move next_state k Hinv2 _ _. simpl. by apply list_to_set_snoc.
  - apply list_to_set_one.
Qed.

Lemma dfs_explored (s0 : State) (depth_limit : option Z) (fuel : nat)
    (r : SearchResult) (v : Dfs.vars) :
  dfs_run fuel g s0 depth_limit = Ret (r, v) ->
  explored_nodes r = Z.of_nat (size (list_to_set (Dfs.inserted v) : gset State)).
Proof.
  unfold dfs_run. intros Hret. inv_bind Hret. destruct a as [found v1].
  eapply (dfs_search_rule g
            (fun v => Dfs.visited_history v = list_to_set (Dfs.inserted v)))
    in Ha; simpl in *; try done.
  - destruct found; [| injection Hret as <- <-; simpl; by rewrite Ha].
    destruct (Dfs.success_state v1) as [x |];
      [| injection Hret as <- <-; simpl; by rewrite Ha].
    inv_bind Hret. injection Hret as <- <-. simpl. by rewrite Ha.
  - intros state next_state move k v0 Hinv _ _. by apply list_to_set_snoc.
  - apply list_to_set_one.
Qed.

Lemma astar_explored (heuristic : State -> Z) (s0 : State) (fuel : nat)
    (r : SearchResult) (v : AStar.vars) :
  a_star_run fuel g s0 heuristic = Ret (r, v) ->
  AStar.visited v = list_to_set (AStar.inserted v) /\
  explored_nodes r = Z.of_nat (size (list_to_set (AStar.inserted v) : gset State)).
Proof.
  unfold a_star_run. intros Hret.
  eapply (astar_while_rule g heuristic
            (fun v => AStar.visited v = list_to_set (AStar.inserted v)))
    in Hret as (Hinv & Hexp & _); simpl; try done.
  - split; [done |]. by rewrite Hexp, Hinv.
  - intros current v0 Hinv _. by apply list_to_set_snoc.
Qed.

Lemma ida_explored (heuristic : State -> Z) (max_depth : Z) (s0 : State)
    (fuel : nat) (r : SearchResult) (v : IdaStar.vars) :
  ida_star_run fuel g s0 heuristic max_depth = Ret (r, v) ->
  explored_nodes r = Z.of_nat (size (list_to_set (IdaStar.inserted v) : gset State)).
Proof.
  unfold ida_star_run. intros Hret.
  eapply (ida_iterate_rule g heuristic max_depth
            (fun v => IdaStar.global_visited v = list_to_set (IdaStar.inserted v) /\
                      s0 ∈ IdaStar.global_visited v) s0)
    in Hret as ([Hinv _] & Hexp); simpl; try done.
  - by rewrite Hexp, Hinv.
  - intros v0 [Hinv Hin]. split; [| done].
    rewrite <- (list_to_set_snoc _ s0 _ Hinv).
    apply set_eq. intros x. rewrite elem_of_union, elem_of_singleton.
    split; [by right | intros [-> | ?]; done].
  - intros next_state move v0 [Hinv Hin] _. split.
    + by apply list_to_set_snoc.
    + apply elem_of_union. by right.
  - split; [apply list_to_set_one | by apply elem_of_singleton].
Qed.

End Explored.

(** C8, as amended.  The [explored_nodes] of a result is the number of
    distinct states ever put into the run's sets of visited states
    ([visited], [visited_history], [global_visited]).  For [a_star] that set
    is [visited], which receives exactly the states popped from the heap and
    finalized.  [bfs] on an initial goal state reports 1 before building any
    set. *)
Theorem explored_nodes_count (g : WaterSortGame) (s0 : State) (fuel : nat) :
  (forall r ov,
     bfs_run fuel g s0 = Ret (r, ov) ->
     match ov with
     | Some v =>
         explored_nodes r = Z.of_nat (size (list_to_set (Bfs.inserted v) : gset State))
     | None => is_goal_state g s0 = true /\ explored_nodes r = 1
     end) /\
  (forall depth_limit r v,
     dfs_run fuel g s0 depth_limit = Ret (r, v) ->
     explored_nodes r = Z.of_nat (size (list_to_set (Dfs.inserted v) : gset State))) /\
  (forall heuristic r v,
     a_star_run fuel g s0 heuristic = Ret (r, v) ->
     AStar.visited v = list_to_set (AStar.inserted v) /\
     explored_nodes r = Z.of_nat (size (AStar.visited v))) /\
  (forall heuristic max_depth r v,
     ida_star_run fuel g s0 heuristic max_depth = Ret (r, v) ->
     explored_nodes r = Z.of_nat (size (list_to_set (IdaStar.inserted v) : gset State))).
Proof.
  split; [| split; [| split]].
  - intros r ov. unfold bfs_run. destruct (is_goal_state g s0) eqn:Hgoal.
    + by intros [= <- <-].
    + intros Hret. inv_bind Hret. destruct a as [r' v]. injection Hret as <- <-.
      by eapply bfs_explored.
  - intros lim r v. apply dfs_explored.
  - intros h r v Hret. destruct (astar_explored g h s0 fuel r v Hret) as [Hv He].
    split; [done |]. by rewrite Hv.
  - intros h md r v. apply ida_explored.
Qed.

(** C8, as stated, fails for [a_star]: on a puzzle one pour away from the
    goal, seven states receive a g-cost entry and five are still queued when
    the search returns successfully, yet [explored_nodes] is 2. *)
Lemma a_star_explored_excludes_queued :
  match a_star_run 10 example_game example_state
                   (completion_heuristic example_game) with
  | Ret (r, v) =>
      Some (success r, explored_nodes r,
            size (dom (AStar.g_cost v)), length (AStar.open_heap v))
  | _ => None
  end = Some (true, 2, 7%nat, 5%nat).
Proof. vm_compute. reflexivity. Qed.

(** * Depth-first search: the depth limit *)

Section DfsDepth.

Context (g : WaterSortGame).

Lemma chain_frame (V V' : gset State)
    (P P' : gmap State (option State)) (M M' : gmap State (option Move))
    (x : State) (n : nat) :
  chain V P M x n ->
  V ⊆ V' ->
  (forall y, y ∈ V -> P' !! y = P !! y /\ M' !! y = M !! y) ->
  chain V' P' M' x n.
Proof.
  intros Hc Hsub Hframe. induction Hc as [x Hx Hm | x p m n Hx Hm Hp _ IH].
  - apply chain_root; [by apply Hsub |]. destruct (Hframe x Hx) as [_ ->]. done.
  - destruct (Hframe x Hx) as [HP HM].
    eapply chain_step; [by apply Hsub | by rewrite HM | by rewrite HP | done].
Qed.

(** The path rebuilt from a state with a chain of [n] steps has [n] moves. *)
Lemma reconstruct_loop_chain (V : gset State)
    (P : gmap State (option State)) (M : gmap State (option Move))
    (x : State) (n : nat) :
  chain V P M x n ->
  forall (fuel : nat) (acc l : list Move),
    reconstruct_loop fuel P M x acc = Ret l ->
    length l = (length acc + n)%nat.
Proof.
  induction 1 as [x Hx Hm | x p m n Hx Hm Hp _ IH]; intros fuel acc l;
    (destruct fuel as [| fuel]; simpl; [done |]); rewrite Hm.
  - intros [= <-]. lia.
  - rewrite Hp. intros Hrec. apply IH in Hrec.
    rewrite length_app in Hrec. simpl in Hrec. lia.
Qed.

Variable limit : Z.

Lemma dfs_for_moves_depth
    (rec : State -> Z -> Dfs.vars -> outcome (bool * Dfs.vars))
    (state : State) (d : nat) :
  Z.of_nat d < limit ->
  (forall st v r,
     dfs_pre st (S d) v -> rec st (Z.of_nat d + 1) v = Ret r ->
     dfs_post limit (S d) v r) ->
  forall (valid_moves : list Move) (v : Dfs.vars) (r : bool * Dfs.vars),
    dfs_pre state d v ->
    Dfs.for_moves g rec state (Z.of_nat d) valid_moves v = Ret r ->
    dfs_post limit d v r.
Proof.
  intros Hlim Hrec. unfold dfs_post in *.
  induction valid_moves as [| move rest IH]; intros v r [Hchain Hsize]; simpl.
  - intros [= <-]. simpl. split; [done |]. split; [lia | done].
  - intros Hfor. inv_bind Hfor. destruct a as [next_state k].
    destruct (decide (next_state ∈ Dfs.visited v)) as [Hin | Hnot];
      [by apply IH |].
    inv_bind Hfor. destruct a as [found v1].
    set (v0 := Dfs.descend state next_state move v) in *.
    assert (Hsub : Dfs.visited v ⊆ Dfs.visited v0)
      by (simpl; apply union_subseteq_r).
    assert (Hframe0 : forall y, y ∈ Dfs.visited v ->
              Dfs.parents v0 !! y = Dfs.parents v !! y /\
              Dfs.moves_taken v0 !! y = Dfs.moves_taken v !! y).
    { intros y Hy. simpl. assert (next_state <> y) by (intros ->; done).
      by rewrite !lookup_insert_ne. }
    assert (Hsize0 : size (Dfs.visited v0) = S (S d)).
    { simpl. rewrite size_union by (apply disjoint_singleton_l; done).
      rewrite size_singleton. lia. }
    assert (Hpre : dfs_pre next_state (S d) v0).
    { split; [| done].
      eapply chain_step.
      - simpl. apply elem_of_union. left. by apply elem_of_singleton.
      - simpl. apply lookup_insert_eq.
      - simpl. apply lookup_insert_eq.
      - by eapply chain_frame. }
    destruct (Hrec _ _ _ Hpre Ha0) as (Hframe1 & Hmf1 & Hres1). simpl in *.
    assert (Hmf0 : Dfs.max_frontier v0 <= Z.max (Dfs.max_frontier v) (limit + 1)).
    { subst v0. simpl. rewrite size_union by (apply disjoint_singleton_l; done).
      rewrite size_singleton. lia. }
    assert (Hframe : forall y, y ∈ Dfs.visited v ->
              Dfs.parents v1 !! y = Dfs.parents v !! y /\
              Dfs.moves_taken v1 !! y = Dfs.moves_taken v !! y).
    { intros y Hy. destruct (Hframe1 y (Hsub y Hy)) as [-> ->]. by apply Hframe0. }
    destruct found.
    + injection Hfor as <-. simpl. split; [done |]. split; [lia |].
      destruct Hres1 as (Hsub1 & x & n & Hs & Hc & Hn).
      split; [by etrans |]. exists x, n. repeat split; try done.
      right. lia.
    + assert (Hvis : Dfs.visited (Dfs.unwind next_state v1) = Dfs.visited v).
      { simpl. rewrite Hres1. subst v0. simpl.
        apply set_eq. intros y.
        rewrite elem_of_difference, elem_of_union, !elem_of_singleton.
        split; [intros [[-> | ?] ?]; done |].
        intros Hy. split; [by right |]. intros ->. done. }
      assert (Hpre2 : dfs_pre state d (Dfs.unwind next_state v1)).
      { split; [| by rewrite Hvis].
        rewrite Hvis. simpl. eapply chain_frame; [exact Hchain | done | done]. }
      destruct (IH _ _ Hpre2 Hfor) as (Hframe2 & Hmf2 & Hres2).
      rewrite Hvis in Hframe2, Hres2. simpl in Hframe2, Hmf2.
      split; [| split; [lia | done]].
      intros y Hy. destruct (Hframe2 y Hy) as [-> ->]. by apply Hframe.
Qed.

Lemma dfs_search_depth (fuel : nat) :
  forall (state : State) (d : nat) (v : Dfs.vars) (r : bool * Dfs.vars),
    dfs_pre state d v ->
    Dfs.search fuel g (Some limit) state (Z.of_nat d) v = Ret r ->
    dfs_post limit d v r.
Proof.
  unfold dfs_post.
  induction fuel as [| fuel IH]; intros state d v r Hpre; simpl; [done |].
  destruct (is_goal_state g state).
  - intros [= <-]. simpl. split; [done |]. split; [lia |]. split; [done |].
    destruct Hpre as [Hchain _]. exists state, d. repeat split; try done. by left.
  - destruct (Z.of_nat d >=? limit) eqn:Hlim.
    + intros [= <-]. simpl. split; [done |]. split; [lia | done].
    + rewrite Z.geb_leb in Hlim. apply Z.leb_gt in Hlim. intros Hfor.
      eapply (dfs_for_moves_depth _ state d Hlim) in Hfor.
      * exact Hfor.
      * intros st v1 r1 Hpre1 Hr. apply (IH st (S d) v1 r1 Hpre1).
        by rewrite Nat2Z.inj_succ, <- Z.add_1_r.
      * exact Hpre.
Qed.

End DfsDepth.

(** C7, as amended.  With an explicit [depth_limit] no branch of [dfs] goes
    deeper than the limit: the returned path has at most [limit] moves, and
    [visited], which holds the states of the current branch, never has more
    than [limit + 1] states.  Without [depth_limit] there is no bound. *)
Theorem dfs_depth_limit (g : WaterSortGame) (s0 : State) (fuel : nat)
    (limit : Z) (r : SearchResult) :
  dfs fuel g s0 (Some limit) = Ret r ->
  depth r <= Z.max 0 limit /\
  len (moves r) <= Z.max 0 limit /\
  max_frontier_size r <= Z.max 1 (limit + 1).
Proof.
  unfold dfs, dfs_run. intros Hret. inv_bind Hret. destruct a as [r' v'].
  injection Hret as ->. inv_bind Ha. destruct a as [found v].
  apply (dfs_search_depth g limit fuel s0 0 (Dfs.init s0)) in Ha0.
  2: { split; [| exact (size_singleton (C := gset State) s0)].
       apply chain_root.
       - change (s0 ∈ ({[s0]} : gset State)). by apply elem_of_singleton.
       - change (({[s0 := None]} : gmap State (option Move)) !! s0 = Some None).
         apply lookup_singleton_eq. }
  destruct Ha0 as (_ & Hmf & Hres). simpl in *.
  destruct found.
  - destruct Hres as (_ & x & n & Hs & Hc & Hn). rewrite Hs in Ha.
    inv_bind Ha. injection Ha as <- <-. simpl.
    unfold _reconstruct_moves in Ha0. inv_bind Ha0. injection Ha0 as <-.
    apply (reconstruct_loop_chain _ _ _ _ _ Hc) in Ha.
    unfold len. rewrite length_reverse, Ha. simpl. lia.
  - injection Ha as <- <-. simpl. unfold len. simpl. lia.
Qed.

(** C7, as stated, fails: called without [depth_limit], [dfs] follows a
    branch of 101 moves on a puzzle of 5 tubes and 3 colours and returns
    it. *)
Lemma dfs_default_unbounded :
  exists r,
    dfs 200 example_game winding_state None = Ret r /\
    success r = true /\ depth r = 101 /\ max_frontier_size r = 102.
Proof.
  eexists. split; [vm_compute; reflexivity |].
  repeat split; vm_compute; reflexivity.
Qed.

(** * Breadth-first search returns a shortest solution *)

Section BfsShortest.

Context (g : WaterSortGame) (s0 : State).

(** Rule for the [for] loop of [bfs] that tracks the moves already handled. *)
Lemma bfs_for_moves_rule_prefix (P : list Move -> Bfs.vars -> Prop) (current : State) :
  (forall processed move v next_state k,
     P processed v -> apply_move g current move = Ret (next_state, k) ->
     next_state ∈ Bfs.visited v -> P (processed ++ [move]) v) ->
  (forall processed move v next_state k,
     P processed v -> apply_move g current move = Ret (next_state, k) ->
     next_state ∉ Bfs.visited v ->
     P (processed ++ [move]) (Bfs.discover current next_state move v)) ->
  forall (valid_moves processed : list Move) (v v' : Bfs.vars),
    P processed v -> Bfs.for_moves g current valid_moves v = Ret v' ->
    P (processed ++ valid_moves) v'.
Proof.
  intros Hold Hnew.
  induction valid_moves as [| move rest IH]; intros processed v v' HP; simpl.
  - intros [= <-]. by rewrite app_nil_r.
  - intros Hfor. inv_bind Hfor. destruct a as [next_state k].
    replace (processed ++ move :: rest) with ((processed ++ [move]) ++ rest)
      by (by rewrite <- app_assoc).
    destruct (decide (next_state ∈ Bfs.visited v)).
    + eapply IH; [| exact Hfor]. by eapply Hold.
    + eapply IH; [| exact Hfor]. by eapply Hnew.
Qed.

(** The invariant holds initially. *)
Lemma bfs_inv_init : bfs_inv g s0 (fun _ => 0%nat) (Bfs.init s0).
Proof.
  split; simpl.
  - split; [by apply elem_of_singleton | done].
  - intros x Hx. apply list_elem_of_singleton in Hx as ->. by apply elem_of_singleton.
  - intros x Hx Hnot. apply elem_of_singleton in Hx as ->.
    exfalso. apply Hnot. by apply list_elem_of_singleton.
  - repeat constructor.
  - intros; lia.
  - intros x Hx. apply elem_of_singleton in Hx as ->.
    apply chain_root; [by apply elem_of_singleton | apply lookup_singleton_eq].
Qed.

Lemma StronglySorted_change {A : Type} (R R' : A -> A -> Prop) (l : list A) :
  (forall a b, a ∈ l -> b ∈ l -> R a b -> R' a b) ->
  StronglySorted R l -> StronglySorted R' l.
Proof.
  intros Himp Hs. induction Hs as [| a l Hs IH Hall]; constructor.
  - apply IH. intros x y Hx Hy. apply Himp; by right.
  - rewrite Forall_forall in *. intros x Hx.
    apply Himp; [left | by right | by apply Hall].
Qed.

(** Popping the head of the frontier. *)
Lemma bfs_inv_pop (d : State -> nat) (v : Bfs.vars) (current : State)
    (rest : list State) :
  bfs_inv g s0 d v -> Bfs.frontier v = current :: rest ->
  bfs_for_inv g s0 current d [] (Bfs.popped rest v).
Proof.
  intros [Hstart Hfront Hclosed Hsorted Hnear Hchain] Hf.
  rewrite Hf in *. apply StronglySorted_inv in Hsorted as [Hsorted Hall].
  rewrite Forall_forall in Hall.
  split; simpl; try done.
  - intros x Hx. apply Hfront. by right.
  - apply Hfront. left.
  - intros x Hx Hnot Hne. apply Hclosed; [done |].
    intros [-> | ?]%elem_of_cons; done.
  - intros m y k Hm. by apply elem_of_nil in Hm.
  - intros x Hx. apply Hnear; [done | left].
Qed.

(** A move of [current] that leads to a state already visited. *)
Lemma bfs_for_inv_seen (d : State -> nat) (v : Bfs.vars) (current : State)
    (processed : list Move) (move : Move) (next_state : State) (k : Z) :
  bfs_for_inv g s0 current d processed v ->
  apply_move g current move = Ret (next_state, k) ->
  next_state ∈ Bfs.visited v ->
  bfs_for_inv g s0 current d (processed ++ [move]) v.
Proof.
  intros [Hstart Hfront Hcur Hclosed Hproc Hsorted Habove Hnear Hchain] Hm Hin.
  split; try done.
  intros m y k' [Hp | ->%list_elem_of_singleton]%elem_of_app Hy.
  - by eapply Hproc.
  - rewrite Hm in Hy. injection Hy as <- <-. split; [done | by apply Hnear].
Qed.

(** A move of [current] that discovers a new state: it gets the next level. *)
Lemma bfs_for_inv_discover (d : State -> nat) (v : Bfs.vars) (current : State)
    (processed : list Move) (move : Move) (next_state : State) (k : Z) :
  bfs_for_inv g s0 current d processed v ->
  apply_move g current move = Ret (next_state, k) ->
  next_state ∉ Bfs.visited v ->
  bfs_for_inv g s0 current
    (fun z => if decide (z = next_state) then S (d current) else d z)
    (processed ++ [move]) (Bfs.discover current next_state move v).
Proof.
  intros [Hstart Hfront Hcur Hclosed Hproc Hsorted Habove Hnear Hchain] Hm Hnot.
  set (d' := fun z => if decide (z = next_state) then S (d current) else d z).
  assert (Hold : forall x, x ∈ Bfs.visited v -> d' x = d x).
  { intros x Hx. unfold d'. rewrite decide_False; [done |]. by intros ->. }
  assert (Hnew : d' next_state = S (d current)).
  { unfold d'. by rewrite decide_True. }
  assert (Hsub : Bfs.visited v ⊆ {[next_state]} ∪ Bfs.visited v)
    by apply union_subseteq_r.
  assert (Hframe : forall y, y ∈ Bfs.visited v ->
            <[next_state := Some current]> (Bfs.parents v) !! y = Bfs.parents v !! y /\
            <[next_state := Some move]> (Bfs.moves_taken v) !! y
              = Bfs.moves_taken v !! y).
  { intros y Hy. assert (next_state <> y) by (by intros ->).
    by rewrite !lookup_insert_ne. }
  split; simpl.
  - destruct Hstart as [Hs Hd]. split; [by apply Hsub |]. by rewrite Hold.
  - intros x [Hx | ->%list_elem_of_singleton]%elem_of_app.
    + by apply Hsub, Hfront.
    + apply elem_of_union. left. by apply elem_of_singleton.
  - by apply Hsub.
  - intros x Hx Hnf Hne.
    assert (Hxn : x <> next_state).
    { intros ->. apply Hnf, elem_of_app. right. by apply list_elem_of_singleton. }
    apply elem_of_union in Hx as [Hx%elem_of_singleton | Hx]; [done |].
    destruct (Hclosed x Hx) as [Hgoal Hsucc]; [| done |].
    { intros ?. apply Hnf, elem_of_app. by left. }
    split; [done |]. intros y Hy. destruct (Hsucc y Hy) as [Hyv Hyd].
    split; [by apply Hsub |]. by rewrite !Hold.
  - intros m y k' [Hp | ->%list_elem_of_singleton]%elem_of_app Hy.
    + destruct (Hproc m y k' Hp Hy) as [Hyv Hyd].
      split; [by apply Hsub |]. by rewrite !Hold.
    + rewrite Hm in Hy. injection Hy as <- <-.
      split; [apply elem_of_union; left; by apply elem_of_singleton |].
      rewrite Hnew, Hold by done. lia.
  - apply StronglySorted_app. split; [| split].
    + intros a b Ha ->%list_elem_of_singleton.
      rewrite Hnew, Hold by (by apply Hfront).
      pose proof (Hnear a (Hfront a Ha)). lia.
    + eapply StronglySorted_change; [| exact Hsorted].
      intros a b Ha Hb Hab. by rewrite !Hold by (by apply Hfront).
    + repeat constructor.
  - intros y [Hy | ->%list_elem_of_singleton]%elem_of_app.
    + rewrite !Hold by (done || by apply Hfront). by apply Habove.
    + rewrite Hnew, Hold by done. lia.
  - intros x [->%elem_of_singleton | Hx]%elem_of_union.
    + rewrite Hnew, Hold by done. lia.
    + rewrite !Hold by done. by apply Hnear.
  - intros x [->%elem_of_singleton | Hx]%elem_of_union.
    + rewrite Hnew. eapply chain_step.
      * apply elem_of_union. left. by apply elem_of_singleton.
      * apply lookup_insert_eq.
      * apply lookup_insert_eq.
      * eapply chain_frame; [by apply Hchain | done | done].
    + rewrite Hold by done.
      eapply chain_frame; [by apply Hchain | done | done].
Qed.

(** Once every move of [current] is handled, the loop invariant holds
    again. *)
Lemma bfs_for_inv_finish (d : State -> nat) (v : Bfs.vars) (current : State) :
  is_goal_state g current = false ->
  bfs_for_inv g s0 current d (get_valid_moves g current) v ->
  bfs_inv g s0 d (Bfs.measured v).
Proof.
  intros Hgoal [Hstart Hfront Hcur Hclosed Hproc Hsorted Habove Hnear Hchain].
  split; simpl; try done.
  - intros x Hx Hnf. destruct (decide (x = current)) as [-> | Hne]; [| by apply Hclosed].
    split; [done |]. intros y (m & k & Hm).
    apply (Hproc m y k); [| done].
    apply get_valid_moves_legal, can_pour_legal.
    by apply apply_move_Ret_inv in Hm as [? _].
  - intros x y Hx Hy. pose proof (Hnear x Hx). pose proof (Habove y Hy). lia.
Qed.

(** The loop invariant is kept by the body of the [while] loop. *)
Lemma bfs_inv_body (v : Bfs.vars) (current : State) (rest : list State)
    (v' : Bfs.vars) :
  (exists d, bfs_inv g s0 d v) ->
  Bfs.frontier v = current :: rest ->
  is_goal_state g current = false ->
  Bfs.for_moves g current (get_valid_moves g current) (Bfs.popped rest v) = Ret v' ->
  exists d, bfs_inv g s0 d (Bfs.measured v').
Proof.
  intros [d Hinv] Hf Hgoal Hfor.
  apply (bfs_for_moves_rule_prefix
           (fun processed v => exists d, bfs_for_inv g s0 current d processed v)
           current) with (processed := []) in Hfor.
  - destruct Hfor as [d' Hfin]. exists d'.
    by apply (bfs_for_inv_finish d' _ current).
  - intros processed move v1 next_state k [d1 H1] Hm Hin.
    exists d1. by eapply bfs_for_inv_seen.
  - intros processed move v1 next_state k [d1 H1] Hm Hnot.
    eexists. by eapply bfs_for_inv_discover.
  - exists d. by apply bfs_inv_pop.
Qed.

(** Under the invariant, a state reached by [n] moves is visited at level at
    most [n], unless some state still in the frontier has a level below
    [n]. *)
Lemma bfs_inv_covers (d : State -> nat) (v : Bfs.vars) :
  bfs_inv g s0 d v ->
  forall (q : list Move) (y : State),
    run_moves g s0 q = Ret y ->
    (y ∈ Bfs.visited v /\ (d y <= length q)%nat) \/
    (exists z, z ∈ Bfs.frontier v /\ (d z < length q)%nat).
Proof.
  intros [Hstart Hfront Hclosed Hsorted Hnear Hchain].
  induction q as [| m q IH] using rev_ind; intros y Hrun.
  - simpl in Hrun. injection Hrun as <-. left. destruct Hstart as [? ->]. simpl.
    split; [done | lia].
  - apply run_moves_snoc_inv in Hrun as (p & k & Hp & Hm).
    rewrite length_app. simpl.
    destruct (IH p Hp) as [[Hpv Hpd] | (z & Hz & Hzd)].
    + destruct (decide (p ∈ Bfs.frontier v)) as [Hpf | Hpf].
      * right. exists p. split; [done | lia].
      * left. destruct (Hclosed p Hpv Hpf) as [_ Hsucc].
        destruct (Hsucc y) as [Hyv Hyd]; [by exists m, k |].
        split; [done | lia].
    + right. exists z. split; [done | lia].
Qed.

(** The head of the frontier has the least level. *)
Lemma bfs_inv_head (d : State -> nat) (v : Bfs.vars) (current : State)
    (rest : list State) (z : State) :
  bfs_inv g s0 d v -> Bfs.frontier v = current :: rest ->
  z ∈ Bfs.frontier v -> (d current <= d z)%nat.
Proof.
  intros [_ _ _ Hsorted _ _] Hf Hz. rewrite Hf in *.
  apply StronglySorted_inv in Hsorted as [_ Hall].
  rewrite Forall_forall in Hall.
  apply elem_of_cons in Hz as [-> | Hz]; [lia | by apply Hall].
Qed.

Lemma bfs_while_shortest (fuel : nat) (r : SearchResult) (v' : Bfs.vars) :
  Bfs.while_frontier fuel g (Bfs.init s0) = Ret (r, v') ->
  success r = true ->
  forall (q : list Move) (goal : State),
    run_moves g s0 q = Ret goal -> is_goal_state g goal = true ->
    (length (moves r) <= length q)%nat.
Proof.
  intros Hret Hsucc q goal Hrun Hgoal.
  apply (bfs_while_rule g (fun v => exists d, bfs_inv g s0 d v)) in Hret
    as (v1 & [d Hinv] & Hexit).
  - destruct Hexit as [(_ & _ & ->) | (current & rest & fuel' & path & Hf & _ & Hcg & Hrec & ->)];
      [done |].
    simpl.
    assert (Hlen : length path = d current).
    { unfold _reconstruct_moves in Hrec. inv_bind Hrec. injection Hrec as <-.
      rewrite length_reverse.
      assert (Hcv : current ∈ Bfs.visited v1).
      { apply (bi_frontier _ _ _ _ Hinv). rewrite Hf. left. }
      apply (reconstruct_loop_chain _ _ _ _ _ (bi_chain _ _ _ _ Hinv _ Hcv)) in Ha.
      simpl in Ha. lia. }
    rewrite Hlen.
    destruct (bfs_inv_covers d v1 Hinv q goal Hrun) as [[Hgv Hgd] | (z & Hz & Hzd)].
    + destruct (decide (goal ∈ Bfs.frontier v1)) as [Hgf | Hgf].
      * pose proof (bfs_inv_head d v1 current rest goal Hinv Hf Hgf). lia.
      * destruct (bi_closed _ _ _ _ Hinv goal Hgv Hgf) as [Hng _]. congruence.
    + pose proof (bfs_inv_head d v1 current rest z Hinv Hf Hz). lia.
  - intros v current rest v1 Hinv Hf Hng Hfor. by eapply bfs_inv_body.
  - eexists. apply bfs_inv_init.
Qed.

Lemma bfs_shortest (fuel : nat) (r : SearchResult) :
  bfs fuel g s0 = Ret r ->
  success r = true ->
  forall (q : list Move) (goal : State),
    run_moves g s0 q = Ret goal -> is_goal_state g goal = true ->
    len (moves r) <= len q.
Proof.
  unfold bfs, bfs_run. intros Hret Hsucc q goal Hrun Hgoal.
  inv_bind Hret. destruct a as [r' ov]. injection Hret as ->.
  destruct (is_goal_state g s0).
  - injection Ha as <- <-. simpl. unfold len. simpl. lia.
  - inv_bind Ha. destruct a as [r' v]. injection Ha as -> <-.
    pose proof (bfs_while_shortest _ _ _ Ha0 Hsucc q goal Hrun Hgoal).
    unfold len. lia.
Qed.

End BfsShortest.

(** C2. When [bfs] and another search both succeed on the same initial
    state, [bfs] returns no more moves than [dfs], [a_star] or [ida_star];
    indeed no sequence of legal pours from the initial state to a goal state
    is shorter than the one [bfs] returns. *)
Theorem bfs_returns_shortest (g : WaterSortGame) (s0 : State)
    (fuel fuel' : nat) (r r' : SearchResult) :
  bfs fuel g s0 = Ret r ->
  success r = true ->
  (exists depth_limit, dfs fuel' g s0 depth_limit = Ret r') \/
  (exists heuristic, a_star fuel' g s0 heuristic = Ret r') \/
  (exists heuristic max_depth, ida_star fuel' g s0 heuristic max_depth = Ret r') ->
  success r' = true ->
  len (moves r) <= len (moves r') /\
  depth r <= depth r' /\
  (forall (q : list Move) (goal : State),
     run_moves g s0 q = Ret goal -> is_goal_state g goal = true ->
     len (moves r) <= len q).
Proof.
  intros Hb Hs Hother Hs'.
  assert (Hsolves : solves g s0 r').
  { destruct Hother as [[lim Hd] | [[h Hh] | (h & md & Hi)]].
    - unfold dfs in Hd. inv_bind Hd. destruct a as [r1 v]. injection Hd as ->.
      by eapply dfs_edges_ok.
    - unfold a_star in Hh. inv_bind Hh. destruct a as [r1 v]. injection Hh as ->.
      by eapply astar_edges_ok.
    - unfold ida_star in Hi. inv_bind Hi. destruct a as [r1 v]. injection Hi as ->.
      unfold ida_star_run in Ha.
      by eapply (ida_iterate_path g h md s0 fuel' _ (IdaStar.init s0)). }
  destruct Hsolves as (goal' & Hrun' & Hgoal' & Hdepth').
  pose proof (bfs_shortest g s0 fuel r Hb Hs) as Hshort.
  assert (Hself : solves g s0 r).
  { apply (successful_result_solves_any g s0 fuel r); [by left | done]. }
  destruct Hself as (_ & _ & _ & Hdepth).
  split; [by eapply Hshort |]. split; [| done].
  rewrite Hdepth, Hdepth'. by eapply Hshort.
Qed.

(** * The search engine never applies a rejected move *)

Section NoValueError.

Context (g : WaterSortGame).

Lemma nve_bind {A B : Type} (c : outcome A) (k : A -> outcome B) :
  no_value_error c ->
  (forall a, c = Ret a -> no_value_error (k a)) ->
  no_value_error (c ≫= k).
Proof.
  intros Hc Hk. destruct c as [a | e |]; simpl.
  - by apply Hk.
  - intros msg [= ->]. by apply (Hc msg).
  - by intros msg.
Qed.

Lemma nve_Ret {A : Type} (a : A) : no_value_error (Ret a).
Proof. by intros msg. Qed.

(** On a valid state an enumerated move is applied and gives a valid state. *)
Lemma apply_enumerated (s : State) (m : Move) :
  is_valid_state g s = true ->
  m ∈ get_valid_moves g s ->
  exists s' k, apply_move g s m = Ret (s', k) /\ is_valid_state g s' = true.
Proof.
  intros Hv Hm. apply get_valid_moves_legal in Hm.
  apply (legal_can_pour g s m Hv) in Hm.
  destruct (apply_move_cases g s m) as [(msg & _ & Hn) | (_ & s' & n & Hr & _)];
    [done |].
  exists s', (Z.of_nat n). split; [done |].
  by apply (pour_preserves g s m s' (Z.of_nat n) Hr).
Qed.

Lemma reconstruct_loop_nve (parents : gmap State (option State))
    (moves_taken : gmap State (option Move)) (fuel : nat) :
  forall current acc,
    no_value_error (reconstruct_loop fuel parents moves_taken current acc).
Proof.
  induction fuel as [| fuel IH]; intros current acc; simpl; [by intros msg |].
  destruct (moves_taken !! current) as [[m |] |]; [| by intros msg | by intros msg].
  destruct (parents !! current) as [[p |] |]; [apply IH | by intros msg | by intros msg].
Qed.

Lemma reconstruct_moves_nve (fuel : nat) (goal : State)
    (parents : gmap State (option State)) (moves_taken : gmap State (option Move)) :
  no_value_error (_reconstruct_moves fuel goal parents moves_taken).
Proof.
  unfold _reconstruct_moves. apply nve_bind; [apply reconstruct_loop_nve |].
  intros a _. apply nve_Ret.
Qed.

(** ** Breadth-first *)

Lemma bfs_for_moves_valid (current : State) :
  is_valid_state g current = true ->
  forall valid_moves : list Move,
    (forall m, m ∈ valid_moves -> m ∈ get_valid_moves g current) ->
    forall v : Bfs.vars,
      Forall (fun st => is_valid_state g st = true) (Bfs.frontier v) ->
      exists v',
        Bfs.for_moves g current valid_moves v = Ret v' /\
        Forall (fun st => is_valid_state g st = true) (Bfs.frontier v').
Proof.
  intros Hcur. induction valid_moves as [| move rest IH]; intros Hsub v Hall; simpl.
  - by exists v.
  - destruct (apply_enumerated current move Hcur) as (next & k & -> & Hnext);
      [apply Hsub; left |].
    simpl. assert (Hrest : forall m, m ∈ rest -> m ∈ get_valid_moves g current)
      by (intros m Hm; apply Hsub; by right).
    destruct (decide (next ∈ Bfs.visited v)); [by apply IH |].
    apply IH; [done |]. simpl. apply Forall_app. split; [done |].
    by constructor.
Qed.

Lemma bfs_while_nve (fuel : nat) :
  forall v : Bfs.vars,
    Forall (fun st => is_valid_state g st = true) (Bfs.frontier v) ->
    no_value_error (Bfs.while_frontier fuel g v).
Proof.
  induction fuel as [| fuel IH]; intros v Hall; simpl; [by intros msg |].
  destruct (Bfs.frontier v) as [| current rest] eqn:Hf; [apply nve_Ret |].
  apply Forall_cons in Hall as [Hcur Hrest].
  destruct (is_goal_state g current).
  - apply nve_bind; [apply reconstruct_moves_nve |]. intros a _. apply nve_Ret.
  - destruct (bfs_for_moves_valid current Hcur (get_valid_moves g current)
                (fun m H => H) (Bfs.popped rest v) Hrest) as (v' & -> & Hall').
    simpl. by apply IH.
Qed.

(** ** Depth-first *)

Lemma dfs_for_moves_nve (rec : State -> Z -> Dfs.vars -> outcome (bool * Dfs.vars))
    (state : State) (depth : Z) :
  is_valid_state g state = true ->
  (forall st d v, is_valid_state g st = true -> no_value_error (rec st d v)) ->
  forall valid_moves : list Move,
    (forall m, m ∈ valid_moves -> m ∈ get_valid_moves g state) ->
    forall v : Dfs.vars,
      no_value_error (Dfs.for_moves g rec state depth valid_moves v).
Proof.
  intros Hst Hrec. induction valid_moves as [| move rest IH]; intros Hsub v; simpl.
  - apply nve_Ret.
  - destruct (apply_enumerated state move Hst) as (next & k & -> & Hnext);
      [apply Hsub; left |].
    simpl. assert (Hrest : forall m, m ∈ rest -> m ∈ get_valid_moves g state)
      by (intros m Hm; apply Hsub; by right).
    destruct (decide (next ∈ Dfs.visited v)); [by apply IH |].
    apply nve_bind; [by apply Hrec |].
    intros [found v1] _. destruct found; [apply nve_Ret | by apply IH].
Qed.

Lemma dfs_search_nve (depth_limit : option Z) (fuel : nat) :
  forall (state : State) (depth : Z) (v : Dfs.vars),
    is_valid_state g state = true ->
    no_value_error (Dfs.search fuel g depth_limit state depth v).
Proof.
  induction fuel as [| fuel IH]; intros state depth v Hst; simpl; [by intros msg |].
  destruct (is_goal_state g state); [apply nve_Ret |].
  destruct (match depth_limit with Some limit => depth >=? limit | None => false end);
    [apply nve_Ret |].
  apply dfs_for_moves_nve; [done | | done].
  intros st d v1 Hv. by apply IH.
Qed.

(** ** A* *)

Lemma extract_min_elem (rest : list (Z * Z * State)) :
  forall e m others,
    AStar.extract_min e rest = (m, others) ->
    m ∈ e :: rest /\ forall x, x ∈ others -> x ∈ e :: rest.
Proof.
  induction rest as [| e' rest IH]; intros e m others; simpl.
  - intros [= <- <-]. split; [left | by intros x ?%elem_of_nil].
  - destruct (AStar.extract_min e' rest) as [m' others'] eqn:Hex.
    destruct (IH e' m' others' Hex) as [Hm Ho].
    destruct (AStar.entry_lt m' e).
    + intros [= <- <-]. split; [by right |].
      intros x [-> | Hx]%elem_of_cons; [left | right; by apply Ho].
    + intros [= <- <-]. split; [left | intros x Hx; by right].
Qed.

Lemma astar_for_moves_valid (heuristic : State -> Z) (current : State) (current_g : Z) :
  is_valid_state g current = true ->
  forall valid_moves : list Move,
    (forall m, m ∈ valid_moves -> m ∈ get_valid_moves g current) ->
    forall v : AStar.vars,
      Forall (fun e : Z * Z * State => is_valid_state g e.2 = true) (AStar.open_heap v) ->
      exists v',
        AStar.for_moves g heuristic current current_g valid_moves v = Ret v' /\
        Forall (fun e : Z * Z * State => is_valid_state g e.2 = true) (AStar.open_heap v').
Proof.
  intros Hcur. induction valid_moves as [| move rest IH]; intros Hsub v Hall; simpl.
  - by exists v.
  - destruct (apply_enumerated current move Hcur) as (next & k & -> & Hnext);
      [apply Hsub; left |].
    simpl. assert (Hrest : forall m, m ∈ rest -> m ∈ get_valid_moves g current)
      by (intros m Hm; apply Hsub; by right).
    destruct (match AStar.g_cost v !! next with
              | Some known => current_g + 1 >=? known
              | None => false
              end); [by apply IH |].
    apply IH; [done |]. simpl. unfold AStar.heappush. apply Forall_app.
    split; [done |]. by constructor.
Qed.

Lemma astar_while_nve (heuristic : State -> Z) (fuel : nat) :
  forall v : AStar.vars,
    Forall (fun e : Z * Z * State => is_valid_state g e.2 = true) (AStar.open_heap v) ->
    no_value_error (AStar.while_open fuel g heuristic v).
Proof.
  induction fuel as [| fuel IH]; intros v Hall; simpl; [by intros msg |].
  destruct (AStar.open_heap v) as [| e rest] eqn:Hheap; simpl; [apply nve_Ret |].
  destruct (AStar.extract_min e rest) as [[[f_score counter] current] heap'] eqn:Hex.
  destruct (extract_min_elem rest e _ _ Hex) as [Hm Ho].
  rewrite Forall_forall in Hall.
  assert (Hcur : is_valid_state g current = true) by (apply (Hall _ Hm)).
  assert (Hheap' : Forall (fun e : Z * Z * State => is_valid_state g e.2 = true) heap').
  { apply Forall_forall. intros x Hx. by apply Hall, Ho. }
  destruct (decide (current ∈ AStar.visited v)); [by apply IH |].
  destruct (is_goal_state g current).
  - apply nve_bind; [apply reconstruct_moves_nve |]. intros a _. apply nve_Ret.
  - destruct (AStar.g_cost v !! current) as [current_g |]; [| by intros msg].
    destruct (astar_for_moves_valid heuristic current current_g Hcur
                (get_valid_moves g current) (fun m H => H)
                (AStar.expand (AStar.finalize current (AStar.popped heap' v))) Hheap')
      as (v' & Heq & Hall').
    simpl in Heq. rewrite Heq. simpl. by apply IH.
Qed.

(** ** IDA* *)

Lemma ida_for_moves_nve
    (rec : State -> Z -> IdaStar.vars -> outcome (bool * IdaStar.bound * IdaStar.vars))
    (state : State) (g_ : Z) :
  is_valid_state g state = true ->
  (forall st d v, is_valid_state g st = true -> no_value_error (rec st d v)) ->
  forall valid_moves : list Move,
    (forall m, m ∈ valid_moves -> m ∈ get_valid_moves g state) ->
    forall (min_threshold : IdaStar.bound) (v : IdaStar.vars),
      no_value_error (IdaStar.for_moves g rec state g_ valid_moves min_threshold v).
Proof.
  intros Hst Hrec. induction valid_moves as [| move rest IH]; intros Hsub mt v; simpl.
  - apply nve_Ret.
  - destruct (apply_enumerated state move Hst) as (next & k & -> & Hnext);
      [apply Hsub; left |].
    simpl. assert (Hrest : forall m, m ∈ rest -> m ∈ get_valid_moves g state)
      by (intros m Hm; apply Hsub; by right).
    destruct (decide (next ∈ IdaStar.visited v)); [by apply IH |].
    apply nve_bind; [by apply Hrec |].
    intros [[found temp] v1] _. destruct found; [apply nve_Ret | by apply IH].
Qed.

Lemma ida_search_nve (heuristic : State -> Z) (max_depth threshold : Z) (fuel : nat) :
  forall (state : State) (g_ : Z) (v : IdaStar.vars),
    is_valid_state g state = true ->
    no_value_error (IdaStar.search fuel g heuristic max_depth threshold state g_ v).
Proof.
  induction fuel as [| fuel IH]; intros state g_ v Hst; simpl; [by intros msg |].
  destruct (g_ + heuristic state >? threshold); [apply nve_Ret |].
  destruct (is_goal_state g state); [apply nve_Ret |].
  destruct (g_ >=? max_depth); [apply nve_Ret |].
  apply ida_for_moves_nve; [done | | done].
  intros st d v1 Hv. by apply IH.
Qed.

Lemma ida_iterate_nve (heuristic : State -> Z) (max_depth : Z) (s0 : State)
    (fuel : nat) :
  is_valid_state g s0 = true ->
  forall (threshold : Z) (v : IdaStar.vars),
    no_value_error (IdaStar.iterate fuel g heuristic max_depth s0 threshold v).
Proof.
  intros Hv. induction fuel as [| fuel IH]; intros threshold v; simpl;
    [by intros msg |].
  apply nve_bind; [by apply ida_search_nve |].
  intros [[found temp] v1] _. destruct found; [apply nve_Ret |].
  destruct temp; [apply IH | apply nve_Ret].
Qed.

(** No search raises the [ValueError] of [apply_move] on a valid initial
    state. *)
Lemma searches_no_value_error (s0 : State) (fuel : nat) :
  is_valid_state g s0 = true ->
  no_value_error (bfs fuel g s0) /\
  (forall depth_limit, no_value_error (dfs fuel g s0 depth_limit)) /\
  (forall heuristic, no_value_error (a_star fuel g s0 heuristic)) /\
  (forall heuristic max_depth,
     no_value_error (ida_star fuel g s0 heuristic max_depth)).
Proof.
  intros Hv. split; [| split; [| split]].
  - unfold bfs, bfs_run. apply nve_bind.
    + destruct (is_goal_state g s0); [apply nve_Ret |].
      apply nve_bind.
      * apply bfs_while_nve. simpl. by constructor.
      * intros [r v] _. apply nve_Ret.
    + intros [r ov] _. apply nve_Ret.
  - intros lim. unfold dfs, dfs_run. apply nve_bind.
    + apply nve_bind; [by apply dfs_search_nve |].
      intros [found v] _. destruct found; [| apply nve_Ret].
      destruct (Dfs.success_state v); [| apply nve_Ret].
      apply nve_bind; [apply reconstruct_moves_nve |]. intros a _. apply nve_Ret.
    + intros [r v] _. apply nve_Ret.
  - intros h. unfold a_star, a_star_run. apply nve_bind.
    + apply astar_while_nve. simpl. unfold AStar.heappush. simpl. by constructor.
    + intros [r v] _. apply nve_Ret.
  - intros h md. unfold ida_star, ida_star_run. apply nve_bind.
    + by apply ida_iterate_nve.
    + intros [r v] _. apply nve_Ret.
Qed.

End NoValueError.

(** C1. Every move enumerated by [get_valid_moves] on a valid state is
    accepted by [apply_move]: it returns a state and raises nothing.  Hence
    no search started on a valid state ever ends in the [ValueError] of
    [apply_move]. *)
Theorem enumerated_moves_apply (g : WaterSortGame) (s : State) :
  is_valid_state g s = true ->
  (forall m, m ∈ get_valid_moves g s ->
             exists s' k, apply_move g s m = Ret (s', k)) /\
  (forall fuel,
     no_value_error (bfs fuel g s) /\
     (forall depth_limit, no_value_error (dfs fuel g s depth_limit)) /\
     (forall heuristic, no_value_error (a_star fuel g s heuristic)) /\
     (forall heuristic max_depth,
        no_value_error (ida_star fuel g s heuristic max_depth))).
Proof.
  intros Hv. split.
  - intros m Hm. destruct (apply_enumerated g s m Hv Hm) as (s' & k & Heq & _).
    by exists s', k.
  - intros fuel. by apply searches_no_value_error.
Qed.

(** * The theorems at work on the small puzzle *)

Lemma enumerated_moves_apply_witness :
  is_valid_state example_game example_state = true /\
  mkMove 0 1 ∈ get_valid_moves example_game example_state /\
  exists s' k, apply_move example_game example_state (mkMove 0 1) = Ret (s', k).
Proof.
  assert (Hv : is_valid_state example_game example_state = true) by reflexivity.
  assert (Hm : mkMove 0 1 ∈ get_valid_moves example_game example_state)
    by (vm_compute; left).
  split; [exact Hv |]. split; [exact Hm |].
  exact (proj1 (enumerated_moves_apply example_game example_state Hv) (mkMove 0 1) Hm).
Defined.

Lemma pour_conservation_witness :
  is_valid_state example_game example_state = true /\
  (forall c, color_units c example_solved = color_units c example_state) /\
  is_valid_state example_game example_solved = true.
Proof.
  assert (Hv : is_valid_state example_game example_state = true) by reflexivity.
  split; [exact Hv |].
  destruct (pour_conservation example_game example_state Hv) as [Hstep _].
  destruct (Hstep (mkMove 0 1) example_solved 3) as (Hu & Hv' & _);
    [vm_compute; reflexivity |].
  split; [exact Hu | exact Hv'].
Defined.

Lemma apply_move_contract_witness :
  is_valid_state example_game example_state = true /\
  ((exists e, apply_move example_game example_state (mkMove 0 1) = Raise e)
   <-> legality_violation example_game example_state (mkMove 0 1)) /\
  (legality_violation example_game example_state (mkMove 0 1) ->
   exists msg, apply_move example_game example_state (mkMove 0 1)
               = Raise (ValueError msg)) /\
  (~ legality_violation example_game example_state (mkMove 0 1) ->
   exists s' n,
     apply_move example_game example_state (mkMove 0 1) = Ret (s', Z.of_nat n) /\
     (1 <= n)%nat /\ pours example_game example_state (mkMove 0 1) s' n).
Proof.
  assert (Hv : is_valid_state example_game example_state = true) by reflexivity.
  split; [exact Hv |].
  exact (apply_move_contract example_game example_state (mkMove 0 1) Hv).
Defined.

Lemma get_valid_moves_contract_witness :
  is_valid_state example_game example_state = true /\
  (forall m, m ∈ get_valid_moves example_game example_state
             <-> legal_move example_game example_state m) /\
  StronglySorted move_lt (get_valid_moves example_game example_state).
Proof.
  assert (Hv : is_valid_state example_game example_state = true) by reflexivity.
  split; [exact Hv |].
  exact (get_valid_moves_contract example_game example_state Hv).
Defined.

Lemma heuristics_nonneg_pure_witness :
  is_valid_state example_game example_state = true /\
  0 <= entropy_heuristic example_game example_state /\
  0 <= completion_heuristic example_game example_state /\
  0 <= blocking_heuristic example_game example_state.
Proof.
  assert (Hv : is_valid_state example_game example_state = true) by reflexivity.
  split; [exact Hv |].
  exact (proj1 (heuristics_nonneg_pure example_game example_state Hv)).
Defined.

Lemma heuristics_zero_on_goal_witness :
  is_valid_state example_game example_solved = true /\
  is_goal_state example_game example_solved = true /\
  completion_heuristic example_game example_solved = 0 /\
  blocking_heuristic example_game example_solved = 0 /\
  ((forall c, Z.of_nat (color_units c example_solved) <= capacity example_game) ->
   entropy_heuristic example_game example_solved = 0).
Proof.
  assert (Hv : is_valid_state example_game example_solved = true) by reflexivity.
  assert (Hg : is_goal_state example_game example_solved = true) by reflexivity.
  split; [exact Hv |]. split; [exact Hg |].
  exact (heuristics_zero_on_goal example_game example_solved Hv Hg).
Defined.

Lemma successful_result_solves_witness :
  is_valid_state example_game example_state = true /\
  bfs 10 example_game example_state = Ret example_bfs_result /\
  solves example_game example_state example_bfs_result.
Proof.
  assert (Hv : is_valid_state example_game example_state = true) by reflexivity.
  assert (Hb : bfs 10 example_game example_state = Ret example_bfs_result)
    by (vm_compute; reflexivity).
  split; [exact Hv |]. split; [exact Hb |].
  exact (successful_result_solves example_game example_state 10 example_bfs_result
           Hv (or_introl Hb) eq_refl).
Defined.

Lemma bfs_returns_shortest_witness :
  bfs 10 example_game example_state = Ret example_bfs_result /\
  dfs 10 example_game example_state None = Ret example_dfs_result /\
  len (moves example_bfs_result) <= len (moves example_dfs_result) /\
  depth example_bfs_result <= depth example_dfs_result /\
  (forall (q : list Move) (goal : State),
     run_moves example_game example_state q = Ret goal ->
     is_goal_state example_game goal = true ->
     len (moves example_bfs_result) <= len q).
Proof.
  assert (Hb : bfs 10 example_game example_state = Ret example_bfs_result)
    by (vm_compute; reflexivity).
  assert (Hd : dfs 10 example_game example_state None = Ret example_dfs_result)
    by (vm_compute; reflexivity).
  split; [exact Hb |]. split; [exact Hd |].
  exact (bfs_returns_shortest example_game example_state 10 10
           example_bfs_result example_dfs_result
           Hb eq_refl (or_introl (ex_intro _ None Hd)) eq_refl).
Defined.

Lemma dfs_depth_limit_witness :
  dfs 10 example_game example_state (Some 100) = Ret example_dfs_result /\
  depth example_dfs_result <= Z.max 0 100 /\
  len (moves example_dfs_result) <= Z.max 0 100 /\
  max_frontier_size example_dfs_result <= Z.max 1 (100 + 1).
Proof.
  assert (Hd : dfs 10 example_game example_state (Some 100) = Ret example_dfs_result)
    by (vm_compute; reflexivity).
  split; [exact Hd |].
  exact (dfs_depth_limit example_game example_state 10 100 example_dfs_result Hd).
Defined.

(** The two pouring scenarios of the specification. *)
Example pour_single_unit :
  apply_move example_game [["R"; "R"; "R"; "G"]; []] (mkMove 0 1)
  = Ret ([["R"; "R"; "R"]; ["G"]], 1).
Proof. reflexivity. Qed.

Example pour_run_until_full :
  apply_move example_game [["R"; "G"; "G"]; ["G"; "G"]] (mkMove 0 1)
  = Ret ([["R"]; ["G"; "G"; "G"; "G"]], 2).
Proof. reflexivity. Qed.

(** Relocating a pure tube into an empty one is enumerated. *)
Example pure_tube_relocation_enumerated :
  mkMove 2 4 ∈ get_valid_moves example_game example_state.
Proof. vm_compute. do 4 right. left. Qed.

(** The small puzzle is built by a game the constructor accepts. *)
Example example_game_accepted : valid_configuration example_game = true.
Proof. reflexivity. Qed.

(** * Further properties of the search engine *)

(** X1. A failing [bfs] has exhausted the states reachable from the initial
    state, none of which is a goal. *)
Theorem bfs_failure_no_solution (g : WaterSortGame) (s0 : State) (fuel : nat)
    (r : SearchResult) :
  bfs fuel g s0 = Ret r ->
  success r = false ->
  forall (q : list Move) (y : State),
    run_moves g s0 q = Ret y -> is_goal_state g y = false.
Proof.
  unfold bfs, bfs_run. intros Hret Hfail q y Hrun.
  inv_bind Hret. destruct a as [r' ov]. injection Hret as ->.
  destruct (is_goal_state g s0); [by injection Ha as <- <- |].
  inv_bind Ha. destruct a as [r' v]. injection Ha as -> <-.
  apply (bfs_while_rule g (fun v => exists d, bfs_inv g s0 d v)) in Ha0
    as (v1 & [d Hinv] & Hexit).
  - destruct Hexit as [(Hf & _ & _) | (current & rest & fuel' & path & _ & _ & _ & _ & ->)];
      [| done].
    destruct (bfs_inv_covers g s0 d v1 Hinv q y Hrun) as [[Hyv _] | (z & Hz & _)].
    + assert (Hnf : y ∉ Bfs.frontier v1) by (rewrite Hf; apply not_elem_of_nil).
      by destruct (bi_closed _ _ _ _ Hinv y Hyv Hnf).
    + rewrite Hf in Hz. by apply elem_of_nil in Hz.
  - intros v0 current rest v1 Hinv Hf Hng Hfor. by eapply bfs_inv_body.
  - eexists. apply bfs_inv_init.
Qed.

Lemma bfs_failure_no_solution_witness :
  bfs 5 example_game stuck_state = Ret stuck_bfs_result /\
  forall (q : list Move) (y : State),
    run_moves example_game stuck_state q = Ret y ->
    is_goal_state example_game y = false.
Proof.
  assert (Hb : bfs 5 example_game stuck_state = Ret stuck_bfs_result)
    by (vm_compute; reflexivity).
  split; [exact Hb |].
  exact (bfs_failure_no_solution example_game stuck_state 5 stuck_bfs_result
           Hb eq_refl).
Defined.

(** ** A*: the counters *)

Lemma astar_for_moves_counters (g : WaterSortGame) (heuristic : State -> Z)
    (current : State) (current_g : Z) (valid_moves : list Move)
    (v v' : AStar.vars) :
  AStar.for_moves g heuristic current current_g valid_moves v = Ret v' ->
  AStar.visited v' = AStar.visited v /\ AStar.expanded v' = AStar.expanded v.
Proof.
  intros Hfor.
  by apply (astar_for_moves_rule g heuristic
              (fun w => AStar.visited w = AStar.visited v /\
                        AStar.expanded w = AStar.expanded v)
              (fun _ _ _ _ _ w H _ => H) current current_g valid_moves v v').
Qed.

Lemma astar_while_counters (g : WaterSortGame) (heuristic : State -> Z) (fuel : nat) :
  forall (v : AStar.vars) (r : SearchResult) (v' : AStar.vars),
    Z.of_nat (size (AStar.visited v)) = AStar.expanded v ->
    AStar.while_open fuel g heuristic v = Ret (r, v') ->
    explored_nodes r = expanded_nodes r + (if success r then 1 else 0).
Proof.
  induction fuel as [| fuel IH]; intros v r v' Hinv; simpl; [done |].
  destruct (AStar.heappop (AStar.open_heap v)) as [[[[f_score counter] current] heap'] |].
  2: { intros [= <- <-]. simpl. lia. }
  destruct (decide (current ∈ AStar.visited v)) as [Hin | Hnot]; [by apply IH |].
  assert (Hsize : Z.of_nat (size ({[current]} ∪ AStar.visited v))
                  = AStar.expanded v + 1).
  { rewrite size_union by (by apply disjoint_singleton_l).
    rewrite size_singleton. lia. }
  destruct (is_goal_state g current).
  - intros Hret. inv_bind Hret. injection Hret as <- <-. simpl. lia.
  - destruct (AStar.g_cost v !! current) as [current_g |]; [| done].
    intros Hret. inv_bind Hret.
    apply astar_for_moves_counters in Ha as [Hv He].
    eapply IH; [| exact Hret]. simpl in *. rewrite Hv, He. exact Hsize.
Qed.

(** X2. [a_star] counts a state as explored when it finalizes it and as
    expanded when it generates its successors; the goal it returns is
    finalized without being expanded.  So a successful result has
    [explored_nodes = expanded_nodes + 1] and a failing one has both
    equal. *)
Theorem a_star_explored_expanded (g : WaterSortGame) (s0 : State)
    (heuristic : State -> Z) (fuel : nat) (r : SearchResult) :
  a_star fuel g s0 heuristic = Ret r ->
  explored_nodes r = expanded_nodes r + (if success r then 1 else 0).
Proof.
  unfold a_star, a_star_run. intros Hret. inv_bind Hret. destruct a as [r' v].
  injection Hret as ->.
  eapply astar_while_counters; [| exact Ha].
  change (Z.of_nat (size (∅ : gset State)) = 0). by rewrite size_empty.
Qed.

Lemma a_star_explored_expanded_witness :
  a_star 10 example_game example_state (completion_heuristic example_game)
    = Ret (mkResult true [mkMove 0 1] 2 1 6 1) /\
  2 = 1 + 1.
Proof.
  assert (Ha : a_star 10 example_game example_state (completion_heuristic example_game)
               = Ret (mkResult true [mkMove 0 1] 2 1 6 1))
    by (vm_compute; reflexivity).
  split; [exact Ha |].
  exact (a_star_explored_expanded example_game example_state
           (completion_heuristic example_game) 10 _ Ha).
Defined.

(** ** IDA*: the depth bound and the growth of the threshold *)

Section IdaBounds.

Context (g : WaterSortGame) (heuristic : State -> Z) (max_depth threshold : Z).

Lemma ida_for_moves_depth
    (rec : State -> Z -> IdaStar.vars -> outcome (bool * IdaStar.bound * IdaStar.vars))
    (state : State) (g_ : Z) :
  g_ < max_depth ->
  (forall st v r,
     len (IdaStar.path v) = g_ + 1 -> rec st (g_ + 1) v = Ret r ->
     ida_depth_post max_depth (g_ + 1) v r) ->
  forall (valid_moves : list Move) (min_threshold : IdaStar.bound)
         (v : IdaStar.vars) (r : bool * IdaStar.bound * IdaStar.vars),
    len (IdaStar.path v) = g_ ->
    IdaStar.for_moves g rec state g_ valid_moves min_threshold v = Ret r ->
    ida_depth_post max_depth g_ v r.
Proof.
  intros Hlt Hrec. unfold ida_depth_post in *.
  induction valid_moves as [| move rest IH]; intros mt v r Hlen; simpl.
  - by intros [= <-].
  - intros Hfor. inv_bind Hfor. destruct a as [next_state k].
    destruct (decide (next_state ∈ IdaStar.visited v)); [by eapply IH |].
    inv_bind Hfor. destruct a as [[found temp] v1].
    assert (Hlen1 : len (IdaStar.path (IdaStar.descend next_state move v)) = g_ + 1).
    { simpl. rewrite len_app. unfold len at 2. simpl. lia. }
    specialize (Hrec _ _ _ Hlen1 Ha0). simpl in Hrec.
    destruct found.
    + injection Hfor as <-. simpl. right. lia.
    + assert (Hp : IdaStar.path (IdaStar.unwind next_state v1) = IdaStar.path v).
      { simpl. by rewrite Hrec, removelast_last. }
      specialize (IH (IdaStar.bound_min mt temp) (IdaStar.unwind next_state v1) r).
      rewrite Hp in IH. by apply IH.
Qed.

Lemma ida_search_depth (fuel : nat) :
  forall (state : State) (g_ : Z) (v : IdaStar.vars)
         (r : bool * IdaStar.bound * IdaStar.vars),
    len (IdaStar.path v) = g_ ->
    IdaStar.search fuel g heuristic max_depth threshold state g_ v = Ret r ->
    ida_depth_post max_depth g_ v r.
Proof.
  induction fuel as [| fuel IH]; intros state g_ v r Hlen; simpl; [done |].
  destruct (g_ + heuristic state >? threshold); [by intros [= <-] |].
  destruct (is_goal_state g state).
  { intros [= <-]. by left. }
  destruct (g_ >=? max_depth) eqn:Hmax; [by intros [= <-] |].
  rewrite Z.geb_leb in Hmax. apply Z.leb_gt in Hmax. intros Hfor.
  exact (ida_for_moves_depth _ state g_ Hmax (fun st v1 r1 => IH st (g_ + 1) v1 r1)
           _ _ (IdaStar.expand v) _ Hlen Hfor).
Qed.

Lemma ida_for_moves_threshold
    (rec : State -> Z -> IdaStar.vars -> outcome (bool * IdaStar.bound * IdaStar.vars))
    (state : State) (g_ : Z) :
  (forall st d v b v', rec st d v = Ret (false, b, v') -> ida_good_bound threshold b) ->
  forall (valid_moves : list Move) (min_threshold : IdaStar.bound)
         (v : IdaStar.vars) (b : IdaStar.bound) (v' : IdaStar.vars),
    ida_good_bound threshold min_threshold ->
    IdaStar.for_moves g rec state g_ valid_moves min_threshold v = Ret (false, b, v') ->
    ida_good_bound threshold b.
Proof.
  intros Hrec. induction valid_moves as [| move rest IH]; intros mt v b v' Hmt; simpl.
  - by intros [= <- <-].
  - intros Hfor. inv_bind Hfor. destruct a as [next_state k].
    destruct (decide (next_state ∈ IdaStar.visited v)); [by eapply IH |].
    inv_bind Hfor. destruct a as [[found temp] v1].
    destruct found; [done |].
    eapply IH; [| exact Hfor].
    pose proof (Hrec _ _ _ _ _ Ha0) as Htemp.
    destruct mt as [x |], temp as [y |]; simpl in *; try done.
    destruct (y <? x); simpl; done.
Qed.

(** X3. When the [search] of [ida_star] fails with a finite bound, the
    bound is larger than the threshold of the iteration: every iteration of
    [ida_star] runs with a strictly larger threshold than the one before. *)
Theorem ida_search_threshold_grows (fuel : nat) :
  forall (state : State) (g_ : Z) (v : IdaStar.vars) (t : Z) (v' : IdaStar.vars),
    IdaStar.search fuel g heuristic max_depth threshold state g_ v
      = Ret (false, IdaStar.Finite t, v') ->
    threshold < t.
Proof.
  assert (H : forall (state : State) (g_ : Z) (v : IdaStar.vars)
                     (b : IdaStar.bound) (v' : IdaStar.vars),
             IdaStar.search fuel g heuristic max_depth threshold state g_ v
               = Ret (false, b, v') ->
             ida_good_bound threshold b).
  { induction fuel as [| fuel IH]; intros state g_ v b v'; simpl; [done |].
    destruct (g_ + heuristic state >? threshold) eqn:Hf.
    { intros [= <- <-]. simpl. apply Z.gtb_lt in Hf. lia. }
    destruct (is_goal_state g state); [done |].
    destruct (g_ >=? max_depth); [by intros [= <- <-] |].
    apply ida_for_moves_threshold; [| done].
    intros st d v1 b1 v1'. apply IH. }
  intros state g_ v t v' Hret. exact (H _ _ _ _ _ Hret).
Qed.

End IdaBounds.

Lemma ida_search_threshold_grows_witness :
  exists v',
    IdaStar.search 5 example_game (completion_heuristic example_game) 200 9
      winding_state 0 (IdaStar.init winding_state)
    = Ret (false, IdaStar.Finite 12, v') /\
    9 < 12.
Proof.
  eexists. split; [vm_compute; reflexivity |].
  eapply (ida_search_threshold_grows example_game
            (completion_heuristic example_game) 200 9 5 winding_state 0
            (IdaStar.init winding_state) 12).
  vm_compute. reflexivity.
Defined.

(** X4. [ida_star] never returns a path longer than [max_depth]. *)
Theorem ida_star_depth_bound (g : WaterSortGame) (s0 : State)
    (heuristic : State -> Z) (max_depth : Z) (fuel : nat) (r : SearchResult) :
  ida_star fuel g s0 heuristic max_depth = Ret r ->
  depth r <= Z.max 0 max_depth /\ len (moves r) <= Z.max 0 max_depth.
Proof.
  unfold ida_star, ida_star_run. intros Hret. inv_bind Hret. destruct a as [r' v'].
  injection Hret as ->.
  assert (H : forall fuel threshold v,
             IdaStar.path v = [] ->
             IdaStar.iterate fuel g heuristic max_depth s0 threshold v = Ret (r, v') ->
             depth r <= Z.max 0 max_depth /\ len (moves r) <= Z.max 0 max_depth).
  { clear. induction fuel as [| fuel IH]; intros threshold v Hnil; simpl; [done |].
    intros Hret. inv_bind Hret. destruct a as [[found temp] v1].
    apply (ida_search_depth g heuristic max_depth threshold fuel s0 0) in Ha.
    2: { simpl. by rewrite Hnil. }
    unfold ida_depth_post in Ha. simpl in Ha.
    destruct found.
    - injection Hret as <- <-. simpl. lia.
    - destruct temp as [next |].
      + eapply IH; [| exact Hret]. by rewrite Ha.
      + injection Hret as <- <-. simpl. unfold len. simpl. lia. }
  exact (H fuel _ (IdaStar.init s0) eq_refl Ha).
Qed.

Lemma ida_star_depth_bound_witness :
  ida_star 10 example_game example_state (blocking_heuristic example_game) 200
    = Ret (mkResult true [mkMove 0 1] 7 2 2 1) /\
  1 <= Z.max 0 200 /\ len [mkMove 0 1] <= Z.max 0 200.
Proof.
  assert (Hi : ida_star 10 example_game example_state
                 (blocking_heuristic example_game) 200
               = Ret (mkResult true [mkMove 0 1] 7 2 2 1))
    by (vm_compute; reflexivity).
  split; [exact Hi |].
  exact (ida_star_depth_bound example_game example_state
           (blocking_heuristic example_game) 200 10 _ Hi).
Defined.

(** * Further properties of the puzzle model *)

(** X5. A pour that [apply_move] accepts changes the state: the tube
    count is kept, only the source and the destination change, and the
    source loses exactly the units poured while the destination gains
    them.  The puzzle graph has no self-loop. *)
Theorem pour_changes_state (g : WaterSortGame) (s s' : State) (m : Move) (k : Z) :
  apply_move g s m = Ret (s', k) ->
  s' <> s /\
  len s' = len s /\
  (forall i : nat, i <> Z.to_nat (src m) -> i <> Z.to_nat (dst m) -> s' !! i = s !! i) /\
  exists t d t' d',
    s !! Z.to_nat (src m) = Some t /\ s' !! Z.to_nat (src m) = Some t' /\
    s !! Z.to_nat (dst m) = Some d /\ s' !! Z.to_nat (dst m) = Some d' /\
    1 <= k /\ len t' = len t - k /\ len d' = len d + k.
Proof.
  intros Heq. apply apply_move_Ret_inv in Heq as [Hc (n & -> & Hn & Hp)].
  destruct Hc as (t0 & d0 & top0 & Hs0 & Hd0 & Ht0 & Hdd0 & Hne & _).
  destruct Hp as (t & d & top & t' & Ht & Hd & Htop & Hsplit & -> & Hcap & _).
  assert (Hij : Z.to_nat (src m) <> Z.to_nat (dst m)) by lia.
  assert (Hsrc' : <[Z.to_nat (dst m) := d ++ replicate n top]>
                    (<[Z.to_nat (src m) := t']> s) !! Z.to_nat (src m) = Some t').
  { rewrite list_lookup_insert_ne by done.
    apply list_lookup_insert_eq. by eapply lookup_lt_Some. }
  assert (Hdst' : <[Z.to_nat (dst m) := d ++ replicate n top]>
                    (<[Z.to_nat (src m) := t']> s) !! Z.to_nat (dst m)
                  = Some (d ++ replicate n top)).
  { apply list_lookup_insert_eq. rewrite length_insert. by eapply lookup_lt_Some. }
  assert (Hlen : len t = len t' + Z.of_nat n).
  { rewrite Hsplit, len_app. unfold len. by rewrite length_replicate. }
  split; [| split; [| split]].
  - intros Heq. rewrite Heq in Hsrc'. rewrite Ht in Hsrc'. injection Hsrc' as Htt.
    rewrite Htt in Hlen. lia.
  - unfold len. by rewrite !length_insert.
  - intros i Hi1 Hi2. by rewrite !list_lookup_insert_ne.
  - exists t, d, t', (d ++ replicate n top).
    split; [exact Ht |]. split; [exact Hsrc' |].
    split; [exact Hd |]. split; [exact Hdst' |].
    split; [lia |]. split; [lia |].
    rewrite len_app. unfold len. rewrite length_replicate. lia.
Qed.

Lemma pour_changes_state_witness :
  apply_move example_game example_state (mkMove 0 1) = Ret (example_solved, 3) /\
  example_solved <> example_state.
Proof.
  assert (Ha : apply_move example_game example_state (mkMove 0 1)
               = Ret (example_solved, 3)) by reflexivity.
  split; [exact Ha |].
  exact (proj1 (pour_changes_state example_game example_state example_solved
                  (mkMove 0 1) 3 Ha)).
Defined.

(** ** [build_state_sequence] *)

Lemma build_sequence_loop_spec (g : WaterSortGame) (ms : list Move) :
  forall (s y : State) (acc : list State),
    run_moves g s ms = Ret y ->
    exists sequence,
      build_sequence_loop g s ms acc = Ret (acc ++ sequence) /\
      length sequence = length ms /\
      last (s :: sequence) = Some y /\
      pour_path g s sequence.
Proof.
  induction ms as [| m ms IH]; intros s y acc; simpl.
  - intros [= <-]. exists []. by rewrite app_nil_r.
  - destruct (apply_move g s m) as [[s1 k] | |] eqn:Hm; simpl; [| done | done].
    intros Hrun. destruct (IH s1 y (acc ++ [s1]) Hrun) as (sequence & Heq & Hlen & Hlast & Hpath).
    exists (s1 :: sequence). rewrite Heq, <- app_assoc. simpl.
    split; [done |]. split; [by rewrite Hlen |]. split; [| split; [by exists m, k | done]].
    by destruct sequence.
Qed.

(** X6. The moves of a successful search result are replayed by
    [build_state_sequence] without an error: it returns [depth + 1] states,
    from the initial state to a goal state, each one legal pour after the one
    before. *)
Theorem build_state_sequence_of_result (g : WaterSortGame) (s0 : State)
    (fuel : nat) (r : SearchResult) :
  bfs fuel g s0 = Ret r \/
  (exists depth_limit, dfs fuel g s0 depth_limit = Ret r) \/
  (exists heuristic, a_star fuel g s0 heuristic = Ret r) \/
  (exists heuristic max_depth, ida_star fuel g s0 heuristic max_depth = Ret r) ->
  success r = true ->
  exists rest goal,
    build_state_sequence s0 (moves r) g = Ret (s0 :: rest) /\
    len (s0 :: rest) = depth r + 1 /\
    last (s0 :: rest) = Some goal /\
    is_goal_state g goal = true /\
    pour_path g s0 rest.
Proof.
  intros Hrun Hsucc.
  destruct (successful_result_solves_any g s0 fuel r Hrun Hsucc)
    as (goal & Hmoves & Hgoal & Hdepth).
  destruct (build_sequence_loop_spec g (moves r) s0 goal [s0] Hmoves)
    as (rest & Heq & Hlen & Hlast & Hpath).
  exists rest, goal. unfold build_state_sequence. rewrite Heq. simpl.
  split; [done |]. split; [| done].
  rewrite Hdepth. unfold len. simpl. lia.
Qed.

Lemma build_state_sequence_of_result_witness :
  bfs 10 example_game example_state = Ret example_bfs_result /\
  exists rest goal,
    build_state_sequence example_state (moves example_bfs_result) example_game
      = Ret (example_state :: rest) /\
    len (example_state :: rest) = depth example_bfs_result + 1 /\
    last (example_state :: rest) = Some goal /\
    is_goal_state example_game goal = true /\
    pour_path example_game example_state rest.
Proof.
  assert (Hb : bfs 10 example_game example_state = Ret example_bfs_result)
    by (vm_compute; reflexivity).
  split; [exact Hb |].
  exact (build_state_sequence_of_result example_game example_state 10
           example_bfs_result (or_introl Hb) eq_refl).
Defined.

(** * The constructor and the solved state *)

Lemma DEFAULT_COLORS_NoDup : NoDup DEFAULT_COLORS.
Proof. apply (bool_decide_unpack _). vm_compute. exact I. Qed.

Lemma colors_of_valid (g : WaterSortGame) :
  valid_configuration g = true ->
  colors g = take (Z.to_nat (num_colors g)) DEFAULT_COLORS /\
  len (colors g) = num_colors g /\
  NoDup (colors g).
Proof.
  unfold valid_configuration. rewrite !andb_true_iff, !Z.leb_le.
  intros [[[[H1 H2] H3] H4] H5].
  assert (Hc : colors g = take (Z.to_nat (num_colors g)) DEFAULT_COLORS).
  { unfold colors, slice_to. destruct (0 <=? num_colors g) eqn:H0; [done |].
    apply Z.leb_gt in H0. lia. }
  split; [done |]. rewrite Hc. split.
  - unfold len. rewrite length_take_le; [lia |]. simpl. lia.
  - eapply sublist_NoDup; [apply DEFAULT_COLORS_NoDup | apply sublist_take].
Qed.

(** X7. The constructor accepts exactly the games with 5 to 12 tubes and
    3 to [num_tubes - 2] colours, whatever the capacity (also 0 or negative);
    the third check, against the size of the palette, can never fire.  An
    accepted game has [num_colors] distinct colours. *)
Theorem WaterSortGame_init_contract (num_tubes num_colors capacity : Z) :
  (5 <= num_tubes <= 12 /\ 3 <= num_colors <= num_tubes - 2 ->
   let g := mkGame num_tubes num_colors capacity in
   WaterSortGame_init num_tubes num_colors capacity = Ret g /\
   len (colors g) = num_colors /\ NoDup (colors g)) /\
  (~ (5 <= num_tubes <= 12 /\ 3 <= num_colors <= num_tubes - 2) ->
   exists msg, WaterSortGame_init num_tubes num_colors capacity
               = Raise (ValueError msg)) /\
  WaterSortGame_init num_tubes num_colors capacity
  <> Raise (ValueError "num_colors exceeds available predefined colors").
Proof.
  unfold WaterSortGame_init.
  destruct ((5 <=? num_tubes) && (num_tubes <=? 12)) eqn:HT; simpl.
  2: { apply andb_false_iff in HT. rewrite Z.leb_gt, Z.leb_gt in HT.
       split; [intros [? ?]; lia |]. split; [by eexists | done]. }
  apply andb_true_iff in HT as [HT1 HT2]. apply Z.leb_le in HT1, HT2.
  destruct ((3 <=? num_colors) && (num_colors <=? num_tubes - 2)) eqn:HC; simpl.
  2: { apply andb_false_iff in HC. rewrite Z.leb_gt, Z.leb_gt in HC.
       split; [intros [? ?]; lia |]. split; [by eexists | done]. }
  apply andb_true_iff in HC as [HC1 HC2]. apply Z.leb_le in HC1, HC2.
  assert (Hpal : (num_colors >? len DEFAULT_COLORS) = false).
  { rewrite Z.gtb_ltb. apply Z.ltb_ge. unfold len. simpl. lia. }
  rewrite Hpal. split; [| split; [intros Hn; exfalso; apply Hn; lia | done]].
  intros _. simpl. split; [done |].
  assert (Hv : valid_configuration (mkGame num_tubes num_colors capacity) = true).
  { unfold valid_configuration. simpl.
    rewrite !andb_true_iff, !Z.leb_le. lia. }
  by destruct (colors_of_valid _ Hv) as (_ & ? & ?).
Qed.

(** ** [generate_solved_state] *)

Lemma distinct_colors_replicate (n : nat) (c : Color) :
  distinct_colors (replicate (S n) c) = 1.
Proof.
  unfold distinct_colors.
  assert (H : (list_to_set (replicate (S n) c) : gset string) = {[c]}).
  { induction n as [| n IH]; simpl in *.
    - by rewrite union_empty_r_L.
    - rewrite IH. by rewrite union_idemp_L. }
  rewrite H, size_singleton. done.
Qed.

Lemma units_in_tube_replicate (c x : Color) (n : nat) :
  units_in_tube c (replicate n x) = if decide (x = c) then n else 0%nat.
Proof.
  unfold units_in_tube. induction n as [| n IH]; simpl.
  - by destruct (decide (x = c)).
  - rewrite filter_cons. destruct (decide (x = c)); simpl; by rewrite IH.
Qed.

Lemma color_units_app (c : Color) (s1 s2 : State) :
  color_units c (s1 ++ s2) = (color_units c s1 + color_units c s2)%nat.
Proof.
  unfold color_units, flatten_colors. rewrite concat_app. apply units_in_tube_app.
Qed.

Lemma color_units_empties (c : Color) (n : nat) :
  color_units c (replicate n []) = 0%nat.
Proof.
  induction n as [| n IH]; [done |]. simpl. rewrite color_units_cons, IH. done.
Qed.

Lemma color_units_full_tubes (c : Color) (n : nat) (cs : list string) :
  NoDup cs ->
  color_units c (map (fun color => replicate n color) cs)
  = if decide (c ∈ cs) then n else 0%nat.
Proof.
  induction 1 as [| x cs Hx Hnd IH]; cbn [map].
  - destruct (decide (c ∈ [])) as [Hin | _]; [by apply elem_of_nil in Hin | done].
  - rewrite color_units_cons, IH, units_in_tube_replicate.
    destruct (decide (x = c)) as [-> | Hne].
    + destruct (decide (c ∈ cs)); [done |].
      destruct (decide (c ∈ c :: cs)) as [_ | Hn]; [lia |].
      exfalso. apply Hn. left.
    + destruct (decide (c ∈ cs)) as [Hin | Hnin].
      * destruct (decide (c ∈ x :: cs)) as [_ | Hn]; [lia |].
        exfalso. apply Hn. by right.
      * destruct (decide (c ∈ x :: cs)) as [Hin | _]; [| lia].
        apply elem_of_cons in Hin as [-> | ?]; done.
Qed.

(** X8. For a game the constructor accepts, [generate_solved_state] is a
    goal state with [num_tubes] tubes; when the capacity is not negative it
    is a valid state that holds exactly [capacity] units of each colour of
    the game and of no other colour. *)
Theorem generate_solved_state_goal (g : WaterSortGame) :
  valid_configuration g = true ->
  is_goal_state g (generate_solved_state g) = true /\
  len (generate_solved_state g) = num_tubes g /\
  (0 <= capacity g ->
   is_valid_state g (generate_solved_state g) = true /\
   forall c, color_units c (generate_solved_state g) = palette_units g c).
Proof.
  intros Hv. destruct (colors_of_valid g Hv) as (Hcol & Hlen & Hnd).
  assert (HTC : 0 <= num_tubes g - num_colors g).
  { unfold valid_configuration in Hv. rewrite !andb_true_iff, !Z.leb_le in Hv. lia. }
  unfold generate_solved_state.
  assert (Hlen' : len (map (fun color => replicate (Z.to_nat (capacity g)) color) (colors g)
                       ++ replicate (Z.to_nat (num_tubes g - num_colors g)) [])
                  = num_tubes g).
  { rewrite len_app. unfold len in *.
    rewrite length_map, length_replicate. lia. }
  split; [| split; [done |]].
  - unfold is_goal_state. rewrite forallb_app. apply andb_true_iff. split.
    + apply forallb_forall. intros t Ht. apply in_map_iff in Ht as (c & <- & _).
      destruct (Z.to_nat (capacity g)) as [| n] eqn:Hn; [done |].
      rewrite distinct_colors_replicate.
      unfold len. rewrite length_replicate.
      apply andb_true_iff. split; [apply Z.eqb_eq; lia | done].
    + apply forallb_forall. intros t Ht. apply list_elem_of_In in Ht.
      by apply elem_of_replicate_inv in Ht as ->.
  - intros Hcap. split.
    + apply is_valid_state_spec. split; [done |].
      apply Forall_app. split.
      * apply Forall_forall. intros t Ht.
        apply list_elem_of_In, in_map_iff in Ht as (c & <- & _).
        unfold len. rewrite length_replicate. lia.
      * apply Forall_forall. intros t Ht.
        apply elem_of_replicate_inv in Ht as ->. unfold len. simpl. lia.
    + intros c. rewrite color_units_app, color_units_empties.
      rewrite color_units_full_tubes by done. unfold palette_units. lia.
Qed.

Lemma generate_solved_state_goal_witness :
  valid_configuration example_game = true /\
  is_goal_state example_game (generate_solved_state example_game) = true /\
  len (generate_solved_state example_game) = num_tubes example_game /\
  (0 <= capacity example_game ->
   is_valid_state example_game (generate_solved_state example_game) = true /\
   forall c, color_units c (generate_solved_state example_game)
             = palette_units example_game c).
Proof.
  assert (Hv : valid_configuration example_game = true) by reflexivity.
  split; [exact Hv |].
  exact (generate_solved_state_goal example_game Hv).
Defined.

(** * When the heuristics vanish *)

Section HeuristicZeros.

Context (g : WaterSortGame).

Lemma distinct_colors_pure (t : Tube) (c : Color) :
  t <> [] -> (forall x, x ∈ t -> x = c) -> distinct_colors t = 1.
Proof.
  intros Hne Hall.
  assert (Ht : t = replicate (length t) c)
    by (symmetry; by apply replicate_as_elem_of).
  destruct t as [| a t]; [done |]. rewrite Ht. simpl length.
  apply distinct_colors_replicate.
Qed.

Lemma distinct_colors_le_1 (t : Tube) :
  distinct_colors t <= 1 -> exists c, forall x, x ∈ t -> x = c.
Proof.
  intros Hle. destruct t as [| a t].
  - exists "". by intros x ?%elem_of_nil.
  - unfold distinct_colors in Hle.
    assert (Hin : a ∈ (list_to_set (a :: t) : gset string))
      by (apply elem_of_list_to_set; left).
    assert (Hsize : size (list_to_set (a :: t) : gset string) = 1%nat).
    { assert (size (list_to_set (a :: t) : gset string) <> 0%nat); [| lia].
      intros H0. apply size_empty_inv in H0.
      apply (not_elem_of_empty (C := gset string) a). by rewrite <- H0. }
    exists a. intros x Hx. symmetry.
    apply (size_singleton_inv (list_to_set (a :: t) : gset string)); [done | done |].
    by apply elem_of_list_to_set.
Qed.

(** *** Completion *)

Lemma streak_scan_full (base : Color) (rest : list string) :
  forall k, streak_scan base rest k = k + len rest -> forall x, x ∈ rest -> x = base.
Proof.
  induction rest as [| c rest IH]; intros k Hk x Hx; [by apply elem_of_nil in Hx |].
  simpl in Hk. unfold len in *. simpl length in Hk.
  destruct (decide (c = base)) as [-> | Hne].
  - apply elem_of_cons in Hx as [-> | Hx]; [done |].
    apply (IH (k + 1)); [lia | done].
  - lia.
Qed.

Lemma completion_fold_zero (state : State) :
  Forall (fun t : Tube => len t <= capacity g) state ->
  forall ti cp : Z,
    let '(ti', cp') :=
      foldl (fun '(tubes_incomplete, colors_positioned) (tube : Tube) =>
        match tube with
        | [] => (tubes_incomplete, colors_positioned)
        | base_color :: rest =>
            if (len tube =? capacity g) && (distinct_colors tube =? 1)
            then (tubes_incomplete, colors_positioned)
            else (tubes_incomplete + 1,
                  colors_positioned + streak_scan base_color rest 1)
        end) (ti, cp) state in
    ti * capacity g - cp <= ti' * capacity g - cp' /\
    (ti' * capacity g - cp' = ti * capacity g - cp <-> is_goal_state g state = true).
Proof.
  induction state as [| t state IH]; intros Hall ti cp; simpl.
  - split; [lia | done].
  - apply Forall_cons in Hall as [Ht Hall].
    destruct t as [| base rest]; [by apply IH |].
    destruct ((len (base :: rest) =? capacity g) && (distinct_colors (base :: rest) =? 1))
      eqn:Hcond; [by apply IH |].
    specialize (IH Hall (ti + 1) (cp + streak_scan base rest 1)).
    destruct (foldl _ _ state) as [ti' cp'].
    destruct IH as [Hle _].
    assert (Hstreak : streak_scan base rest 1 < capacity g).
    { pose proof (streak_scan_bound base rest 1) as [_ Hb].
      unfold len in Ht. simpl length in Ht. unfold len in Hb.
      destruct (decide (streak_scan base rest 1 = 1 + len rest)) as [Heq | Hneq];
        [| unfold len in Hneq; lia].
      apply andb_false_iff in Hcond as [Hc | Hc].
      - apply Z.eqb_neq in Hc. unfold len in Hc. simpl length in Hc. lia.
      - apply Z.eqb_neq in Hc. exfalso. apply Hc.
        apply (distinct_colors_pure _ base); [done |].
        intros x [-> | Hx]%elem_of_cons; [done |].
        by apply (streak_scan_full base rest 1). }
    split; [lia |]. split; [lia | done].
Qed.

(** *** Blocking *)

Lemma blocking_fold_zero (state : State) :
  forall tm bu : Z,
    let '(tm', bu') :=
      foldl (fun '(total_mixed, blocked_units) (tube : Tube) =>
        match tube with
        | [] => (total_mixed, blocked_units)
        | _ =>
            let total_mixed :=
              if distinct_colors tube >? 1 then total_mixed + len tube
              else total_mixed in
            (total_mixed, blocked_in_tube tube blocked_units)
        end) (tm, bu) state in
    tm <= tm' /\ bu <= bu' /\
    (tm' + 2 * bu' = tm + 2 * bu
     <-> Forall (fun t : Tube => distinct_colors t <= 1) state).
Proof.
  induction state as [| t state IH]; intros tm bu; simpl.
  - split; [lia |]. split; [lia |]. split; [constructor | done].
  - destruct t as [| c rest].
    + specialize (IH tm bu). destruct (foldl _ _ state) as [tm' bu'].
      destruct IH as (H1 & H2 & H3). split; [done |]. split; [done |].
      rewrite H3. split.
      * intros H. constructor; [| done].
        change (Z.of_nat (size (∅ : gset string)) <= 1). rewrite size_empty. lia.
      * by intros [_ ?]%Forall_cons.
    + destruct (distinct_colors (c :: rest) >? 1) eqn:Hd.
      * apply Z.gtb_lt in Hd.
        specialize (IH (tm + len (c :: rest)) (blocked_in_tube (c :: rest) bu)).
        destruct (foldl _ _ state) as [tm' bu'].
        destruct IH as (H1 & H2 & _).
        pose proof (blocked_in_tube_mono (c :: rest) bu).
        assert (1 <= len (c :: rest)) by (unfold len; simpl; lia).
        split; [lia |]. split; [lia |]. split; [lia |].
        intros [? _]%Forall_cons. lia.
      * rewrite Z.gtb_ltb in Hd. apply Z.ltb_ge in Hd.
        destruct (distinct_colors_le_1 _ Hd) as [c0 Hc0].
        rewrite (blocked_in_pure_tube (c :: rest) c0 bu Hc0).
        specialize (IH tm bu). destruct (foldl _ _ state) as [tm' bu'].
        destruct IH as (H1 & H2 & H3). split; [done |]. split; [done |].
        rewrite H3. split; [by constructor | by intros [_ ?]%Forall_cons].
Qed.

(** *** Entropy *)

Lemma foldl_add_shift (l : list Z) :
  forall s k, foldl Z.add (s + k) l = foldl Z.add s l + k.
Proof.
  induction l as [| x l IH]; intros s k; simpl; [done |].
  replace (s + k + x) with (s + x + k) by lia. apply IH.
Qed.

Lemma max_plus_len_le_sum (rest : list Z) :
  forall a s : Z,
    a <= s -> 1 <= s -> Forall (fun x => 1 <= x) rest ->
    foldl Z.max a rest + len rest <= foldl Z.add s rest.
Proof.
  induction rest as [| x rest IH]; intros a s Has Hs Hall; simpl.
  - unfold len. simpl. lia.
  - apply Forall_cons in Hall as [Hx Hall].
    specialize (IH (Z.max a x) (s + x - 1)).
    replace (s + x - 1) with (s + x + (-1)) in IH by lia.
    rewrite foldl_add_shift in IH.
    unfold len in *. simpl length.
    assert (foldl Z.max (Z.max a x) rest + Z.of_nat (length rest)
            <= foldl Z.add (s + x) rest + -1); [apply IH; [lia | lia | done] | lia].
Qed.

Lemma spread_positive (amounts : list Z) :
  Forall (fun x => 1 <= x) amounts -> 2 <= len amounts ->
  1 <= (len amounts - 1) * (sum_amounts amounts - max_amounts amounts).
Proof.
  intros Hall Hlen. destruct amounts as [| a rest]; [unfold len in Hlen; simpl in Hlen; lia |].
  apply Forall_cons in Hall as [Ha Hall].
  unfold sum_amounts, max_amounts. simpl foldl.
  pose proof (max_plus_len_le_sum rest a a (Z.le_refl a) Ha Hall) as H.
  replace (0 + a) with a by lia.
  unfold len in *. simpl length in *. nia.
Qed.

Lemma entropy_penalty_zero_iff (cd : gmap string (list Z)) :
  (forall c l, cd !! c = Some l -> Forall (fun x => 1 <= x) l) ->
  0 <= entropy_penalty cd /\
  (entropy_penalty cd = 0 <-> forall c l, cd !! c = Some l -> (length l <= 1)%nat).
Proof.
  unfold entropy_penalty.
  apply (map_fold_weak_ind
           (fun r (m : gmap string (list Z)) =>
              (forall c l, m !! c = Some l -> Forall (fun x => 1 <= x) l) ->
              0 <= r /\
              (r = 0 <-> forall c l, m !! c = Some l -> (length l <= 1)%nat))).
  - intros _. split; [lia |]. split; [| done]. intros _ c l. by rewrite lookup_empty.
  - intros c l m r Hnone IH Hpos.
    assert (Hm : forall c' l', m !! c' = Some l' -> Forall (fun x => 1 <= x) l').
    { intros c' l' Hl'. apply (Hpos c').
      rewrite lookup_insert_ne; [done |]. intros ->. congruence. }
    destruct (IH Hm) as [Hr Hiff].
    assert (Hl : Forall (fun x => 1 <= x) l)
      by (apply (Hpos c); by rewrite lookup_insert_eq).
    destruct (len l <=? 1) eqn:Hlen.
    + apply Z.leb_le in Hlen. split; [done |]. rewrite Hiff. split.
      * intros Hall c' l'. destruct (decide (c' = c)) as [-> | Hne].
        -- rewrite lookup_insert_eq. intros [= <-]. unfold len in Hlen. lia.
        -- rewrite lookup_insert_ne by done. apply Hall.
      * intros Hall c' l' Hl'. apply (Hall c').
        rewrite lookup_insert_ne; [done |]. intros ->. congruence.
    + apply Z.leb_gt in Hlen.
      pose proof (spread_positive l Hl ltac:(lia)) as Hterm.
      split; [lia |]. split; [lia |].
      intros Hall. specialize (Hall c l). rewrite lookup_insert_eq in Hall.
      specialize (Hall eq_refl). unfold len in Hlen. lia.
Qed.

Lemma Counter_fold_pos (tube : Tube) :
  forall acc : gmap string Z,
    (forall c n, acc !! c = Some n -> 1 <= n) ->
    forall c n,
      foldl (fun counts c => <[c := default 0 (counts !! c) + 1]> counts) acc tube
        !! c = Some n -> 1 <= n.
Proof.
  induction tube as [| x tube IH]; intros acc Hacc c n; simpl; [apply Hacc |].
  apply IH. intros c' n'. destruct (decide (c' = x)) as [-> | Hne].
  - rewrite lookup_insert_eq. intros [= <-].
    destruct (acc !! x) as [k |] eqn:Hk; simpl; [| lia].
    specialize (Hacc _ _ Hk). lia.
  - rewrite lookup_insert_ne by done. apply Hacc.
Qed.

Lemma color_distribution_pos (state : State) :
  forall cd : gmap string (list Z),
    (forall c l, cd !! c = Some l -> Forall (fun x => 1 <= x) l) ->
    forall c l, foldl record_tube cd state !! c = Some l -> Forall (fun x => 1 <= x) l.
Proof.
  induction state as [| t state IH]; intros cd Hcd; simpl; [done |].
  apply IH. intros c l. rewrite record_tube_lookup.
  destruct (Counter t !! c) as [a |] eqn:Ha; [| apply Hcd].
  intros [= <-]. apply Forall_app. split.
  - destruct (cd !! c) as [l0 |] eqn:Hl0; simpl; [by eapply Hcd | constructor].
  - constructor; [| constructor].
    apply (Counter_fold_pos t ∅ ltac:(intros c' n'; by rewrite lookup_empty) c a Ha).
Qed.

End HeuristicZeros.

(** X9. On a valid state the completion heuristic is 0 exactly on the goal
    states. *)
Theorem completion_zero_iff_goal (g : WaterSortGame) (s : State) :
  is_valid_state g s = true ->
  completion_heuristic g s = 0 <-> is_goal_state g s = true.
Proof.
  intros [_ Hall]%is_valid_state_spec. unfold completion_heuristic.
  pose proof (completion_fold_zero g s Hall 0 0) as H.
  destruct (foldl _ (0, 0) s) as [ti cp]. destruct H as [_ <-]. lia.
Qed.

Lemma completion_zero_iff_goal_witness :
  is_valid_state example_game example_solved = true /\
  (completion_heuristic example_game example_solved = 0
   <-> is_goal_state example_game example_solved = true).
Proof.
  assert (Hv : is_valid_state example_game example_solved = true) by reflexivity.
  split; [exact Hv |].
  exact (completion_zero_iff_goal example_game example_solved Hv).
Defined.

(** X10. The blocking heuristic is 0 exactly when no tube holds two
    colours; the tubes need not be full, so it also vanishes on states that
    are not goals. *)
Theorem blocking_zero_iff_unmixed (g : WaterSortGame) (s : State) :
  blocking_heuristic g s = 0
  <-> Forall (fun t : Tube => distinct_colors t <= 1) s.
Proof.
  unfold blocking_heuristic.
  pose proof (blocking_fold_zero s 0 0) as H.
  destruct (foldl _ (0, 0) s) as [tm bu]. destruct H as (_ & _ & <-). lia.
Qed.

(** X11. The entropy heuristic is 0 exactly when no colour is held by two
    tubes. *)
Theorem entropy_zero_iff_gathered (g : WaterSortGame) (s : State) :
  entropy_heuristic g s = 0 <-> forall c, (tubes_holding c s <= 1)%nat.
Proof.
  unfold entropy_heuristic.
  destruct (entropy_penalty_zero_iff (foldl record_tube ∅ s)) as [_ ->].
  { apply color_distribution_pos. intros c l. by rewrite lookup_empty. }
  split.
  - intros Hall c. pose proof (color_distribution_length s c ∅) as Hlen.
    rewrite lookup_empty in Hlen. simpl in Hlen. rewrite <- Hlen.
    destruct (foldl record_tube ∅ s !! c) as [l |] eqn:Hl; simpl; [| lia].
    by apply (Hall c).
  - intros Hall c l Hl. pose proof (color_distribution_length s c ∅) as Hlen.
    rewrite Hl, lookup_empty in Hlen. simpl in Hlen. rewrite Hlen. apply Hall.
Qed.

(** * The random generators *)

Lemma first_pick_lawful : lawful_random first_pick.
Proof.
  split; simpl.
  - done.
  - intros _ n k Hk. split; [apply NoDup_seqZ |]. split.
    + unfold len. rewrite length_seqZ. lia.
    + apply Forall_forall. intros i Hi%elem_of_seqZ. lia.
  - intros _ n Hn. lia.
Qed.

(** ** Indexing *)

Lemma position_in_range {A : Type} (l : list A) (i : Z) :
  0 <= i < len l -> position l i = Some (Z.to_nat i).
Proof.
  intros Hi. unfold position.
  destruct (0 <=? i) eqn:H1; [| apply Z.leb_gt in H1; lia].
  destruct (i <? len l) eqn:H2; [done | apply Z.ltb_ge in H2; lia].
Qed.

Lemma item_in_range {A : Type} (l : list A) (i : Z) :
  0 <= i < len l -> item l i = l !! Z.to_nat i.
Proof. intros Hi. unfold item. by rewrite position_in_range. Qed.

Lemma set_item_in_range {A : Type} (l : list A) (i : Z) (x : A) :
  0 <= i < len l -> set_item l i x = Some (<[Z.to_nat i := x]> l).
Proof. intros Hi. unfold set_item. by rewrite position_in_range. Qed.

Lemma lookup_in_range {A : Type} (l : list A) (i : Z) :
  0 <= i < len l -> exists x, l !! Z.to_nat i = Some x.
Proof.
  intros Hi. apply lookup_lt_is_Some. unfold len in Hi. lia.
Qed.

Lemma random_choice_lawful {A : Type} (R : RandomSource) (r : rng R) (seq : list A) :
  lawful_random R -> seq <> [] ->
  exists x r', random_choice R r seq = Some (x, r') /\ x ∈ seq.
Proof.
  intros HR Hne. unfold random_choice.
  destruct seq as [| a seq]; [done |].
  pose proof (below_in_range R HR r (len (a :: seq))) as Hb.
  destruct (rnd_below R r (len (a :: seq))) as [i r'] eqn:Hi. simpl in Hb.
  assert (Hrange : 0 <= i < len (a :: seq)).
  { apply Hb. unfold len. simpl. lia. }
  rewrite item_in_range by done.
  destruct (lookup_in_range _ _ Hrange) as [x Hx]. rewrite Hx. simpl.
  exists x, r'. split; [done |]. by eapply list_elem_of_lookup_2.
Qed.

(** ** Dealing the units *)

Section Dealing.

Context (g : WaterSortGame) (fill_indices : list Z) (units0 : list string).
Hypothesis Hcap : 0 <= capacity g.
Hypothesis Hnodup : NoDup fill_indices.
Hypothesis Hrange : Forall (fun i => 0 <= i < num_tubes g) fill_indices.

Lemma fill_in_range (i : Z) : i ∈ fill_indices -> 0 <= i < num_tubes g.
Proof. intros Hi. by apply (proj1 (Forall_forall _ _) Hrange i Hi). Qed.

Lemma open_tubes_spec (tubes : list (list string)) (idxs : list Z) :
  len tubes = num_tubes g ->
  Forall (fun i => 0 <= i < num_tubes g) idxs ->
  exists candidates,
    open_tubes g tubes idxs = Some candidates /\
    forall i, i ∈ candidates <->
              i ∈ idxs /\ Z.of_nat (held tubes i) < capacity g.
Proof.
  intros Hlen. induction 1 as [| i idxs Hi Hall IH]; simpl.
  - exists []. split; [done |]. intros i. rewrite !elem_of_nil. tauto.
  - destruct IH as (cands & -> & Hc).
    rewrite item_in_range by lia.
    destruct (lookup_in_range tubes i ltac:(lia)) as [t Ht]. rewrite Ht. simpl.
    eexists. split; [done |]. intros j.
    assert (Hheld : Z.of_nat (held tubes i) = len t)
      by (unfold held; by rewrite Ht).
    destruct (len t <? capacity g) eqn:Hlt.
    + apply Z.ltb_lt in Hlt. rewrite !elem_of_cons, Hc. split.
      * intros [-> | [? ?]]; [split; [by left | lia] | split; [by right | done]].
      * intros [[-> | ?] ?]; [by left | by right].
    + apply Z.ltb_ge in Hlt. rewrite elem_of_cons, Hc. split.
      * intros [? ?]. split; [by right | done].
      * intros [[-> | ?] ?]; [lia | done].
Qed.

Lemma held_full (tubes : list (list string)) (rest : list string) (idxs : list Z) :
  dealing g fill_indices units0 tubes rest ->
  idxs ⊆ fill_indices ->
  (forall i, i ∈ idxs -> ~ Z.of_nat (held tubes i) < capacity g) ->
  sum_list_with (held tubes) idxs = (length idxs * Z.to_nat (capacity g))%nat.
Proof.
  intros Hd. induction idxs as [| i idxs IH]; intros Hsub Hfull; simpl; [done |].
  rewrite IH.
  2: { intros j Hj. apply Hsub. by right. }
  2: { intros j Hj. apply Hfull. by right. }
  assert (Hi : i ∈ fill_indices) by (apply Hsub; left).
  pose proof (fill_in_range i Hi) as Hir.
  destruct (lookup_in_range tubes i) as [t Ht];
    [rewrite (dealing_length Hd); lia |].
  pose proof (dealing_tubes Hd _ _ Ht) as Hb.
  rewrite Z2Nat.id in Hb by lia.
  destruct (decide (i ∈ fill_indices)); [| done].
  specialize (Hfull i ltac:(left)).
  assert (held tubes i = length t) as Hh by (unfold held; by rewrite Ht).
  rewrite Hh in *. unfold len in Hb. lia.
Qed.

Lemma held_insert_other (tubes : list (list string)) (j : nat) (x : list string)
    (idxs : list Z) :
  Forall (fun i => 0 <= i) idxs -> Z.of_nat j ∉ idxs ->
  sum_list_with (held (<[j := x]> tubes)) idxs = sum_list_with (held tubes) idxs.
Proof.
  induction 1 as [| i idxs Hi Hall IH]; intros Hnot; simpl; [done |].
  apply not_elem_of_cons in Hnot as [Hne Hnot]. rewrite IH by done.
  f_equal. unfold held. rewrite list_lookup_insert_ne; [done | lia].
Qed.

Lemma held_insert (tubes : list (list string)) (j : nat) (t : list string)
    (color : Color) (idxs : list Z) :
  NoDup idxs -> Forall (fun i => 0 <= i) idxs ->
  tubes !! j = Some t -> Z.of_nat j ∈ idxs ->
  sum_list_with (held (<[j := t ++ [color]]> tubes)) idxs
  = S (sum_list_with (held tubes) idxs).
Proof.
  intros Hnd Hall Ht. induction Hnd as [| i idxs Hi Hnd IH]; intros Hin; simpl.
  - by apply elem_of_nil in Hin.
  - apply Forall_cons in Hall as [Hi0 Hall].
    destruct (decide (i = Z.of_nat j)) as [-> | Hne].
    + rewrite held_insert_other by done.
      unfold held. rewrite Nat2Z.id, list_lookup_insert_eq, Ht.
      * simpl. rewrite length_app. simpl. lia.
      * by eapply lookup_lt_Some.
    + apply elem_of_cons in Hin as [Heq | Hin]; [congruence |].
      rewrite IH by done.
      unfold held at 1 3. rewrite list_lookup_insert_ne; [lia | lia].
Qed.

Lemma held_all_full (tubes : list (list string)) (idxs : list Z) :
  (forall i, i ∈ idxs -> (held tubes i <= Z.to_nat (capacity g))%nat) ->
  sum_list_with (held tubes) idxs = (length idxs * Z.to_nat (capacity g))%nat ->
  forall i, i ∈ idxs -> held tubes i = Z.to_nat (capacity g).
Proof.
  induction idxs as [| j idxs IH]; intros Hle Hsum i Hi; [by apply elem_of_nil in Hi |].
  simpl in Hsum.
  assert (Hj : (held tubes j <= Z.to_nat (capacity g))%nat) by (apply Hle; left).
  assert (Hrest : (sum_list_with (held tubes) idxs
                   <= length idxs * Z.to_nat (capacity g))%nat).
  { clear -Hle. induction idxs as [| k idxs IH]; simpl; [lia |].
    assert ((held tubes k <= Z.to_nat (capacity g))%nat)
      by (apply Hle; right; left).
    assert ((sum_list_with (held tubes) idxs
             <= length idxs * Z.to_nat (capacity g))%nat); [| lia].
    apply IH. intros i [-> | Hi]%elem_of_cons; apply Hle; [left | right; by right]. }
  apply elem_of_cons in Hi as [-> | Hi]; [lia |].
  apply IH; [| lia | done]. intros k Hk. apply Hle. by right.
Qed.

Lemma dealing_held_le (tubes : list (list string)) (rest : list string) (i : Z) :
  dealing g fill_indices units0 tubes rest -> i ∈ fill_indices ->
  (held tubes i <= Z.to_nat (capacity g))%nat.
Proof.
  intros Hd Hi.
  pose proof (fill_in_range i Hi) as Hir.
  destruct (lookup_in_range tubes i) as [t Ht];
    [rewrite (dealing_length Hd); lia |].
  pose proof (dealing_tubes Hd _ _ Ht) as Hb.
  rewrite Z2Nat.id in Hb by lia.
  destruct (decide (i ∈ fill_indices)); [| done].
  unfold held. rewrite Ht. simpl. unfold len in Hb. lia.
Qed.

Lemma distribute_deals (R : RandomSource) (HR : lawful_random R) (rest : list string) :
  forall (tubes : list (list string)) (r : rng R),
    dealing g fill_indices units0 tubes rest ->
    exists s r', distribute R g fill_indices rest tubes r = Generated (s, r') /\
                 dealing g fill_indices units0 s [].
Proof.
  induction rest as [| color rest IH]; intros tubes r Hd; simpl.
  - by exists tubes, r.
  - pose proof (dealing_length Hd) as Hlen.
    destruct (open_tubes_spec tubes fill_indices Hlen Hrange) as (cands & -> & Hc).
    assert (Hne : cands <> []).
    { intros ->.
      pose proof (held_full tubes (color :: rest) fill_indices Hd ltac:(done)) as Hf.
      pose proof (dealing_total Hd) as Ht. rewrite Hf in Ht.
      - simpl in Ht. lia.
      - intros i Hi Hlt. apply (elem_of_nil i). apply Hc. by split. }
    destruct (random_choice_lawful R r cands HR Hne) as (chosen & r' & Hch & Hin).
    destruct cands as [| c0 cands]; [done |].
    rewrite Hch.
    apply Hc in Hin as [Hfill Hopen].
    pose proof (fill_in_range chosen Hfill) as Hir.
    rewrite item_in_range by lia.
    destruct (lookup_in_range tubes chosen ltac:(lia)) as [t Ht]. rewrite Ht. simpl.
    rewrite set_item_in_range by lia. simpl.
    apply IH.
    assert (Hheld : held tubes chosen = length t) by (unfold held; by rewrite Ht).
    split.
    + unfold len. rewrite length_insert. exact Hlen.
    + intros i x Hx. destruct (decide (i = Z.to_nat chosen)) as [-> | Hne'].
      * rewrite list_lookup_insert_eq in Hx by (by eapply lookup_lt_Some).
        injection Hx as <-. rewrite Z2Nat.id by lia.
        destruct (decide (chosen ∈ fill_indices)); [| done].
        rewrite len_app. unfold len in *. simpl. lia.
      * rewrite list_lookup_insert_ne in Hx by done.
        by apply (dealing_tubes Hd).
    + rewrite (held_insert tubes (Z.to_nat chosen) t color fill_indices); try done.
      * pose proof (dealing_total Hd) as Htot. simpl in Htot. lia.
      * eapply Forall_impl; [exact Hrange |]. simpl. lia.
      * by rewrite Z2Nat.id by lia.
    + intros c.
      pose proof (color_units_insert c tubes (Z.to_nat chosen) (t ++ [color]) t Ht) as Hu.
      pose proof (dealing_units Hd c) as Hu0.
      rewrite units_in_tube_app in Hu.
      change (color :: rest) with ([color] ++ rest) in Hu0.
      rewrite units_in_tube_app in Hu0. lia.
Qed.

Lemma dealing_done (s : State) :
  len fill_indices = num_colors g ->
  dealing g fill_indices units0 s [] -> dealt_on g fill_indices s.
Proof.
  intros Hfl Hd. split; [done |]. split; [done |]. split; [done |].
  split; [apply (dealing_length Hd) |].
  intros i t Ht. pose proof (dealing_tubes Hd _ _ Ht) as Hb.
  destruct (decide (Z.of_nat i ∈ fill_indices)) as [Hin | _]; [| done].
  pose proof (dealing_total Hd) as Htot. simpl in Htot.
  rewrite Nat.add_0_r in Htot.
  pose proof (held_all_full s fill_indices
                (fun j Hj => dealing_held_le s [] j Hd Hj) Htot _ Hin) as Hfull.
  unfold held in Hfull. rewrite Nat2Z.id, Ht in Hfull. simpl in Hfull.
  unfold len. lia.
Qed.

End Dealing.

Lemma all_units_concat (g : WaterSortGame) :
  all_units g
  = concat (map (fun color => replicate (Z.to_nat (capacity g)) color) (colors g)).
Proof.
  unfold all_units.
  assert (H : forall (cs : list string) (acc : list string),
             foldl (fun units color => units ++ replicate (Z.to_nat (capacity g)) color)
                   acc cs
             = acc ++ concat (map (fun color => replicate (Z.to_nat (capacity g)) color) cs)).
  { induction cs as [| c cs IH]; intros acc; simpl; [by rewrite app_nil_r |].
    by rewrite IH, app_assoc. }
  apply (H (colors g) []).
Qed.

Lemma all_units_length (g : WaterSortGame) :
  length (all_units g) = (length (colors g) * Z.to_nat (capacity g))%nat.
Proof.
  rewrite all_units_concat.
  induction (colors g) as [| c cs IH]; simpl; [done |].
  by rewrite length_app, length_replicate, IH.
Qed.

Lemma units_in_tube_perm (c : Color) (a b : list string) :
  a ≡ₚ b -> units_in_tube c a = units_in_tube c b.
Proof. intros H. unfold units_in_tube. by rewrite H. Qed.

Lemma generate_random_state_dealt (R : RandomSource) (g : WaterSortGame) (r : rng R) :
  lawful_random R -> valid_configuration g = true -> 0 <= capacity g ->
  exists s r', _generate_random_state R g r = Generated (s, r') /\ dealt g s.
Proof.
  intros HR Hv Hcap. destruct (colors_of_valid g Hv) as (Hcol & Hclen & Hcnd).
  assert (HT : 5 <= num_tubes g /\ 3 <= num_colors g <= num_tubes g - 2).
  { unfold valid_configuration in Hv. rewrite !andb_true_iff, !Z.leb_le in Hv. lia. }
  unfold _generate_random_state.
  pose proof (shuffle_permutes R HR r (all_units g)) as Hperm.
  destruct (rnd_shuffle R r (all_units g)) as [units r1]. simpl in Hperm.
  unfold random_sample. rewrite Z.max_r by lia.
  destruct (0 <=? num_colors g) eqn:H0; [| apply Z.leb_gt in H0; lia].
  destruct (num_colors g <=? num_tubes g) eqn:H1; [| apply Z.leb_gt in H1; lia].
  simpl.
  pose proof (sample_distinct R HR r1 (num_tubes g) (num_colors g) ltac:(lia))
    as (Hnd & Hlen & Hrange).
  destruct (rnd_sample R r1 (num_tubes g) (num_colors g)) as [fill r2].
  simpl in Hnd, Hlen, Hrange.
  destruct (distribute_deals g fill units Hnd Hrange R HR units
              (replicate (Z.to_nat (num_tubes g)) []) r2) as (s & r' & Hs & Hd).
  - split.
    + unfold len. rewrite length_replicate. lia.
    + intros i t [-> _]%lookup_replicate.
      destruct (decide (Z.of_nat i ∈ fill)); [unfold len; simpl; lia | done].
    + assert (Hz : forall idxs : list Z,
                 sum_list_with
                   (held (replicate (Z.to_nat (num_tubes g)) ([] : list string)))
                   idxs = 0%nat).
      { induction idxs as [| i idxs IH]; simpl; [done |]. rewrite IH. unfold held.
        destruct (replicate (Z.to_nat (num_tubes g)) [] !! Z.to_nat i) as [t |] eqn:Ht;
          [| done].
        by apply lookup_replicate in Ht as [-> _]. }
      rewrite Hz. rewrite Hperm, all_units_length. unfold len in *. lia.
    + intros c. by rewrite color_units_empties.
  - exists s, r'. split; [done |]. split.
    + exists fill. by apply (dealing_done g fill units Hcap Hnd Hrange).
    + intros c. pose proof (dealing_units Hd c) as Hu.
      simpl in Hu. rewrite Nat.add_0_r in Hu. rewrite Hu.
      rewrite (units_in_tube_perm c _ _ Hperm), all_units_concat.
      change (units_in_tube c (concat ?l)) with (color_units c l).
      rewrite color_units_full_tubes by done. done.
Qed.

Lemma dealt_on_valid (g : WaterSortGame) (fill : list Z) (s : State) :
  0 <= capacity g -> dealt_on g fill s -> is_valid_state g s = true.
Proof.
  intros Hcap (_ & _ & _ & Hlen & Htubes).
  apply is_valid_state_spec. split; [done |].
  apply Forall_lookup. intros i t Ht. specialize (Htubes i t Ht).
  destruct (decide (Z.of_nat i ∈ fill)); [lia | subst t; unfold len; simpl; lia].
Qed.

(** ** The fallback of [generate_initial_state] *)

Lemma enumerate_indices {A : Type} (l : list A) :
  (enumerate l).*1 = Z.of_nat <$> seq 0 (length l).
Proof.
  unfold enumerate.
  assert (H : forall (k : nat),
             (imap (fun i x => (Z.of_nat (k + i), x)) l).*1
             = Z.of_nat <$> seq k (length l)).
  { induction l as [| x l IH]; intros k; [done |].
    rewrite imap_cons. cbn [fmap list_fmap length seq]. rewrite Nat.add_0_r. f_equal.
    rewrite <- (IH (S k)). f_equal. apply imap_ext. intros i y _. simpl.
    f_equal. lia. }
  apply (H 0%nat).
Qed.

Lemma filtered_indices_NoDup {A : Type} (P : Z * A -> Prop)
    `{forall p, Decision (P p)} (l : list A) :
  NoDup (filter P (enumerate l)).*1.
Proof.
  apply (sublist_NoDup _ (enumerate l).*1).
  - rewrite enumerate_indices. apply NoDup_fmap; [intros ???; lia | apply NoDup_seq].
  - apply fmap_sublist, sublist_filter.
Qed.

Lemma elem_of_filtered_indices {A : Type} (P : Z * A -> Prop)
    `{forall p, Decision (P p)} (l : list A) (i : Z) :
  i ∈ (filter P (enumerate l)).*1
  <-> 0 <= i /\ exists x, l !! Z.to_nat i = Some x /\ P (i, x).
Proof.
  rewrite list_elem_of_fmap. split.
  - intros ([j x] & -> & [HP [? ?]%elem_of_enumerate]%list_elem_of_filter).
    simpl. split; [done |]. by exists x.
  - intros [Hi (x & Hx & HP)]. exists (i, x). split; [done |].
    apply list_elem_of_filter. split; [done |]. by apply elem_of_enumerate.
Qed.

Lemma index_outside (fill : list Z) (n : Z) :
  NoDup fill -> len fill < n -> exists i, 0 <= i < n /\ i ∉ fill.
Proof.
  intros Hnd Hlen.
  destruct (decide (Forall (fun i => i ∈ fill) (seqZ 0 n))) as [Hall | Hex].
  - exfalso.
    assert (Hsub : seqZ 0 n ⊆+ fill).
    { apply NoDup_submseteq; [apply NoDup_seqZ |].
      intros i Hi. by apply (proj1 (Forall_forall _ _) Hall). }
    apply submseteq_length in Hsub. rewrite length_seqZ in Hsub.
    unfold len in Hlen. lia.
  - apply not_Forall_Exists in Hex; [| intros i; apply _].
    apply Exists_exists in Hex as (i & Hi%elem_of_seqZ & Hnot).
    exists i. split; [lia | done].
Qed.

Lemma pop_snoc {A : Type} (l : list A) (x : A) : pop (l ++ [x]) = Some (x, l).
Proof. unfold pop. by rewrite last_snoc, removelast_last. Qed.

Lemma not_goal_of_tube (g : WaterSortGame) (s : State) (i : nat) (t : Tube) :
  s !! i = Some t -> t <> [] -> len t <> capacity g -> is_goal_state g s = false.
Proof.
  intros Ht Hne Hlen. apply not_true_is_false. intros Hgoal.
  unfold is_goal_state in Hgoal. rewrite forallb_forall in Hgoal.
  apply list_elem_of_lookup_2, list_elem_of_In, Hgoal in Ht.
  destruct t; [done |]. apply andb_true_iff in Ht as [Hl%Z.eqb_eq _]. done.
Qed.

Lemma two_of_NoDup {A : Type} (l : list A) :
  NoDup l -> (2 <= length l)%nat -> exists i j, i ∈ l /\ j ∈ l /\ i <> j.
Proof.
  intros Hnd Hlen. destruct l as [| i [| j l]]; [simpl in Hlen; lia.. |].
  exists i, j. split; [left |]. split; [right; left |].
  apply NoDup_cons in Hnd as [Hnot _]. intros ->. apply Hnot. left.
Qed.

Section Unsettle.

Context (g : WaterSortGame) (fill : list Z) (s : State).
Hypothesis Hv : valid_configuration g = true.
Hypothesis Hcap : 1 <= capacity g.
Hypothesis Hd : dealt_on g fill s.

Lemma dealt_on_lookup (i : Z) :
  0 <= i < num_tubes g ->
  exists t, s !! Z.to_nat i = Some t /\
            if decide (i ∈ fill) then len t = capacity g else t = [].
Proof.
  intros Hi. destruct Hd as (_ & _ & _ & Hlen & Htubes).
  destruct (lookup_in_range s i ltac:(lia)) as [t Ht]. exists t. split; [done |].
  specialize (Htubes _ _ Ht). by rewrite Z2Nat.id in Htubes by lia.
Qed.

Lemma filled_is_fill (i : Z) : i ∈ filled_indices s <-> i ∈ fill.
Proof.
  unfold filled_indices. rewrite elem_of_filtered_indices. simpl.
  destruct Hd as (_ & _ & Hrange & Hlen & Htubes). split.
  - intros [Hi (t & Ht & Hne)]. specialize (Htubes _ _ Ht).
    rewrite Z2Nat.id in Htubes by lia. by destruct (decide (i ∈ fill)).
  - intros Hi. pose proof (proj1 (Forall_forall _ _) Hrange i Hi) as Hir. simpl in Hir.
    destruct (dealt_on_lookup i Hir) as (t & Ht & Hfull).
    destruct (decide (i ∈ fill)); [| done]. split; [lia |]. exists t. split; [done |].
    intros ->. unfold len in Hfull. simpl in Hfull. lia.
Qed.

Lemma unsettle_spec :
  exists (d1 d2 e : nat) (t1 t2 : Tube) (x y : Color),
    d1 <> d2 /\ e <> d1 /\ e <> d2 /\
    s !! d1 = Some (t1 ++ [x]) /\ s !! d2 = Some (t2 ++ [y]) /\ s !! e = Some [] /\
    len t1 = capacity g - 1 /\ len t2 = capacity g - 1 /\
    unsettle s
    = Some (<[e := [x; y]]> (<[d2 := t2]> (<[e := [x]]> (<[d1 := t1]> s)))).
Proof.
  pose proof Hd as (Hnd & Hflen & Hrange & Hlen & Htubes).
  assert (HT : 5 <= num_tubes g /\ 3 <= num_colors g <= num_tubes g - 2).
  { unfold valid_configuration in Hv. rewrite !andb_true_iff, !Z.leb_le in Hv. lia. }
  (* the donors *)
  assert (Hfnd : NoDup (filled_indices s)) by apply filtered_indices_NoDup.
  destruct (two_of_NoDup fill Hnd ltac:(unfold len in Hflen; lia))
    as (i & j & Hi%filled_is_fill & Hj%filled_is_fill & Hij).
  assert (Hfa : forall a, a ∈ filled_indices s -> a ∈ fill)
    by (intros a; apply filled_is_fill).
  destruct (filled_indices s) as [| a [| b rest]] eqn:Hfilled.
  { by apply elem_of_nil in Hi. }
  { apply list_elem_of_singleton in Hi as ->.
    by apply list_elem_of_singleton in Hj as ->. }
  assert (Ha : a ∈ fill) by (apply Hfa; left).
  assert (Hb : b ∈ fill) by (apply Hfa; right; left).
  clear Hfa.
  assert (Hab : a <> b).
  { apply NoDup_cons in Hfnd as [Hnot _]. intros ->. apply Hnot. left. }
  pose proof (proj1 (Forall_forall _ _) Hrange a Ha) as Har. simpl in Har.
  pose proof (proj1 (Forall_forall _ _) Hrange b Hb) as Hbr. simpl in Hbr.
  destruct (dealt_on_lookup a Har) as (ta & Hta & Hfa).
  destruct (dealt_on_lookup b Hbr) as (tb & Htb & Hfb).
  rewrite decide_True in Hfa by done. rewrite decide_True in Hfb by done.
  (* the empty tube *)
  destruct (index_outside fill (num_tubes g) Hnd ltac:(lia)) as (i0 & Hi0 & Hout).
  destruct (dealt_on_lookup i0 Hi0) as (t0 & Ht0 & He0).
  rewrite decide_False in He0 by done. subst t0.
  assert (Hin0 : i0 ∈ empty_indices s).
  { unfold empty_indices. apply elem_of_filtered_indices.
    split; [lia |]. by exists []. }
  destruct (empty_indices s) as [| e rest'] eqn:Hempties;
    [by apply elem_of_nil in Hin0 |].
  assert (He : e ∈ empty_indices s) by (rewrite Hempties; left).
  unfold empty_indices in He. apply elem_of_filtered_indices in He
    as [He0 (te & Hte & Hnil)]. simpl in Hnil. subst te.
  assert (Her : 0 <= e < num_tubes g).
  { apply lookup_lt_Some in Hte. unfold len in Hlen. lia. }
  (* the tops *)
  destruct (last ta) as [x |] eqn:Hlx.
  2: { apply last_None in Hlx. subst ta. unfold len in Hfa. simpl in Hfa. lia. }
  apply last_Some in Hlx as [t1 ->].
  destruct (last tb) as [y |] eqn:Hly.
  2: { apply last_None in Hly. subst tb. unfold len in Hfb. simpl in Hfb. lia. }
  apply last_Some in Hly as [t2 ->].
  rewrite len_app in Hfa, Hfb. unfold len in Hfa, Hfb. simpl in Hfa, Hfb.
  assert (Hea : Z.to_nat e <> Z.to_nat a).
  { intros Heq. rewrite Heq in Hte. rewrite Hta in Hte.
    injection Hte as Hte. by destruct t1. }
  assert (Heb : Z.to_nat e <> Z.to_nat b).
  { intros Heq. rewrite Heq in Hte. rewrite Htb in Hte.
    injection Hte as Hte. by destruct t2. }
  exists (Z.to_nat a), (Z.to_nat b), (Z.to_nat e), t1, t2, x, y.
  split; [lia |]. split; [done |]. split; [done |].
  split; [done |]. split; [done |]. split; [done |].
  split; [unfold len; lia |]. split; [unfold len; lia |].
  unfold unsettle. rewrite Hfilled, Hempties.
  assert (Hl1 : forall (z : list string), len (<[Z.to_nat a := z]> s) = num_tubes g).
  { intros z. unfold len. by rewrite length_insert. }
  assert (Hl2 : forall (z w : list string),
             len (<[Z.to_nat e := w]> (<[Z.to_nat a := z]> s)) = num_tubes g).
  { intros z w. unfold len. by rewrite !length_insert. }
  assert (Hl3 : forall (z w u : list string),
             len (<[Z.to_nat b := u]> (<[Z.to_nat e := w]> (<[Z.to_nat a := z]> s)))
             = num_tubes g).
  { intros z w u. unfold len. by rewrite !length_insert. }
  assert (Hs1 : move_top s a e
                = Some (<[Z.to_nat e := [x]]> (<[Z.to_nat a := t1]> s))).
  { unfold move_top. rewrite item_in_range, Hta by lia. simpl.
    rewrite pop_snoc. simpl. rewrite set_item_in_range by lia. simpl.
    rewrite item_in_range by (rewrite Hl1; lia).
    rewrite list_lookup_insert_ne, Hte by done. simpl.
    rewrite set_item_in_range by (rewrite Hl1; lia). done. }
  rewrite Hs1. simpl.
  rewrite item_in_range by (rewrite Hl2; lia).
  rewrite !list_lookup_insert_ne, Htb by lia. simpl.
  assert (Hm : forall (X Y : option (list (list string))),
             match t2 ++ [y] with [] => X | _ :: _ => Y end = Y)
    by (intros; by destruct t2).
  rewrite Hm.
  unfold move_top. rewrite item_in_range by (rewrite Hl2; lia).
  rewrite !list_lookup_insert_ne, Htb by lia. simpl.
  rewrite pop_snoc. simpl. rewrite set_item_in_range by (rewrite Hl2; lia). simpl.
  rewrite item_in_range by (rewrite Hl3; lia).
  rewrite list_lookup_insert_ne by done.
  rewrite list_lookup_insert_eq by (rewrite length_insert; by eapply lookup_lt_Some).
  simpl. rewrite set_item_in_range by (rewrite Hl3; lia). done.
Qed.

End Unsettle.

Lemma unsettle_result (g : WaterSortGame) (fill : list Z) (s : State) :
  valid_configuration g = true -> 1 <= capacity g -> dealt_on g fill s ->
  exists s', unsettle s = Some s' /\
    len s' = num_tubes g /\
    (forall c, color_units c s' = color_units c s) /\
    is_goal_state g s' = false /\
    (2 <= capacity g -> is_valid_state g s' = true) /\
    (capacity g = 1 -> is_valid_state g s' = false).
Proof.
  intros Hv Hcap Hd.
  destruct (unsettle_spec g fill s Hv Hcap Hd)
    as (d1 & d2 & e & t1 & t2 & x & y & H12 & He1 & He2 & Hs1 & Hs2 & Hse
        & Hl1 & Hl2 & Hun).
  eexists. split; [exact Hun |].
  pose proof Hd as (_ & _ & _ & Hlen & Htubes).
  assert (He_lt : (e < length s)%nat) by (by eapply lookup_lt_Some).
  assert (Hlook_e :
    <[e := [x; y]]> (<[d2 := t2]> (<[e := [x]]> (<[d1 := t1]> s))) !! e
    = Some [x; y]).
  { apply list_lookup_insert_eq. by rewrite !length_insert. }
  assert (Hlook_1 :
    <[e := [x; y]]> (<[d2 := t2]> (<[e := [x]]> (<[d1 := t1]> s))) !! d1
    = Some t1).
  { rewrite !list_lookup_insert_ne by done.
    apply list_lookup_insert_eq. by eapply lookup_lt_Some. }
  split; [| split; [| split; [| split]]].
  - unfold len. by rewrite !length_insert.
  - intros c.
    pose proof (color_units_insert c s d1 t1 _ Hs1) as H1.
    pose proof (color_units_insert c (<[d1 := t1]> s) e [x] []) as H2.
    rewrite list_lookup_insert_ne in H2 by done. specialize (H2 Hse).
    pose proof (color_units_insert c (<[e := [x]]> (<[d1 := t1]> s)) d2 t2 (t2 ++ [y]))
      as H3.
    rewrite !list_lookup_insert_ne in H3 by done. specialize (H3 Hs2).
    pose proof (color_units_insert c (<[d2 := t2]> (<[e := [x]]> (<[d1 := t1]> s)))
                  e [x; y] [x]) as H4.
    rewrite list_lookup_insert_ne in H4 by done.
    rewrite list_lookup_insert_eq in H4 by (by rewrite length_insert).
    specialize (H4 eq_refl).
    rewrite !units_in_tube_app in *.
    change (units_in_tube c [x; y]) with (units_in_tube c ([x] ++ [y])) in H4.
    rewrite units_in_tube_app in H4.
    change (units_in_tube c []) with 0%nat in H2. lia.
  - destruct (decide (capacity g = 2)) as [H2 | H2].
    + apply (not_goal_of_tube g _ d1 t1 Hlook_1).
      * intros ->. unfold len in Hl1. simpl in Hl1. lia.
      * lia.
    + apply (not_goal_of_tube g _ e [x; y] Hlook_e); [done |].
      unfold len. simpl. lia.
  - intros H2. apply is_valid_state_spec. split.
    + unfold len. by rewrite !length_insert.
    + assert (Hs : Forall (fun t : Tube => len t <= capacity g) s).
      { apply Forall_lookup. intros i t Ht. specialize (Htubes i t Ht).
        destruct (decide (Z.of_nat i ∈ fill)); [lia |].
        subst t. unfold len. simpl. lia. }
      repeat apply Forall_insert; try done; unfold len in *; simpl; lia.
  - intros H1. apply not_true_is_false. intros Hvalid.
    pose proof (valid_tube_bound g _ e [x; y] Hvalid Hlook_e) as Hb.
    unfold len in Hb. simpl in Hb. lia.
Qed.

Lemma dealt_goal_thimble (g : WaterSortGame) (fill : list Z) (s : State) :
  capacity g = 1 -> dealt_on g fill s -> is_goal_state g s = true.
Proof.
  intros Hcap (_ & _ & _ & _ & Htubes).
  unfold is_goal_state. apply forallb_forall. intros t Ht.
  apply list_elem_of_In, list_elem_of_lookup_1 in Ht as [i Hi].
  specialize (Htubes i t Hi).
  destruct (decide (Z.of_nat i ∈ fill)); [| by subst t].
  destruct t as [| a [| b t]]; [done | | unfold len in Htubes; simpl in *; lia].
  rewrite Hcap. change [a] with (replicate 1 a).
  by rewrite distinct_colors_replicate.
Qed.

Lemma attempts_loop_spec (R : RandomSource) (g : WaterSortGame) :
  lawful_random R -> valid_configuration g = true -> 0 <= capacity g ->
  forall (attempts : nat) (last_candidate : State) (r : rng R),
    (attempts = 0%nat ->
     dealt g last_candidate /\ is_goal_state g last_candidate = true) ->
    exists found r',
      attempts_loop R g attempts last_candidate r = Generated (found, r') /\
      match found with
      | inl candidate => dealt g candidate /\ is_goal_state g candidate = false
      | inr last_candidate =>
          dealt g last_candidate /\ is_goal_state g last_candidate = true
      end.
Proof.
  intros HR Hv Hcap. induction attempts as [| n IH]; intros last r Hlast; simpl.
  - exists (inr last), r. split; [done |]. by apply Hlast.
  - destruct (generate_random_state_dealt R g r HR Hv Hcap) as (s & r1 & -> & Hs).
    simpl. destruct (is_goal_state g s) eqn:Hgoal; simpl.
    + apply IH. by intros _.
    + by exists (inl s), r1.
Qed.

Lemma generate_initial_state_spec (R : RandomSource) (g : WaterSortGame)
    (scramble_moves max_attempts : Z) (r : rng R) :
  lawful_random R -> valid_configuration g = true -> 1 <= capacity g ->
  exists s r',
    generate_initial_state R g scramble_moves max_attempts r = Generated (s, r') /\
    is_goal_state g s = false /\
    len s = num_tubes g /\
    (forall c, color_units c s = palette_units g c) /\
    (2 <= capacity g -> is_valid_state g s = true) /\
    (capacity g = 1 -> is_valid_state g s = false).
Proof.
  intros HR Hv Hcap. unfold generate_initial_state.
  destruct (attempts_loop_spec R g HR Hv ltac:(lia)
              (Z.to_nat (Z.max (max_attempts * 5) (Z.max 20 scramble_moves)))
              (generate_solved_state g) r ltac:(lia))
    as (found & r' & -> & Hfound).
  simpl. destruct found as [candidate | last].
  - destruct Hfound as [[[fill Hon] Hunits] Hgoal].
    exists candidate, r'. split; [done |]. split; [done |].
    split; [apply Hon |]. split; [done |]. split.
    + intros _. apply (dealt_on_valid g fill); [lia | done].
    + intros H1. rewrite (dealt_goal_thimble g fill candidate H1 Hon) in Hgoal. done.
  - destruct Hfound as [[[fill Hon] Hunits] Hsolved].
    destruct (unsettle_result g fill last Hv Hcap Hon)
      as (s' & Hun & Hlen & Hcu & Hgoal & Hvalid & Hover).
    rewrite Hsolved, Hun. exists s', r'.
    split; [done |]. split; [done |]. split; [done |].
    split; [| done]. intros c. by rewrite Hcu.
Qed.

(** X12. With a lawful random source, on a game the constructor accepts
    and a capacity that is not negative, [_generate_random_state] never
    raises its [RuntimeError]: it returns a valid state in which
    [num_colors] tubes are full, the others are empty, and every colour of
    the game has exactly [capacity] units. *)
Theorem generate_random_state_deals (R : RandomSource) (g : WaterSortGame)
    (r : rng R) :
  lawful_random R -> valid_configuration g = true -> 0 <= capacity g ->
  exists s r',
    _generate_random_state R g r = Generated (s, r') /\
    dealt g s /\ is_valid_state g s = true.
Proof.
  intros HR Hv Hcap.
  destruct (generate_random_state_dealt R g r HR Hv Hcap) as (s & r' & Hs & Hd).
  exists s, r'. split; [done |]. split; [done |].
  destruct Hd as [[fill Hon] _]. by apply (dealt_on_valid g fill).
Qed.

Lemma generate_random_state_deals_witness :
  exists s r',
    _generate_random_state first_pick example_game tt = Generated (s, r') /\
    dealt example_game s /\ is_valid_state example_game s = true.
Proof.
  apply (generate_random_state_deals first_pick example_game tt).
  - exact first_pick_lawful.
  - reflexivity.
  - vm_compute. discriminate.
Defined.

(** X13. With a lawful random source, on a game the constructor accepts
    and a capacity of at least 2, [generate_initial_state] returns, for any
    [scramble_moves] and [max_attempts], a valid state that is not a goal
    and holds exactly [capacity] units of every colour of the game. *)
Theorem generate_initial_state_unsolved (R : RandomSource) (g : WaterSortGame)
    (scramble_moves max_attempts : Z) (r : rng R) :
  lawful_random R -> valid_configuration g = true -> 2 <= capacity g ->
  exists s r',
    generate_initial_state R g scramble_moves max_attempts r = Generated (s, r') /\
    is_valid_state g s = true /\
    is_goal_state g s = false /\
    forall c, color_units c s = palette_units g c.
Proof.
  intros HR Hv Hcap.
  destruct (generate_initial_state_spec R g scramble_moves max_attempts r HR Hv
              ltac:(lia)) as (s & r' & Hs & Hgoal & _ & Hunits & Hvalid & _).
  exists s, r'. auto.
Qed.

Lemma generate_initial_state_unsolved_witness :
  generate_initial_state first_pick example_game 60 10 tt
    = Generated (unsettled_state, tt) /\
  exists s r',
    generate_initial_state first_pick example_game 60 10 tt = Generated (s, r') /\
    is_valid_state example_game s = true /\
    is_goal_state example_game s = false /\
    forall c, color_units c s = palette_units example_game c.
Proof.
  split; [vm_compute; reflexivity |].
  apply (generate_initial_state_unsolved first_pick example_game 60 10 tt).
  - exact first_pick_lawful.
  - reflexivity.
  - vm_compute. discriminate.
Defined.

(** X14. With capacity 1 every candidate of [generate_initial_state] is
    solved, and the fallback puts two units in one tube: the state returned
    is not a valid state. *)
Theorem generate_initial_state_overfills (R : RandomSource) (g : WaterSortGame)
    (scramble_moves max_attempts : Z) (r : rng R) :
  lawful_random R -> valid_configuration g = true -> capacity g = 1 ->
  exists s r',
    generate_initial_state R g scramble_moves max_attempts r = Generated (s, r') /\
    is_valid_state g s = false.
Proof.
  intros HR Hv Hcap.
  destruct (generate_initial_state_spec R g scramble_moves max_attempts r HR Hv
              ltac:(lia)) as (s & r' & Hs & _ & _ & _ & _ & Hover).
  exists s, r'. auto.
Qed.

Lemma generate_initial_state_overfills_witness :
  generate_initial_state first_pick thimble_game 60 10 tt
    = Generated (thimble_state, tt) /\
  exists s r',
    generate_initial_state first_pick thimble_game 60 10 tt = Generated (s, r') /\
    is_valid_state thimble_game s = false.
Proof.
  split; [vm_compute; reflexivity |].
  apply (generate_initial_state_overfills first_pick thimble_game 60 10 tt).
  - exact first_pick_lawful.
  - reflexivity.
  - reflexivity.
Defined.

(** * Scrambling and the solvability test *)

Lemma scramble_loop_spec (R : RandomSource) (g : WaterSortGame) :
  lawful_random R ->
  forall (steps : nat) (current : State) (previous : option Move) (r : rng R),
    is_valid_state g current = true ->
    exists s' r' ms,
      scramble_loop R g steps current previous r = Ret (s', r') /\
      run_moves g current ms = Ret s' /\
      (length ms <= steps)%nat /\
      no_undo previous ms /\
      is_valid_state g s' = true /\
      forall c, color_units c s' = color_units c current.
Proof.
  intros HR. induction steps as [| steps IH]; intros current previous r Hv.
  - exists current, r, []. simpl. repeat split; [lia | done].
  - cbn [scramble_loop].
    set (moves := match previous with
                  | Some previous =>
                      filter (fun m => ~ (src m = dst previous /\ dst m = src previous))
                             (get_valid_moves g current)
                  | None => get_valid_moves g current
                  end).
    assert (Hmoves : forall m, m ∈ moves ->
              m ∈ get_valid_moves g current /\
              match previous with
              | Some p => ~ (src m = dst p /\ dst m = src p)
              | None => True
              end).
    { intros m Hm. subst moves. destruct previous as [p |]; [| done].
      apply list_elem_of_filter in Hm as [? ?]. done. }
    destruct moves as [| m0 moves'] eqn:Hmv.
    { exists current, r, []. simpl. repeat split; [lia | done]. }
    destruct (random_choice_lawful R r (m0 :: moves') HR ltac:(done))
      as (move & r1 & -> & Hin).
    destruct (Hmoves move Hin) as [Hvalid Hprev].
    destruct (apply_enumerated g current move Hv Hvalid) as (s1 & k & Happ & Hv1).
    rewrite Happ. simpl.
    destruct (IH s1 (Some move) r1 Hv1) as (s' & r' & ms & -> & Hrun & Hlen & Hno & Hv' & Hu).
    exists s', r', (move :: ms). split; [done |]. split.
    { simpl. rewrite Happ. simpl. exact Hrun. }
    split; [simpl; lia |]. split; [by split |]. split; [done |].
    intros c. rewrite Hu. by apply (pour_preserves g current move s1 k Happ).
Qed.

(** X15. With a lawful random source, [_scramble_state] on a valid state
    returns a state reached by at most [scramble_moves] legal pours, none
    of which is the reverse of the pour before it; the state is valid and
    holds the same units of every colour. *)
Theorem scramble_state_pours (R : RandomSource) (g : WaterSortGame)
    (state : State) (scramble_moves : Z) (r : rng R) :
  lawful_random R -> is_valid_state g state = true ->
  exists s' r' ms,
    _scramble_state R g state scramble_moves r = Ret (s', r') /\
    run_moves g state ms = Ret s' /\
    len ms <= Z.max 0 scramble_moves /\
    no_undo None ms /\
    is_valid_state g s' = true /\
    forall c, color_units c s' = color_units c state.
Proof.
  intros HR Hv. unfold _scramble_state.
  destruct (scramble_loop_spec R g HR (Z.to_nat scramble_moves) state None r Hv)
    as (s' & r' & ms & Hs & Hrun & Hlen & Hno & Hv' & Hu).
  exists s', r', ms. repeat split; try done. unfold len. lia.
Qed.

Lemma scramble_state_pours_witness :
  exists s' r' ms,
    _scramble_state first_pick example_game example_solved 3 tt = Ret (s', r') /\
    run_moves example_game example_solved ms = Ret s' /\
    len ms <= Z.max 0 3 /\
    no_undo None ms /\
    is_valid_state example_game s' = true /\
    forall c, color_units c s' = color_units c example_solved.
Proof.
  apply (scramble_state_pours first_pick example_game example_solved 3 tt).
  - exact first_pick_lawful.
  - reflexivity.
Defined.

(** ** [_is_solvable] *)

Section IsSolvable.

Context (g : WaterSortGame) (s0 : State) (node_limit : Z).

Lemma solvable_for_moves (current : State) (valid_moves : list Move) :
  (exists ms, run_moves g s0 ms = Ret current) ->
  forall v v',
    Solvable.for_moves g current valid_moves v = Ret v' ->
    Forall (fun x => exists ms, run_moves g s0 ms = Ret x) (Solvable.frontier v) ->
    Forall (fun x => exists ms, run_moves g s0 ms = Ret x) (Solvable.frontier v') /\
    Solvable.nodes v' = Solvable.nodes v.
Proof.
  intros [ms Hms]. induction valid_moves as [| move rest IH]; intros v v'; simpl.
  - by intros [= <-].
  - intros Hret Hall. inv_bind Hret. destruct a as [next_state k].
    destruct (decide (next_state ∈ Solvable.visited v)); [by apply IH |].
    apply IH in Hret as [H1 H2]; [by split |]. simpl.
    apply Forall_app. split; [done |]. constructor; [| constructor].
    exists (ms ++ [move]). by eapply run_moves_snoc.
Qed.

Lemma solvable_while_sound (fuel : nat) :
  forall v,
    Solvable.while_frontier fuel g node_limit v = Ret true ->
    0 <= Solvable.nodes v ->
    Forall (fun x => exists ms, run_moves g s0 ms = Ret x) (Solvable.frontier v) ->
    0 <= node_limit /\
    exists ms y, run_moves g s0 ms = Ret y /\ is_goal_state g y = true.
Proof.
  induction fuel as [| fuel IH]; intros v; simpl; [done |].
  destruct (Solvable.frontier v) as [| current rest] eqn:Hf; [done |].
  destruct (Solvable.nodes v <=? node_limit) eqn:Hn; [| done].
  apply Z.leb_le in Hn.
  destruct (is_goal_state g current) eqn:Hgoal.
  - intros _ Hnodes [[ms Hms] _]%Forall_cons. split; [lia |]. by exists ms, current.
  - intros Hret Hnodes [Hcur Hrest]%Forall_cons. inv_bind Hret.
    apply (solvable_for_moves current _ Hcur) in Ha as [H1 H2]; [| done].
    simpl in H2. apply (IH a); [done | lia | done].
Qed.

Lemma solvable_for_moves_returns (current : State) (valid_moves : list Move) :
  is_valid_state g current = true ->
  Forall (fun m => m ∈ get_valid_moves g current) valid_moves ->
  forall v,
    Forall (fun x => is_valid_state g x = true) (Solvable.frontier v) ->
    exists v',
      Solvable.for_moves g current valid_moves v = Ret v' /\
      Forall (fun x => is_valid_state g x = true) (Solvable.frontier v') /\
      Solvable.nodes v' = Solvable.nodes v.
Proof.
  intros Hv. induction 1 as [| move rest Hm Hall IH]; intros v Hfr; simpl.
  - by exists v.
  - destruct (apply_enumerated g current move Hv Hm) as (s' & k & -> & Hv').
    simpl. destruct (decide (s' ∈ Solvable.visited v)); [by apply IH |].
    destruct (IH {| Solvable.frontier := Solvable.frontier v ++ [s'];
                    Solvable.visited := {[s']} ∪ Solvable.visited v;
                    Solvable.nodes := Solvable.nodes v |}) as (v' & -> & H1 & H2).
    + simpl. apply Forall_app. split; [done |]. by constructor.
    + by exists v'.
Qed.

Lemma solvable_while_returns (fuel : nat) :
  forall v,
    Forall (fun x => is_valid_state g x = true) (Solvable.frontier v) ->
    (S (Z.to_nat (node_limit + 1 - Solvable.nodes v)) <= fuel)%nat ->
    exists b, Solvable.while_frontier fuel g node_limit v = Ret b.
Proof.
  induction fuel as [| fuel IH]; intros v Hfr Hfuel; [lia |]. simpl.
  destruct (Solvable.frontier v) as [| current rest] eqn:Hf; [by exists false |].
  destruct (Solvable.nodes v <=? node_limit) eqn:Hn; [| by exists false].
  apply Z.leb_le in Hn. apply Forall_cons in Hfr as [Hcur Hrest].
  destruct (is_goal_state g current); [by exists true |].
  destruct (solvable_for_moves_returns current (get_valid_moves g current) Hcur
              ltac:(by apply Forall_forall)
              {| Solvable.frontier := rest; Solvable.visited := Solvable.visited v;
                 Solvable.nodes := Solvable.nodes v + 1 |} Hrest)
    as (v' & -> & H1 & H2).
  simpl in *. apply IH; [done |]. rewrite H2. lia.
Qed.

End IsSolvable.

(** X16. When [_is_solvable] answers [True], the node limit is not
    negative and some sequence of legal pours leads from the state to a goal
    state. *)
Theorem is_solvable_sound (g : WaterSortGame) (state : State) (node_limit : Z)
    (fuel : nat) :
  _is_solvable fuel g state node_limit = Ret true ->
  0 <= node_limit /\
  exists ms y, run_moves g state ms = Ret y /\ is_goal_state g y = true.
Proof.
  unfold _is_solvable. intros Hret.
  apply (solvable_while_sound g state node_limit fuel _ Hret).
  - simpl. lia.
  - simpl. constructor; [| constructor]. by exists [].
Qed.

Lemma is_solvable_sound_witness :
  _is_solvable 10 example_game example_state 5 = Ret true /\
  0 <= 5 /\
  exists ms y, run_moves example_game example_state ms = Ret y /\
               is_goal_state example_game y = true.
Proof.
  assert (H : _is_solvable 10 example_game example_state 5 = Ret true)
    by (vm_compute; reflexivity).
  split; [exact H |].
  exact (is_solvable_sound example_game example_state 5 10 H).
Defined.

(** X17. On a valid state [_is_solvable] raises nothing and answers
    within [node_limit + 2] tests of its loop condition. *)
Theorem is_solvable_returns (g : WaterSortGame) (state : State) (node_limit : Z)
    (fuel : nat) :
  is_valid_state g state = true ->
  Z.max 0 (node_limit + 1) < Z.of_nat fuel ->
  exists b, _is_solvable fuel g state node_limit = Ret b.
Proof.
  intros Hv Hfuel. unfold _is_solvable.
  apply solvable_while_returns.
  - simpl. by constructor.
  - simpl. lia.
Qed.

Lemma is_solvable_returns_witness :
  exists b, _is_solvable 2 example_game winding_state 0 = Ret b.
Proof.
  apply (is_solvable_returns example_game winding_state 0 2).
  - reflexivity.
  - vm_compute. reflexivity.
Defined.

(** * Exhaustion and the counters of the searches *)

Lemma extract_min_split (rest : list (Z * Z * State)) :
  forall e m others,
    AStar.extract_min e rest = (m, others) ->
    forall x, x ∈ e :: rest -> x = m \/ x ∈ others.
Proof.
  induction rest as [| e' rest IH]; intros e m others; simpl.
  - intros [= <- <-] x ->%list_elem_of_singleton. by left.
  - destruct (AStar.extract_min e' rest) as [m' others'] eqn:Hex.
    specialize (IH e' m' others' Hex).
    destruct (AStar.entry_lt m' e).
    + intros [= <- <-] x [-> | Hin]%elem_of_cons.
      * right. left.
      * destruct (IH x Hin) as [-> | Hin']; [by left | right; by right].
    + intros [= <- <-] x [-> | Hin]%elem_of_cons; [by left | by right].
Qed.

Section AStarExhausts.

Context (g : WaterSortGame) (heuristic : State -> Z) (s0 : State).

Lemma astar_for_moves_closure (current : State) (current_g : Z)
    (valid_moves : list Move) :
  forall v v',
    AStar.for_moves g heuristic current current_g valid_moves v = Ret v' ->
    AStar.visited v' = AStar.visited v /\
    (forall s, is_Some (AStar.g_cost v !! s) -> is_Some (AStar.g_cost v' !! s)) /\
    (forall e, e ∈ AStar.open_heap v -> e ∈ AStar.open_heap v') /\
    (forall s, is_Some (AStar.g_cost v' !! s) ->
               is_Some (AStar.g_cost v !! s) \/
               exists f c, (f, c, s) ∈ AStar.open_heap v') /\
    (forall m s' k, m ∈ valid_moves -> apply_move g current m = Ret (s', k) ->
                    is_Some (AStar.g_cost v' !! s')).
Proof.
  induction valid_moves as [| move rest IH]; intros v v'; simpl.
  - intros [= <-]. repeat split; try done; [by left |].
    by intros m s' k ?%elem_of_nil.
  - intros Hret. inv_bind Hret. destruct a as [next_state k0].
    destruct (match AStar.g_cost v !! next_state with
              | Some known => current_g + 1 >=? known
              | None => false
              end) eqn:Hskip.
    + destruct (IH _ _ Hret) as (Hvis & Hmono & Hheap & Hnew & Hsucc).
      repeat split; try done.
      intros m s' k [-> | Hm]%elem_of_cons Happ; [| by eapply Hsucc].
      rewrite Ha in Happ. injection Happ as <- <-. apply Hmono.
      by destruct (AStar.g_cost v !! next_state).
    + destruct (IH _ _ Hret) as (Hvis & Hmono & Hheap & Hnew & Hsucc).
      simpl in *. split; [done |]. split; [| split; [| split]].
      * intros s Hs. apply Hmono.
        destruct (decide (s = next_state)) as [-> | Hne].
        -- rewrite lookup_insert_eq. by eexists.
        -- by rewrite lookup_insert_ne.
      * intros e He. apply Hheap. unfold AStar.heappush.
        apply elem_of_app. by left.
      * intros s Hs. destruct (Hnew s Hs) as [Hold | Hentry]; [| by right].
        destruct (decide (s = next_state)) as [-> | Hne].
        -- right. eexists _, _. apply Hheap. unfold AStar.heappush.
           apply elem_of_app. right. left.
        -- left. by rewrite lookup_insert_ne in Hold.
      * intros m s' k [-> | Hm]%elem_of_cons Happ; [| by eapply Hsucc].
        rewrite Ha in Happ. injection Happ as <- <-. apply Hmono.
        rewrite lookup_insert_eq. by eexists.
Qed.

Lemma astar_while_exhausts (fuel : nat) :
  forall (v : AStar.vars) (r : SearchResult) (v' : AStar.vars),
    astar_inv g s0 v ->
    AStar.while_open fuel g heuristic v = Ret (r, v') ->
    success r = false ->
    astar_inv g s0 v' /\ AStar.open_heap v' = [].
Proof.
  induction fuel as [| fuel IH]; intros v r v' Hinv; simpl; [done |].
  destruct (AStar.open_heap v) as [| e heap] eqn:Hheap; simpl.
  { intros [= <- <-] _. by split. }
  destruct (AStar.extract_min e heap) as [[[f_score counter] current] heap'] eqn:Hex.
  destruct (extract_min_elem heap e _ _ Hex) as [_ Hothers].
  assert (Hpopped : forall f c s,
            (f, c, s) ∈ e :: heap -> s = current \/ (f, c, s) ∈ heap').
  { intros f c s Hin.
    destruct (extract_min_split heap e _ _ Hex _ Hin) as [[= _ _ ->] | ?];
      [by left | by right]. }
  destruct (decide (current ∈ AStar.visited v)) as [Hin | Hnot].
  { apply IH. split; simpl.
    - apply (ai_start Hinv).
    - intros s Hs. destruct (ai_known Hinv s Hs) as [? | (f & c & He)]; [by left |].
      rewrite Hheap in He. destruct (Hpopped f c s He) as [-> | ?]; [by left |].
      right. by exists f, c.
    - apply (ai_closed Hinv). }
  destruct (is_goal_state g current) eqn:Hgoal.
  { intros Hret. inv_bind Hret. by injection Hret as <- <-. }
  destruct (AStar.g_cost v !! current) as [current_g |] eqn:Hg; simpl; [| done].
  intros Hret. inv_bind Hret.
  apply astar_for_moves_closure in Ha as (Hvis & Hmono & Hkeep & Hnew & Hsucc).
  simpl in *. intros Hfail.
  refine (IH (AStar.measured a) r v' _ Hret Hfail). split; simpl.
  - apply Hmono, (ai_start Hinv).
  - intros s Hs. rewrite Hvis.
    destruct (Hnew s Hs) as [Hold | Hentry]; [| by right].
    destruct (ai_known Hinv s Hold) as [? | (f & c & He)].
    + left. apply elem_of_union. by right.
    + rewrite Hheap in He. destruct (Hpopped f c s He) as [-> | ?].
      * left. apply elem_of_union. left. by apply elem_of_singleton.
      * right. exists f, c. by apply Hkeep.
  - intros s. rewrite Hvis. intros [->%elem_of_singleton | Hs]%elem_of_union.
    + split; [done |]. intros m s' k Happ. apply (Hsucc m s' k); [| done].
      apply get_valid_moves_legal, can_pour_legal.
      by apply apply_move_Ret_inv in Happ as [? _].
    + destruct (ai_closed Hinv s Hs) as [? Hc]. split; [done |].
      intros m s' k Happ. apply Hmono. by eapply Hc.
Qed.

End AStarExhausts.

(** X18. A failing [a_star] has finalized every state that legal pours
    reach from the initial state, and none of them is a goal: whatever the
    heuristic, it reports failure only when the puzzle has no solution. *)
Theorem a_star_failure_no_solution (g : WaterSortGame) (s0 : State)
    (heuristic : State -> Z) (fuel : nat) (r : SearchResult) :
  a_star fuel g s0 heuristic = Ret r ->
  success r = false ->
  forall (q : list Move) (y : State),
    run_moves g s0 q = Ret y -> is_goal_state g y = false.
Proof.
  unfold a_star, a_star_run. intros Hret Hfail.
  inv_bind Hret. destruct a as [r' v']. injection Hret as ->.
  apply (astar_while_exhausts g heuristic s0) in Ha as [Hinv Hempty]; [| | done].
  - assert (Hall : forall q y, run_moves g s0 q = Ret y -> y ∈ AStar.visited v').
    { induction q as [| m q IH] using rev_ind; intros y Hrun.
      - injection Hrun as <-.
        destruct (ai_known Hinv s0 (ai_start Hinv)) as [? | (f & c & He)]; [done |].
        rewrite Hempty in He. by apply elem_of_nil in He.
      - apply run_moves_snoc_inv in Hrun as (p & k & Hp & Happ).
        destruct (ai_closed Hinv p (IH p Hp)) as [_ Hc].
        destruct (ai_known Hinv y (Hc m y k Happ)) as [? | (f & c & He)]; [done |].
        rewrite Hempty in He. by apply elem_of_nil in He. }
    intros q y Hrun. by destruct (ai_closed Hinv y (Hall q y Hrun)).
  - split; simpl.
    + rewrite lookup_singleton_eq. by eexists.
    + intros s [x Hs]. apply lookup_singleton_Some in Hs as [<- _].
      right. eexists _, _. left.
    + by intros s ?%elem_of_empty.
Qed.

Lemma a_star_failure_no_solution_witness :
  a_star 5 example_game stuck_state (entropy_heuristic example_game)
    = Ret (mkResult false [] 1 1 1 0) /\
  forall (q : list Move) (y : State),
    run_moves example_game stuck_state q = Ret y ->
    is_goal_state example_game y = false.
Proof.
  assert (Ha : a_star 5 example_game stuck_state (entropy_heuristic example_game)
               = Ret (mkResult false [] 1 1 1 0))
    by (vm_compute; reflexivity).
  split; [exact Ha |].
  exact (a_star_failure_no_solution example_game stuck_state
           (entropy_heuristic example_game) 5 _ Ha eq_refl).
Defined.

(** X19. [bfs] never reports more expanded than explored nodes, and a
    failing [bfs] has expanded every state it explored. *)
Theorem bfs_explored_expanded (g : WaterSortGame) (s0 : State) (fuel : nat)
    (r : SearchResult) :
  bfs fuel g s0 = Ret r ->
  expanded_nodes r <= explored_nodes r /\
  (success r = false -> explored_nodes r = expanded_nodes r).
Proof.
  unfold bfs, bfs_run. intros Hret.
  inv_bind Hret. destruct a as [r' ov]. injection Hret as ->.
  destruct (is_goal_state g s0); [injection Ha as <- <-; simpl; split; [lia | done] |].
  inv_bind Ha. destruct a as [r' v]. injection Ha as -> <-.
  apply (bfs_while_rule g
           (fun v => Bfs.visited_history v = Bfs.visited v /\
                     Z.of_nat (size (Bfs.visited_history v))
                     = Bfs.expanded v + len (Bfs.frontier v))) in Ha0
    as (v1 & [Hsame Hcount] & Hexit).
  - destruct Hexit as [(Hf & _ & ->) | (current & rest & fuel' & path & Hf & _ & _ & _ & ->)];
      simpl; rewrite Hf in Hcount; unfold len in Hcount; simpl in Hcount.
    + split; [lia |]. intros _. lia.
    + split; [lia | done].
  - intros v0 current rest v1 [Hsame Hcount] Hf _ Hfor. simpl.
    eapply (bfs_for_moves_rule g
              (fun v => Bfs.visited_history v = Bfs.visited v /\
                        Z.of_nat (size (Bfs.visited_history v))
                        = Bfs.expanded v + len (Bfs.frontier v)));
      [| | exact Hfor].
    + intros w move next_state k [Hs Hc] _ Hnew. simpl. split; [by rewrite Hs |].
      rewrite size_union by (apply disjoint_singleton_l; by rewrite Hs).
      rewrite size_singleton, len_app. unfold len in *. simpl. lia.
    + simpl. split; [done |]. rewrite Hf in Hcount.
      unfold len in *. simpl in Hcount. lia.
  - simpl. split; [done |].
    change (Z.of_nat (size ({[s0]} : gset State)) = 0 + len [s0]).
    rewrite size_singleton. done.
Qed.

Lemma bfs_explored_expanded_witness :
  bfs 5 example_game example_state = Ret example_bfs_result /\
  expanded_nodes example_bfs_result <= explored_nodes example_bfs_result /\
  (success example_bfs_result = false ->
   explored_nodes example_bfs_result = expanded_nodes example_bfs_result).
Proof.
  assert (Hb : bfs 5 example_game example_state = Ret example_bfs_result)
    by (vm_compute; reflexivity).
  split; [exact Hb |].
  exact (bfs_explored_expanded example_game example_state 5 example_bfs_result Hb).
Defined.

(** ** The puzzle handed to the searches *)

Lemma WaterSortGame_init_Ret (num_tubes num_colors capacity : Z) (g : WaterSortGame) :
  WaterSortGame_init num_tubes num_colors capacity = Ret g ->
  g = mkGame num_tubes num_colors capacity /\ valid_configuration g = true.
Proof.
  unfold WaterSortGame_init.
  destruct ((5 <=? num_tubes) && (num_tubes <=? 12)) eqn:HT; simpl; [| done].
  destruct ((3 <=? num_colors) && (num_colors <=? num_tubes - 2)) eqn:HC; simpl;
    [| done].
  destruct (num_colors >? len DEFAULT_COLORS) eqn:HP; [done |].
  intros [= <-]. split; [done |]. unfold valid_configuration. simpl.
  rewrite !andb_true_iff, !Z.leb_le in *.
  rewrite Z.gtb_ltb in HP. apply Z.ltb_ge in HP. unfold len in HP. simpl in HP. lia.
Qed.

(** X20. A game built by the constructor with a capacity of at least 2 and
    a puzzle drawn for it by [generate_initial_state] go together: none of
    the four searches raises the [ValueError] of a rejected move on the
    puzzle, and a search that succeeds returns at least one move. *)
Theorem generated_puzzle_searchable (R : RandomSource)
    (num_tubes num_colors capacity : Z) (g : WaterSortGame)
    (scramble_moves max_attempts : Z) (r : rng R) :
  lawful_random R ->
  WaterSortGame_init num_tubes num_colors capacity = Ret g ->
  2 <= capacity ->
  exists s r',
    generate_initial_state R g scramble_moves max_attempts r = Generated (s, r') /\
    forall fuel : nat,
      (no_value_error (bfs fuel g s) /\
       (forall depth_limit, no_value_error (dfs fuel g s depth_limit)) /\
       (forall heuristic, no_value_error (a_star fuel g s heuristic)) /\
       (forall heuristic max_depth,
          no_value_error (ida_star fuel g s heuristic max_depth))) /\
      forall res,
        bfs fuel g s = Ret res \/
        (exists depth_limit, dfs fuel g s depth_limit = Ret res) \/
        (exists heuristic, a_star fuel g s heuristic = Ret res) \/
        (exists heuristic max_depth,
           ida_star fuel g s heuristic max_depth = Ret res) ->
        success res = true -> 1 <= depth res.
Proof.
  intros HR Hinit Hcap.
  apply WaterSortGame_init_Ret in Hinit as [-> Hv].
  destruct (generate_initial_state_spec R _ scramble_moves max_attempts r HR Hv
              ltac:(simpl; lia)) as (s & r' & Hs & Hgoal & _ & _ & Hvalid & _).
  specialize (Hvalid Hcap).
  exists s, r'. split; [done |]. intros fuel. split.
  - by apply searches_no_value_error.
  - intros res Hrun Hsucc.
    destruct (successful_result_solves_any _ s fuel res Hrun Hsucc)
      as (goal & Hmoves & Hg & ->).
    destruct (moves res) as [| m ms].
    + injection Hmoves as <-. congruence.
    + unfold len. simpl. lia.
Qed.

Lemma generated_puzzle_searchable_witness :
  exists s r',
    generate_initial_state first_pick example_game 60 10 tt = Generated (s, r') /\
    forall fuel : nat,
      (no_value_error (bfs fuel example_game s) /\
       (forall depth_limit, no_value_error (dfs fuel example_game s depth_limit)) /\
       (forall heuristic, no_value_error (a_star fuel example_game s heuristic)) /\
       (forall heuristic max_depth,
          no_value_error (ida_star fuel example_game s heuristic max_depth))) /\
      forall res,
        bfs fuel example_game s = Ret res \/
        (exists depth_limit, dfs fuel example_game s depth_limit = Ret res) \/
        (exists heuristic, a_star fuel example_game s heuristic = Ret res) \/
        (exists heuristic max_depth,
           ida_star fuel example_game s heuristic max_depth = Ret res) ->
        success res = true -> 1 <= depth res.
Proof.
  apply (generated_puzzle_searchable first_pick 5 3 4 example_game 60 10 tt).
  - exact first_pick_lawful.
  - reflexivity.
  - vm_compute. discriminate.
Defined.
